(** * EGRET regular-expression scanner (src/Scanner.cpp)

    A shallow embedding of [Scanner::init] with its sub-processors
    ([get_next_char], [process_octal], [process_hex], [process_extension],
    [process_repeat]) and of the token cursor ([get_type], the repeat
    accessors, [is_concat], [is_char_range]), followed by the properties
    of the scanner that the specification states.

    Conventions of the embedding:
    - [std::string] is a [list ascii]; [in.length()] is [slen], [in[i]] is
      [char_at];
    - [unsigned int] values are integers reduced modulo [2^32] by [uint],
      [size_t] values modulo [2^64] by [size_t];
    - a [char] is compared through its signed value [char_val];
    - [throw EgretException(msg)] is the outcome [Throw msg];
    - loops whose trip count is not fixed run on fuel; [Diverge] is the
      outcome of a loop that is still running when the fuel is used up. *)

From Stdlib Require Import ZArith List Ascii String Bool Lia DecimalString.
Import ListNotations.
Local Open Scope Z_scope.

(** ** Machine integers and characters *)

Definition uint (z : Z) : Z := z mod 4294967296.

Definition size_t (z : Z) : Z := z mod 18446744073709551616.

Definition INT_MAX : Z := 2147483647.

(** Value of a [char] after promotion to [int] ([char] is signed). *)
Definition char_val (c : ascii) : Z :=
  let n := Z.of_N (N_of_ascii c) in
  if n <? 128 then n else n - 256.

(** Conversion of an [int] to [char]. *)
Definition char_of_int (v : Z) : ascii := ascii_of_N (Z.to_N (v mod 256)).

(** [isdigit] of <cctype>. *)
Definition isdigit (c : ascii) : bool :=
  (48 <=? char_val c) && (char_val c <=? 57).

(** [std::string]. *)
Definition slen (inp : list ascii) : Z := Z.of_nat (List.length inp).

Definition char_at (inp : list ascii) (i : Z) : ascii :=
  nth (Z.to_nat i) inp zero.

(** [operator<<] on an [int] and on a [char]. *)
Definition dec (v : Z) : string := NilZero.string_of_int (Z.to_int v).

Definition chr (c : ascii) : string := String c EmptyString.

Definition backslash : ascii := "092"%char.
Definition dquote : ascii := "034"%char.
Definition squote : ascii := "039"%char.
Definition endl : string := chr "010"%char.

(** [ss >> n] for a [stringstream] holding a run of decimal digits and an
    [int] n: the decimal value, or the largest [int] when the value does
    not fit. *)
Definition digits_value (count_str : list ascii) : Z :=
  fold_left (fun acc c => 10 * acc + (char_val c - 48)) count_str 0.

Definition extract_int (count_str : list ascii) : Z :=
  Z.min (digits_value count_str) INT_MAX.

(** ** Tokens *)

(** Modelled from the spec: the enumeration [TokenType] is declared in
    Scanner.h, which is not among the sources at hand.  Its constants are
    the ones Scanner.cpp names, one for each token kind of the data model;
    [ERR] is the kind reported when the cursor is exhausted. *)
Inductive TokenType : Type :=
| ALTERNATION | STAR | PLUS | QUESTION | REPEAT
| LEFT_PAREN | RIGHT_PAREN | CHARACTER | CHAR_CLASS
| LEFT_BRACKET | RIGHT_BRACKET | CARET | DOLLAR | WORD_BOUNDARY
| HYPHEN | NO_GROUP_EXT | NAMED_GROUP_EXT | IGNORED_EXT | ERR.

Definition TokenType_eqb (a b : TokenType) : bool :=
  match a, b with
  | ALTERNATION, ALTERNATION | STAR, STAR | PLUS, PLUS
  | QUESTION, QUESTION | REPEAT, REPEAT | LEFT_PAREN, LEFT_PAREN
  | RIGHT_PAREN, RIGHT_PAREN | CHARACTER, CHARACTER
  | CHAR_CLASS, CHAR_CLASS | LEFT_BRACKET, LEFT_BRACKET
  | RIGHT_BRACKET, RIGHT_BRACKET | CARET, CARET | DOLLAR, DOLLAR
  | WORD_BOUNDARY, WORD_BOUNDARY | HYPHEN, HYPHEN
  | NO_GROUP_EXT, NO_GROUP_EXT | NAMED_GROUP_EXT, NAMED_GROUP_EXT
  | IGNORED_EXT, IGNORED_EXT | ERR, ERR => true
  | _, _ => false
  end.

(** Modelled from the spec: the structure [Token] is declared in
    Scanner.h; it holds the kind, a single [char] and the two signed
    integer bounds, under the field names that Scanner.cpp uses. *)
Record Token : Type := mkToken {
  type : TokenType;
  repeat_lower : Z;
  repeat_upper : Z;
  character : ascii
}.

Definition set_type (t : Token) (ty : TokenType) : Token :=
  mkToken ty (repeat_lower t) (repeat_upper t) (character t).

Definition set_character (t : Token) (c : ascii) : Token :=
  mkToken (type t) (repeat_lower t) (repeat_upper t) c.

Definition set_repeat_lower (t : Token) (v : Z) : Token :=
  mkToken (type t) v (repeat_upper t) (character t).

Definition set_repeat_upper (t : Token) (v : Z) : Token :=
  mkToken (type t) (repeat_lower t) v (character t).

(** ** Outcomes and the scanning monad *)

(** Modelled from the spec: [EgretException] is declared in error.h; all
    hard errors are raised as this single exception kind, which carries a
    message string and aborts the scan.  [Throw msg] is the outcome of
    [throw EgretException(msg)]. *)
Inductive outcome (A : Type) : Type :=
| Ok (a : A)
| Throw (msg : string)
| Diverge.

Arguments Ok {A} a.
Arguments Throw {A} msg.
Arguments Diverge {A}.

(** What the sub-processors update: the scan index, which they receive by
    reference, and the warnings collected by [addWarning]. *)
Record position : Type := mkPos {
  idx : Z;
  warnings : list string
}.

Definition M (A : Type) : Type := position -> outcome (A * position).

Definition ret {A} (a : A) : M A := fun s => Ok (a, s).

Definition bind {A B} (m : M A) (k : A -> M B) : M B :=
  fun s => match m s with
           | Ok (a, s') => k a s'
           | Throw msg => Throw msg
           | Diverge => Diverge
           end.

Definition throw {A} (msg : string) : M A := fun _ => Throw msg.

Definition diverge {A} : M A := fun _ => Diverge.

Definition get_idx : M Z := fun s => Ok (idx s, s).

Definition set_idx (i : Z) : M unit := fun s => Ok (tt, mkPos i (warnings s)).

(** Modelled from the spec: [addWarning] is declared outside Scanner.cpp;
    the warning channel is an append-only accumulator of message strings
    that does not affect control flow. *)
Definition addWarning (msg : string) : M unit :=
  fun s => Ok (tt, mkPos (idx s) (warnings s ++ [msg])).

Declare Scope scan_scope.
Delimit Scope scan_scope with scan.
Notation "x <- c ;; k" := (bind c (fun x => k))
  (at level 61, c at next level, right associativity) : scan_scope.
Notation "' pat <- c ;; k" :=
  (bind c (fun x => match x with pat => k end))
  (at level 61, pat pattern, c at next level, right associativity)
  : scan_scope.
Notation "c ;;; k" := (bind c (fun _ => k))
  (at level 61, right associativity) : scan_scope.
Local Open Scope scan_scope.

(** ** Error and warning messages *)

Definition msg_premature : string := "ERROR: Input string ended prematurely".

Definition msg_unsupported_char (c : ascii) : string :=
  ("ERROR: contains unsupported character " ++ chr backslash ++ chr c)%string.

Definition msg_backreference (d : ascii) : string :=
  ("ERROR: contains unsupported backreference value " ++ chr backslash
   ++ chr d)%string.

Definition msg_octal_value (v : Z) : string :=
  ("ERROR: contains unsupported octal value " ++ dec v)%string.

Definition msg_hex_digits (num_digits : Z) : string :=
  ("ERROR: Unsupported " ++ dec num_digits ++ "-digit hex number")%string.

Definition msg_hex_digit (c : ascii) : string :=
  ("ERROR: Invalid hex digit " ++ chr c)%string.

Definition msg_hex_value (v : Z) : string :=
  ("ERROR: contains unsupported hex value " ++ dec v)%string.

Definition msg_named_backreference : string :=
  "ERROR: Unsupported named backreference: (?P=".

Definition msg_named_group : string :=
  "ERROR: Improperly specified named group - expected < after (?P".

Definition msg_extension (ext : ascii) : string :=
  ("ERROR: Unsupported extension ?" ++ chr ext)%string.

Definition msg_extension_lt (c : ascii) : string :=
  ("ERROR: Unsupported extension ?<" ++ chr c)%string.

Definition msg_pointless_0 : string :=
  "ERROR: pointless repeat quantifier {0}".

Definition msg_pointless_00 : string :=
  "ERROR: pointless repeat quantifier {0,0}".

Definition msg_repeat_bounds (lower upper : Z) : string :=
  ("ERROR: Invalid repeat quantifier: lower bound " ++ dec lower
   ++ " is greater than upper bound " ++ dec upper ++ endl)%string.

Definition msg_range (lo hi : ascii) : string :=
  ("ERROR: Improperly formed range " ++ chr lo ++ "-" ++ chr hi
   ++ endl)%string.

Definition msg_range_char_class : string :=
  "ERROR: Improperly constructed range using char class".

Definition warn_word_boundary (c : ascii) : string :=
  ("Regex contains ignored " ++ chr backslash ++ chr c)%string.

Definition warn_extension (ext : ascii) : string :=
  ("Regex contains ignored extension ?" ++ chr ext)%string.

Definition warn_extension_lt (c : ascii) : string :=
  ("Regex contains ignored extension ?<" ++ chr c)%string.

(** ** The sub-processors of the scanner *)

Section Scan.

(** [Token token;] declares a token without initialising it: the fields
    that the code does not assign afterwards keep the values of
    [indeterminate], on which nothing below depends. *)
Variable indeterminate : Token.

(** Fuel given to every loop over the input [inp]. *)
Definition fuel_of (inp : list ascii) : nat := S (List.length inp).

Definition get_next_char (inp : list ascii) : M ascii :=
  i <- get_idx ;;
  set_idx (uint (i + 1)) ;;;
  i <- get_idx ;;
  if i >=? slen inp then throw msg_premature
  else ret (char_at inp i).

Definition process_octal (inp : list ascii) (first_digit : ascii) : M Token :=
  i <- get_idx ;;
  let second_digit := char_at inp (uint (i + 1)) in
  let only_one_digit :=
    if uint (i + 1) >=? slen inp then true
    else (char_val second_digit <? char_val "0")
         || (char_val second_digit >? char_val "7") in
  if only_one_digit then
    if (first_digit =? "0")%char then throw (msg_unsupported_char "0")
    else throw (msg_backreference first_digit)
  else
    let third_digit := char_at inp (uint (i + 2)) in
    let has_three_digits :=
      (uint (i + 2) <? slen inp)
      && ((char_val third_digit >=? char_val "0")
          && (char_val third_digit <=? char_val "7")) in
    octal_value <-
      (if has_three_digits then
         set_idx (uint (i + 2)) ;;;
         ret ((char_val first_digit - char_val "0") * 64
              + (char_val second_digit - char_val "0") * 8
              + (char_val third_digit - char_val "0"))
       else
         set_idx (uint (i + 1)) ;;;
         ret ((char_val first_digit - char_val "0") * 8
              + (char_val second_digit - char_val "0"))) ;;
    if (octal_value <? 32) || (octal_value >? 126)
    then throw (msg_octal_value octal_value)
    else ret (set_character (set_type indeterminate CHARACTER)
                            (char_of_int octal_value)).

(** The loop [for (int i = 2; i < num_digits; i++)] of [process_hex],
    with [n] iterations left. *)
Fixpoint hex_extra_digits (n : nat) (inp : list ascii) (num_digits : Z)
  : M unit :=
  match n with
  | O => ret tt
  | S n' =>
      d <- get_next_char inp ;;
      if negb (d =? "0")%char then throw (msg_hex_digits num_digits)
      else hex_extra_digits n' inp num_digits
  end.

Definition process_hex (inp : list ascii) (num_digits : Z) : M Token :=
  hex_extra_digits (Z.to_nat (num_digits - 2)) inp num_digits ;;;
  first_digit <- get_next_char inp ;;
  second_digit <- get_next_char inp ;;
  hex_value <-
    (if (char_val first_digit >=? char_val "0")
        && (char_val first_digit <=? char_val "9")
     then ret ((char_val first_digit - char_val "0") * 16)
     else if (char_val first_digit >=? char_val "A")
             && (char_val first_digit <=? char_val "F")
     then ret ((char_val first_digit - char_val "A" + 10) * 16)
     else if (char_val first_digit >=? char_val "a")
             && (char_val first_digit <=? char_val "f")
     then ret ((char_val first_digit - char_val "a" + 10) * 16)
     else throw (msg_hex_digit first_digit)) ;;
  hex_value <-
    (if (char_val second_digit >=? char_val "0")
        && (char_val second_digit <=? char_val "9")
     then ret (hex_value + (char_val second_digit - char_val "0"))
     else if (char_val second_digit >=? char_val "A")
             && (char_val second_digit <=? char_val "F")
     then ret (hex_value + (char_val second_digit - char_val "A" + 10))
     else if (char_val second_digit >=? char_val "a")
             && (char_val second_digit <=? char_val "f")
     then ret (hex_value + (char_val second_digit - char_val "a" + 10))
     else throw (msg_hex_digit second_digit)) ;;
  if (hex_value <? 32) || (hex_value >? 126)
  then throw (msg_hex_value hex_value)
  else ret (set_character (set_type indeterminate CHARACTER)
                          (char_of_int hex_value)).

(** The loop [while (c != '>') c = get_next_char(in, idx);]. *)
Fixpoint skip_to_gt (fuel : nat) (inp : list ascii) (c : ascii) : M unit :=
  match fuel with
  | O => diverge
  | S fuel' =>
      if negb (c =? ">")%char then
        c' <- get_next_char inp ;; skip_to_gt fuel' inp c'
      else ret tt
  end.

Definition process_extension (inp : list ascii) : M Token :=
  let token := indeterminate in
  ext <- get_next_char inp ;;
  if (ext =? ":")%char then
    ret (set_type token NO_GROUP_EXT)
  else if (ext =? "P")%char then
    c <- get_next_char inp ;;
    if (c =? "=")%char then throw msg_named_backreference
    else if negb (c =? "<")%char then throw msg_named_group
    else
      skip_to_gt (fuel_of inp) inp c ;;;
      ret (set_type token NAMED_GROUP_EXT)
  else if (ext =? "#")%char || (ext =? "=")%char || (ext =? "!")%char then
    addWarning (warn_extension ext) ;;;
    ret (set_type token IGNORED_EXT)
  else if (ext =? "<")%char then
    c <- get_next_char inp ;;
    if (c =? "=")%char || (c =? "!")%char then
      addWarning (warn_extension_lt c) ;;;
      ret (set_type token IGNORED_EXT)
    else throw (msg_extension_lt c)
  else throw (msg_extension ext).

(** The loop [while (isdigit(c)) { count_str += c; c = get_next_char(in, idx); }]:
    returns the digits read and the stopping character. *)
Fixpoint read_digits (fuel : nat) (inp : list ascii) (count_str : list ascii)
  (c : ascii) : M (list ascii * ascii) :=
  match fuel with
  | O => diverge
  | S fuel' =>
      if isdigit c then
        c' <- get_next_char inp ;;
        read_digits fuel' inp (count_str ++ [c]) c'
      else ret (count_str, c)
  end.

Definition is_empty (count_str : list ascii) : bool :=
  match count_str with [] => true | _ => false end.

Definition process_repeat (inp : list ascii) : M Token :=
  current_idx <- get_idx ;;
  let token := set_character (set_type indeterminate CHARACTER) "{" in
  c <- get_next_char inp ;;
  '(count_str, c) <- read_digits (fuel_of inp) inp [] c ;;
  if (c =? ",")%char then
    let token :=
      if is_empty count_str then set_repeat_lower token (-1)
      else set_repeat_lower token (extract_int count_str) in
    c <- get_next_char inp ;;
    '(count_str, c) <- read_digits (fuel_of inp) inp [] c ;;
    if (c =? "}")%char then
      let token :=
        if is_empty count_str then set_repeat_upper token (-1)
        else set_repeat_upper token (extract_int count_str) in
      if (repeat_lower token =? -1) && (repeat_upper token =? -1) then
        set_idx current_idx ;;; ret token
      else
        let token :=
          if repeat_lower token =? -1 then set_repeat_lower token 0
          else token in
        if repeat_upper token =? -1 then
          ret (set_type token REPEAT)
        else if repeat_lower token >? repeat_upper token then
          throw (msg_repeat_bounds (repeat_lower token) (repeat_upper token))
        else if repeat_upper token =? 0 then
          throw msg_pointless_00
        else ret (set_type token REPEAT)
    else
      set_idx current_idx ;;; ret token
  else if (c =? "}")%char then
    if is_empty count_str then
      set_idx current_idx ;;; ret token
    else
      let token := set_repeat_lower token (extract_int count_str) in
      let token := set_repeat_upper token (repeat_lower token) in
      let token := set_type token REPEAT in
      if repeat_upper token =? 0 then throw msg_pointless_0
      else ret token
  else
    set_idx current_idx ;;; ret token.

(** ** The driver [Scanner::init] *)

(** [tokens.size() > 0 && tokens.back().type == ty]. *)
Definition back_is (tokens : list Token) (ty : TokenType) : bool :=
  (Z.of_nat (List.length tokens) >? 0)
  && TokenType_eqb (type (last tokens indeterminate)) ty.

(** [(idx + 1) < in.length() && in[idx + 1] == '?']. *)
Definition lazy_follows (inp : list ascii) (i : Z) : bool :=
  (uint (i + 1) <? slen inp) && (char_at inp (uint (i + 1)) =? "?")%char.

Definition literal (c : ascii) : Token :=
  set_character (set_type indeterminate CHARACTER) c.

Definition mem_char (c : ascii) (cs : list ascii) : bool :=
  existsb (Ascii.eqb c) cs.

(** The case ['\\'] of the switch of [init]. *)
Definition escape_case (inp : list ascii) (in_set : bool) : M Token :=
  let token := indeterminate in
  c <- get_next_char inp ;;
  if mem_char c ["d"; "D"; "w"; "W"; "s"; "S"]%char then
    ret (set_character (set_type token CHAR_CLASS) c)
  else if (c =? "A")%char then ret (set_type token CARET)
  else if (c =? "Z")%char then ret (set_type token DOLLAR)
  else if (c =? "b")%char then
    if in_set then throw (msg_unsupported_char "b")
    else
      let token := set_type token WORD_BOUNDARY in
      addWarning (warn_word_boundary "b") ;;; ret token
  else if (c =? "B")%char then
    let token := set_type token WORD_BOUNDARY in
    addWarning (warn_word_boundary "B") ;;; ret token
  else if mem_char c ["a"; "f"; "n"; "r"; "t"; "v"; "p"]%char then
    throw (msg_unsupported_char c)
  else if (c =? backslash)%char then ret (literal backslash)
  else if (c =? squote)%char then ret (literal squote)
  else if (c =? dquote)%char then ret (literal dquote)
  else if mem_char c ["0"; "1"; "2"; "3"; "4"; "5"; "6"; "7"; "8"; "9"]%char
  then process_octal inp c
  else if (c =? "x")%char then process_hex inp 2
  else if (c =? "u")%char then process_hex inp 4
  else if (c =? "U")%char then process_hex inp 8
  else ret (literal c).

(** The body of the loop of [init] up to [tokens.push_back(token)]: the
    switch on [in[idx]].  Returns the token to push and the new value of
    [in_set]. *)
Definition scan_token (inp : list ascii) (in_set : bool)
  (tokens : list Token) : M (Token * bool) :=
  let token := indeterminate in
  i <- get_idx ;;
  let c := char_at inp i in
  if (c =? backslash)%char then
    token <- escape_case inp in_set ;; ret (token, in_set)
  else if (c =? "[")%char then
    if in_set then ret (literal c, in_set)
    else ret (set_type token LEFT_BRACKET, true)
  else if (c =? "]")%char then
    if in_set && back_is tokens LEFT_BRACKET then ret (literal c, in_set)
    else if in_set then ret (set_type token RIGHT_BRACKET, false)
    else ret (literal c, in_set)
  else if (c =? "-")%char then
    if in_set && back_is tokens LEFT_BRACKET then ret (literal c, in_set)
    else if in_set && ((uint (i + 1) <? slen inp)
                       && (char_at inp (uint (i + 1)) =? "]")%char)
    then ret (literal c, in_set)
    else if in_set then ret (set_type token HYPHEN, in_set)
    else ret (literal c, in_set)
  else if (c =? "|")%char then
    if in_set then ret (literal c, in_set)
    else ret (set_type token ALTERNATION, in_set)
  else if (c =? "*")%char then
    if in_set then ret (literal c, in_set)
    else if negb in_set && lazy_follows inp i then
      set_idx (uint (i + 1)) ;;; ret (set_type token STAR, in_set)
    else ret (set_type token STAR, in_set)
  else if (c =? "+")%char then
    if in_set then ret (literal c, in_set)
    else if negb in_set && lazy_follows inp i then
      set_idx (uint (i + 1)) ;;; ret (set_type token PLUS, in_set)
    else ret (set_type token PLUS, in_set)
  else if (c =? "?")%char then
    if back_is tokens LEFT_PAREN then
      token <- process_extension inp ;; ret (token, in_set)
    else if in_set then ret (literal c, in_set)
    else if negb in_set && lazy_follows inp i then
      set_idx (uint (i + 1)) ;;; ret (set_type token QUESTION, in_set)
    else ret (set_type token QUESTION, in_set)
  else if (c =? "(")%char then
    if in_set then ret (literal c, in_set)
    else ret (set_type token LEFT_PAREN, in_set)
  else if (c =? ")")%char then
    if in_set then ret (literal c, in_set)
    else ret (set_type token RIGHT_PAREN, in_set)
  else if (c =? ".")%char then
    if in_set then ret (literal c, in_set)
    else ret (set_character (set_type token CHAR_CLASS) c, in_set)
  else if (c =? "{")%char then
    if in_set then ret (literal c, in_set)
    else
      token <- process_repeat inp ;;
      i <- get_idx ;;
      if negb (TokenType_eqb (type token) CHARACTER) && lazy_follows inp i
      then set_idx (uint (i + 1)) ;;; ret (token, in_set)
      else ret (token, in_set)
  else if (c =? "^")%char then ret (set_type token CARET, in_set)
  else if (c =? "$")%char then ret (set_type token DOLLAR, in_set)
  else ret (literal c, in_set).

(** The loop [while (idx < in.length()) { ...; tokens.push_back(token);
    idx++; }]. *)
Fixpoint init_loop (fuel : nat) (inp : list ascii) (in_set : bool)
  (tokens : list Token) (s : position)
  : outcome (list Token * list string) :=
  match fuel with
  | O => Diverge
  | S fuel' =>
      if idx s <? slen inp then
        match scan_token inp in_set tokens s with
        | Ok ((token, in_set'), s') =>
            init_loop fuel' inp in_set' (tokens ++ [token])
                      (mkPos (uint (idx s' + 1)) (warnings s'))
        | Throw msg => Throw msg
        | Diverge => Diverge
        end
      else Ok (tokens, warnings s)
  end.

(** Modelled from the spec: the class [Scanner] is declared in Scanner.h;
    an instance owns the token sequence [tokens], the cursor [index] and
    the warnings collected so far. *)
Record Scanner : Type := mkScanner {
  tokens : list Token;
  index : Z;
  scanner_warnings : list string
}.

(** [Scanner::init] on a newly constructed scanner. *)
Definition init (inp : list ascii) : outcome Scanner :=
  match init_loop (fuel_of inp) inp false [] (mkPos 0 []) with
  | Ok (toks, ws) => Ok (mkScanner toks 0 ws)
  | Throw msg => Throw msg
  | Diverge => Diverge
  end.

End Scan.

(** ** The token cursor and the lookahead predicates *)

(** Result of a cursor operation.  [tokens[i]] on a [std::vector] does no
    bounds check: an index outside the vector is undefined behaviour,
    recorded as [OutOfBounds i].  [Abort] is a failed [assert]. *)
Inductive access (A : Type) : Type :=
| Value (a : A)
| Raise (msg : string)
| Abort
| OutOfBounds (i : Z).

Arguments Value {A} a.
Arguments Raise {A} msg.
Arguments Abort {A}.
Arguments OutOfBounds {A} i.

(** A cursor operation reads the scanner and appends to a log the index of
    every element [tokens[i]] that it evaluates, in order of evaluation. *)
Definition R (A : Type) : Type := Scanner -> list Z -> access A * list Z.

Definition retR {A} (a : A) : R A := fun _ log => (Value a, log).

Definition bindR {A B} (m : R A) (k : A -> R B) : R B :=
  fun sc log =>
    match m sc log with
    | (Value a, log') => k a sc log'
    | (Raise msg, log') => (Raise msg, log')
    | (Abort, log') => (Abort, log')
    | (OutOfBounds i, log') => (OutOfBounds i, log')
    end.

Definition raiseR {A} (msg : string) : R A := fun _ log => (Raise msg, log).

Definition assertR (b : bool) : R unit :=
  fun _ log => if b then (Value tt, log) else (Abort, log).

(** Modelled from the spec: the cursor [index] is declared in Scanner.h,
    which is not part of the sources at hand; it is a single mutable cursor
    index, taken here as an [unsigned int] like the scan index of [init]. *)
Definition get_index : R Z := fun sc log => (Value (index sc), log).

(** [tokens.size()]. *)
Definition size : R Z :=
  fun sc log => (Value (Z.of_nat (List.length (tokens sc))), log).

(** [tokens[i]], for an index [i] of type [size_t]. *)
Definition token_at (i : Z) : R Token :=
  fun sc log =>
    if i <? Z.of_nat (List.length (tokens sc)) then
      match nth_error (tokens sc) (Z.to_nat i) with
      | Some t => (Value t, log ++ [i])
      | None => (OutOfBounds i, log ++ [i])
      end
    else (OutOfBounds i, log ++ [i]).

Declare Scope cursor_scope.
Delimit Scope cursor_scope with cursor.
Notation "x <- c ;; k" := (bindR c (fun x => k))
  (at level 61, c at next level, right associativity) : cursor_scope.
Notation "c ;;; k" := (bindR c (fun _ => k))
  (at level 61, right associativity) : cursor_scope.

Section Cursor.
Local Open Scope cursor_scope.

Definition get_type : R TokenType :=
  index <- get_index ;;
  n <- size ;;
  if index <? n then t <- token_at index ;; retR (type t)
  else retR ERR.

Definition get_repeat_lower : R Z :=
  ty <- get_type ;;
  assertR (TokenType_eqb ty REPEAT) ;;;
  index <- get_index ;;
  t <- token_at index ;; retR (repeat_lower t).

Definition get_repeat_upper : R Z :=
  ty <- get_type ;;
  assertR (TokenType_eqb ty REPEAT) ;;;
  index <- get_index ;;
  t <- token_at index ;; retR (repeat_upper t).

Definition get_character : R ascii :=
  ty <- get_type ;;
  assertR (TokenType_eqb ty CHARACTER || TokenType_eqb ty CHAR_CLASS) ;;;
  index <- get_index ;;
  t <- token_at index ;; retR (character t).

Definition advance (sc : Scanner) : Scanner :=
  mkScanner (tokens sc) (uint (index sc + 1)) (scanner_warnings sc).

Definition is_concat : R bool :=
  index <- get_index ;;
  prev <- token_at (uint (index - 1)) ;;
  let prev_type := type prev in
  next_type <- get_type ;;
  n <- size ;;
  if index >=? n then retR false
  else
    let valid_prev_type :=
      existsb (TokenType_eqb prev_type)
        [STAR; PLUS; QUESTION; REPEAT; RIGHT_PAREN; CHARACTER; CARET;
         DOLLAR; WORD_BOUNDARY; CHAR_CLASS; RIGHT_BRACKET] in
    let invalid_next_type :=
      existsb (TokenType_eqb next_type)
        [ALTERNATION; STAR; PLUS; QUESTION; REPEAT; RIGHT_PAREN;
         RIGHT_BRACKET] in
    retR (valid_prev_type && negb invalid_next_type).

(** [tokens[i].type == ty]. *)
Definition type_is (i : Z) (ty : TokenType) : R bool :=
  t <- token_at i ;; retR (TokenType_eqb (type t) ty).

(** [a && b], evaluating [b] only when [a] holds. *)
Definition andR (a b : R bool) : R bool :=
  x <- a ;; if x then b else retR false.

(** [Scanner::is_char_range].  Every [tokens[...]] of the source is one
    [token_at], in the order of evaluation: the two endpoints are read for
    the test of their kinds, again for the comparison of their characters
    and, on an improper range, once more for the message. *)
Definition is_char_range : R bool :=
  index <- get_index ;;
  n <- size ;;
  if index >? size_t (n - 3) then retR false
  else
    hyphen <- type_is (uint (index + 1)) HYPHEN ;;
    if negb hyphen then retR false
    else
      both_char <- andR (type_is index CHARACTER)
                        (type_is (uint (index + 2)) CHARACTER) ;;
      if both_char then
        lo <- token_at index ;;
        hi <- token_at (uint (index + 2)) ;;
        if char_val (character lo) >? char_val (character hi) then
          lo' <- token_at index ;;
          hi' <- token_at (uint (index + 2)) ;;
          raiseR (msg_range (character lo') (character hi'))
        else retR true
      else
        char_class <- andR (type_is index CHARACTER)
                           (type_is (uint (index + 2)) CHAR_CLASS) ;;
        if char_class then raiseR msg_range_char_class
        else
          class_char <- andR (type_is index CHAR_CLASS)
                             (type_is (uint (index + 2)) CHARACTER) ;;
          if class_char then raiseR msg_range_char_class
          else
            class_class <- andR (type_is index CHAR_CLASS)
                                (type_is (uint (index + 2)) CHAR_CLASS) ;;
            if class_class then raiseR msg_range_char_class
            else retR false.

End Cursor.

(** Running a cursor operation on a scanner, with an empty log. *)
Definition run {A} (op : R A) (sc : Scanner) : access A * list Z := op sc [].

(** ** Concrete inputs *)

(** A pattern written as a string literal. *)
Definition chars (s : string) : list ascii := list_ascii_of_string s.

(** A token whose fields are all zero, standing for the content of an
    uninitialised token in the concrete runs below. *)
Definition blank : Token := mkToken ERR 0 0 zero.

(** Type and character of every token of a stream, in order. *)
Definition kinds (toks : list Token) : list (TokenType * ascii) :=
  map (fun t => (type t, character t)) toks.

(** ** Notions used to state the properties *)

(** Position of a character in a list of characters. *)
Fixpoint position_in (c : ascii) (l : list ascii) : option Z :=
  match l with
  | [] => None
  | x :: l' =>
      if (c =? x)%char then Some 0
      else option_map Z.succ (position_in c l')
  end.

(** Value of a hexadecimal digit, in either case. *)
Definition hex_digit_value (c : ascii) : option Z :=
  match position_in c (chars "0123456789abcdef") with
  | Some v => Some v
  | None => position_in c (chars "0123456789ABCDEF")
  end.

(** What a Repeat token carries: a lower bound that is not negative, and
    an upper bound that is either -1, the value that stands for "no upper
    bound", or at least 1 and at least the lower bound. *)
Definition repeat_ok (t : Token) : Prop :=
  type t = REPEAT ->
  0 <= repeat_lower t
  /\ (repeat_upper t = -1
      \/ (1 <= repeat_upper t /\ repeat_lower t <= repeat_upper t)).

(** [free_of cs inp]: no character of the pattern [inp] is one of [cs]. *)
Definition free_of (cs : list ascii) (inp : list ascii) : bool :=
  forallb (fun c => negb (mem_char c cs)) inp.

(** Backslash, square brackets, curly braces and parentheses. *)
Definition delimiters : list ascii :=
  [backslash; "["; "]"; "{"; "}"; "("; ")"]%char.

(** The other characters that the driver does not take as literals outside
    a bracket set. *)
Definition operators : list ascii :=
  ["|"; "*"; "+"; "?"; "."; "^"; "$"]%char.

(** The characters that start an escape, a quantifier or an extension. *)
Definition processors : list ascii := [backslash; "{"; "?"]%char.

(** The characters that are not taken as literals inside a bracket set. *)
Definition set_specials : list ascii :=
  [backslash; "]"; "-"; "^"; "$"]%char.

(** [settled inp lo o]: the outcome [o] of a piece of the scan is not a
    loop that is still running; when it is a result, the scan index lies at
    or after [lo] and inside the input [inp]. *)
Definition settled {A : Type} (inp : list ascii) (lo : Z)
  (o : outcome (A * position)) : Prop :=
  match o with
  | Ok (_, s') => lo <= idx s' < slen inp
  | Throw _ => True
  | Diverge => False
  end.

(** ** The remaining operations of the scanner *)

(** [Scanner::token_type_to_str].  The [default] case of its switch, which
    throws an internal error, is taken by values outside the enumeration
    only; no [TokenType] is such a value. *)
Definition token_type_to_str (ty : TokenType) : string :=
  match ty with
  | ALTERNATION => "ALTERNATION"
  | STAR => "STAR"
  | PLUS => "PLUS"
  | QUESTION => "QUESTION"
  | REPEAT => "REPEAT"
  | LEFT_PAREN => "LEFT_PAREN"
  | RIGHT_PAREN => "RIGHT_PAREN"
  | CHARACTER => "CHARACTER"
  | CHAR_CLASS => "CHAR_CLASS"
  | LEFT_BRACKET => "LEFT_BRACKET"
  | RIGHT_BRACKET => "RIGHT_BRACKET"
  | CARET => "CARET"
  | DOLLAR => "DOLLAR"
  | WORD_BOUNDARY => "WORD_BOUNDARY"
  | HYPHEN => "HYPHEN"
  | NO_GROUP_EXT => "NO_GROUP_EXT"
  | NAMED_GROUP_EXT => "NAMED_GROUP_EXT"
  | IGNORED_EXT => "IGNORED_EXT"
  | ERR => "<ERROR> (or end of regex)"
  end.

(** [Scanner::get_type_str]. *)
Definition get_type_str : R string :=
  bindR get_type (fun ty => retR (token_type_to_str ty)).

(** [Scanner::print]: the text written to [cout]. *)
Definition print_token (t : Token) : string :=
  (token_type_to_str (type t)
   ++ (if TokenType_eqb (type t) REPEAT
       then ":" ++ dec (repeat_lower t) ++ "," ++ dec (repeat_upper t)
       else EmptyString)
   ++ (if TokenType_eqb (type t) CHARACTER
          || TokenType_eqb (type t) CHAR_CLASS
       then ":" ++ chr (character t)
       else EmptyString)
   ++ endl)%string.

Definition print (sc : Scanner) : string :=
  ("Scanner: " ++ endl
   ++ String.concat EmptyString (map print_token (tokens sc))
   ++ endl)%string.


(** ** Further notions used to state the properties *)

(** What a consumer may read of a token: its kind, its character when the
    kind is Character or CharClass, its bounds when the kind is Repeat. *)
Definition token_view (t : Token)
  : TokenType * option ascii * option (Z * Z) :=
  match type t with
  | CHARACTER | CHAR_CLASS => (type t, Some (character t), None)
  | REPEAT => (type t, None, Some (repeat_lower t, repeat_upper t))
  | ty => (ty, None, None)
  end.

(** The kinds that [process_extension] produces. *)
Definition is_extension (ty : TokenType) : bool :=
  match ty with
  | NO_GROUP_EXT | NAMED_GROUP_EXT | IGNORED_EXT => true
  | _ => false
  end.

(** Value of a decimal digit. *)
Definition digit_value (c : ascii) : option Z :=
  position_in c (chars "0123456789").

(** Octal digits. *)
Definition is_octal (c : ascii) : bool := mem_char c (chars "01234567").

(** The characters with a case of their own after a backslash. *)
Definition escape_specials : list ascii :=
  chars "dDwWsSAZbBafnrtvp0123456789xuU" ++ [backslash; squote; dquote].

(** The part of [process_repeat] that follows the first run of digits,
    for the digits [count_str] read and the stopping character [c]. *)
Definition repeat_tail (indeterminate : Token) (inp : list ascii)
  (current_idx : Z) (count_str : list ascii) (c : ascii) : M Token :=
  let token := set_character (set_type indeterminate CHARACTER) "{" in
  if (c =? ",")%char then
    let token :=
      if is_empty count_str then set_repeat_lower token (-1)
      else set_repeat_lower token (extract_int count_str) in
    bind (get_next_char inp) (fun c =>
    bind (read_digits (fuel_of inp) inp [] c) (fun x =>
    match x with
    | (count_str, c) =>
    if (c =? "}")%char then
      let token :=
        if is_empty count_str then set_repeat_upper token (-1)
        else set_repeat_upper token (extract_int count_str) in
      if (repeat_lower token =? -1) && (repeat_upper token =? -1) then
        bind (set_idx current_idx) (fun _ => ret token)
      else
        let token :=
          if repeat_lower token =? -1 then set_repeat_lower token 0
          else token in
        if repeat_upper token =? -1 then
          ret (set_type token REPEAT)
        else if repeat_lower token >? repeat_upper token then
          throw (msg_repeat_bounds (repeat_lower token) (repeat_upper token))
        else if repeat_upper token =? 0 then
          throw msg_pointless_00
        else ret (set_type token REPEAT)
    else
      bind (set_idx current_idx) (fun _ => ret token)
    end))
  else if (c =? "}")%char then
    if is_empty count_str then
      bind (set_idx current_idx) (fun _ => ret token)
    else
      let token := set_repeat_lower token (extract_int count_str) in
      let token := set_repeat_upper token (repeat_lower token) in
      let token := set_type token REPEAT in
      if repeat_upper token =? 0 then throw msg_pointless_0
      else ret token
  else
    bind (set_idx current_idx) (fun _ => ret token).

(** The kinds after which an operand is complete, and the kinds with
    which an operand starts, as [is_concat] takes them. *)
Definition ends_operand (ty : TokenType) : bool :=
  negb (existsb (TokenType_eqb ty)
          [ALTERNATION; LEFT_PAREN; LEFT_BRACKET; HYPHEN; NO_GROUP_EXT;
           NAMED_GROUP_EXT; IGNORED_EXT; ERR]).

Definition starts_operand (ty : TokenType) : bool :=
  existsb (TokenType_eqb ty)
    [LEFT_PAREN; CHARACTER; CHAR_CLASS; LEFT_BRACKET; CARET; DOLLAR;
     WORD_BOUNDARY; HYPHEN; NO_GROUP_EXT; NAMED_GROUP_EXT; IGNORED_EXT; ERR].

(** Whether a bracket set is open after the tokens [toks], starting from
    the state [open]; [None] when a LeftBracket is met inside a set, or a
    RightBracket or a Hyphen outside. *)
Fixpoint set_state (open : bool) (toks : list Token) : option bool :=
  match toks with
  | [] => Some open
  | t :: rest =>
      match type t with
      | LEFT_BRACKET => if open then None else set_state true rest
      | RIGHT_BRACKET => if open then set_state false rest else None
      | HYPHEN => if open then set_state open rest else None
      | _ => set_state open rest
      end
  end.

(** Whether a token of kind [ty] may stand right after a token of kind
    [prev] ([None]: at the start of the stream): an extension marker
    stands only after a LeftParen, a Question never does, and neither a
    Hyphen nor a RightBracket stands after a LeftBracket. *)
Definition may_follow (prev : option TokenType) (ty : TokenType) : bool :=
  match ty with
  | NO_GROUP_EXT | NAMED_GROUP_EXT | IGNORED_EXT =>
      match prev with Some LEFT_PAREN => true | _ => false end
  | QUESTION =>
      match prev with Some LEFT_PAREN => false | _ => true end
  | HYPHEN | RIGHT_BRACKET =>
      match prev with Some LEFT_BRACKET => false | _ => true end
  | _ => true
  end.

Fixpoint well_chained (prev : option TokenType) (toks : list Token) : bool :=
  match toks with
  | [] => true
  | t :: rest => may_follow prev (type t) && well_chained (Some (type t)) rest
  end.

(** The kind of the last token of [toks], [prev] when there is none. *)
Definition last_kind (prev : option TokenType) (toks : list Token)
  : option TokenType :=
  fold_left (fun _ t => Some (type t)) toks prev.

(** Two tokens that a consumer cannot tell apart. *)
Definition same_view (t1 t2 : Token) : Prop := token_view t1 = token_view t2.

(** Two outcomes of a piece of the scan that agree: the same error, or
    results related by [R] with the same index and warnings. *)
Definition same_outcome {A : Type} (R : A -> A -> Prop)
  (o1 o2 : outcome (A * position)) : Prop :=
  match o1, o2 with
  | Ok (a1, s1), Ok (a2, s2) => R a1 a2 /\ s1 = s2
  | Throw m1, Throw m2 => m1 = m2
  | Diverge, Diverge => True
  | _, _ => False
  end.

(** What a step of the loop of [init] produces, up to [token_view]. *)
Definition same_step (r1 r2 : Token * bool) : Prop :=
  same_view (fst r1) (fst r2) /\ snd r1 = snd r2.

(** Two runs of the loop of [init] end alike. *)
Definition same_run (o1 o2 : outcome (list Token * list string)) : Prop :=
  match o1, o2 with
  | Ok (t1, w1), Ok (t2, w2) =>
      map token_view t1 = map token_view t2 /\ w1 = w2
  | Throw m1, Throw m2 => m1 = m2
  | Diverge, Diverge => True
  | _, _ => False
  end.

(** Two scans end alike: the same exception, or scanners that agree on
    the cursor, the warnings and the view of every token. *)
Definition same_scan (o1 o2 : outcome Scanner) : Prop :=
  match o1, o2 with
  | Ok sc1, Ok sc2 =>
      map token_view (tokens sc1) = map token_view (tokens sc2)
      /\ index sc1 = index sc2
      /\ scanner_warnings sc1 = scanner_warnings sc2
  | Throw m1, Throw m2 => m1 = m2
  | Diverge, Diverge => True
  | _, _ => False
  end.

(** A piece of the scan that adds no warning. *)
Definition quiet {A : Type} (m : M A) : Prop :=
  forall (s : position) (a : A) (s' : position),
    m s = Ok (a, s') -> warnings s' = warnings s.

(** The kinds that the scanner pushes together with a warning. *)
Definition warned (ty : TokenType) : bool :=
  match ty with
  | WORD_BOUNDARY | IGNORED_EXT => true
  | _ => false
  end.

Definition count_warned (toks : list Token) : nat :=
  List.length (filter (fun t => warned (type t)) toks).

(** From [s] to [s'] one warning was added when [t] is of a warned kind,
    none otherwise. *)
Definition step_log (s s' : position) (t : Token) : Prop :=
  exists extra : list string,
    warnings s' = warnings s ++ extra
    /\ List.length extra = if warned (type t) then 1%nat else 0%nat.

(** The states in which the loop of [init] on [inp] starts an iteration:
    the inside-a-set flag, the tokens pushed so far and the position.  The
    first iteration starts with the flag down, no token and the index 0;
    an iteration whose switch returns is followed by [idx++]. *)
Inductive driver_at (indeterminate : Token) (inp : list ascii)
  : bool -> list Token -> position -> Prop :=
| driver_start : driver_at indeterminate inp false [] (mkPos 0 [])
| driver_next (in_set in_set' : bool) (toks : list Token)
    (s s' : position) (t : Token) :
    driver_at indeterminate inp in_set toks s ->
    idx s < slen inp ->
    scan_token indeterminate inp in_set toks s = Ok ((t, in_set'), s') ->
    driver_at indeterminate inp in_set' (toks ++ [t])
      (mkPos (uint (idx s' + 1)) (warnings s')).

(** * Properties *)

(** ** Basic facts on indices and characters *)

Lemma uint_small (z : Z) : 0 <= z < 4294967296 -> uint z = z.
Proof. intros H. unfold uint. apply Z.mod_small. exact H. Qed.

Lemma slen_app (a b : list ascii) : slen (a ++ b) = slen a + slen b.
Proof. unfold slen. rewrite length_app. lia. Qed.

Lemma slen_cons (c : ascii) (l : list ascii) : slen (c :: l) = 1 + slen l.
Proof. unfold slen. cbn [List.length]. lia. Qed.

Lemma slen_nonneg (l : list ascii) : 0 <= slen l.
Proof. unfold slen. lia. Qed.

Lemma char_at_app (pre suf : list ascii) (c : ascii) :
  char_at (pre ++ c :: suf) (slen pre) = c.
Proof.
  unfold char_at, slen. rewrite Nat2Z.id.
  rewrite app_nth2 by lia. rewrite Nat.sub_diag. reflexivity.
Qed.

Lemma char_at_In (inp : list ascii) (i : Z) :
  0 <= i < slen inp -> In (char_at inp i) inp.
Proof.
  unfold char_at, slen. intros H. apply nth_In. lia.
Qed.

Lemma get_next_char_ok (inp : list ascii) (i : Z) (ws : list string) :
  0 <= i -> i + 1 < slen inp -> slen inp <= 4294967296 ->
  get_next_char inp (mkPos i ws) = Ok (char_at inp (i + 1), mkPos (i + 1) ws).
Proof.
  intros Hi Hlt Hlen. unfold get_next_char, bind, get_idx, set_idx. cbn.
  rewrite uint_small by lia.
  destruct (i + 1 >=? slen inp) eqn:E; [lia|]. reflexivity.
Qed.

Lemma get_next_char_end (inp : list ascii) (i : Z) (ws : list string) :
  0 <= i -> i + 1 = slen inp -> slen inp < 4294967296 ->
  get_next_char inp (mkPos i ws) = Throw msg_premature.
Proof.
  intros Hi Hlt Hlen. unfold get_next_char, bind, get_idx, set_idx. cbn.
  rewrite uint_small by lia.
  destruct (i + 1 >=? slen inp) eqn:E; [reflexivity|lia].
Qed.

(** ** Rollback on a quantifier with a space *)

(** C9, as the claim states it: the text {3, 4} would scan to five
    tokens.  It does not. *)
Lemma quantifier_with_space_not_five :
  ~ (exists sc, init blank (chars "{3, 4}") = Ok sc
                /\ List.length (tokens sc) = 5%nat).
Proof.
  intros [sc [H L]]. vm_compute in H. inversion H; subst sc.
  cbn in L. discriminate L.
Qed.

(** C9, amended: the text {3, 4} outside a bracket set is rolled back
    because of the space and scans to six literal Character tokens, one per
    character, with no Repeat token, no error and no warning; in the
    pattern a{3, 4} they follow the token of a. *)
Theorem quantifier_with_space_rolls_back (indeterminate : Token) :
  (exists sc, init indeterminate (chars "{3, 4}") = Ok sc
     /\ kinds (tokens sc)
        = [(CHARACTER, "{"); (CHARACTER, "3"); (CHARACTER, ",");
           (CHARACTER, " "); (CHARACTER, "4"); (CHARACTER, "}")]%char
     /\ scanner_warnings sc = [])
  /\ (exists sc, init indeterminate (chars "a{3, 4}") = Ok sc
     /\ kinds (tokens sc)
        = [(CHARACTER, "a"); (CHARACTER, "{"); (CHARACTER, "3");
           (CHARACTER, ","); (CHARACTER, " "); (CHARACTER, "4");
           (CHARACTER, "}")]%char
     /\ scanner_warnings sc = []).
Proof.
  split; eexists; (split; [vm_compute; reflexivity|]);
    split; vm_compute; reflexivity.
Qed.

(** ** The lookahead predicates read before they check *)

Ltac run_cursor :=
  unfold run, bindR, retR, raiseR, assertR, get_index, size, token_at;
  cbv beta iota zeta;
  repeat (match goal with
          | |- context [if ?b then _ else _] => destruct b eqn:?
          | |- context [nth_error ?l ?n] => destruct (nth_error l n) eqn:?
          end; cbv beta iota zeta).

(** Whatever the stream and the cursor, the first element that
    [is_concat] evaluates is [tokens[index - 1]]. *)
Lemma is_concat_first_read (sc : Scanner) :
  exists r rest,
    run is_concat sc = (r, uint (index sc - 1) :: rest).
Proof.
  unfold is_concat, get_type. run_cursor;
    cbn [app]; eexists; eexists; reflexivity.
Qed.

(** On a stream of fewer than three tokens the guard of [is_char_range]
    lets every cursor through, and [tokens[index + 1]] is evaluated. *)
Lemma is_char_range_short_stream (sc : Scanner) :
  (List.length (tokens sc) < 3)%nat ->
  0 <= index sc < 4294967296 ->
  exists r rest,
    run is_char_range sc = (r, uint (index sc + 1) :: rest).
Proof.
  intros Hn Hi. unfold is_char_range.
  unfold run, bindR at 1, get_index at 1. cbv beta iota zeta.
  unfold bindR at 1, size at 1. cbv beta iota zeta.
  assert (Hw : (index sc >? size_t (Z.of_nat (List.length (tokens sc)) - 3))
               = false).
  { unfold size_t.
    replace ((Z.of_nat (List.length (tokens sc)) - 3)
             mod 18446744073709551616)
      with (Z.of_nat (List.length (tokens sc)) - 3 + 18446744073709551616).
    - lia.
    - apply Z.mod_unique with (q := -1); lia. }
  rewrite Hw. unfold type_is, andR. run_cursor;
    cbn [app]; eexists; eexists; reflexivity.
Qed.

Lemma uint_range (z : Z) : 0 <= uint z < 4294967296.
Proof. unfold uint. apply Z.mod_pos_bound. reflexivity. Qed.

(** C3 (the code departs from the claim).  [is_concat] evaluates
    [tokens[index - 1]] before it compares the cursor with the size of the
    stream: on every stream and for every cursor this is the first element
    read.  On the empty stream with the cursor at 0 the element read is
    [tokens[4294967295]], outside the vector; on the stream of the pattern
    a with the cursor at the end, [tokens[0]] is read before [false] is
    returned. *)
Theorem is_concat_reads_before_check (indeterminate : Token) :
  (forall sc : Scanner,
     exists r rest, run is_concat sc = (r, uint (index sc - 1) :: rest))
  /\ (exists sc, init indeterminate (chars EmptyString) = Ok sc
     /\ run is_concat sc = (OutOfBounds 4294967295, [4294967295]))
  /\ (exists sc, init indeterminate (chars "a") = Ok sc
     /\ run is_concat (advance sc) = (Value false, [0])).
Proof.
  split; [exact is_concat_first_read|].
  split; eexists; (split; [vm_compute; reflexivity|]);
    vm_compute; reflexivity.
Qed.

(** C4 (the code departs from the claim).  The guard of [is_char_range]
    compares the cursor with [tokens.size() - 3], computed on [size_t]:
    for a stream of fewer than three tokens the difference wraps around to
    a huge value, the guard lets every cursor through and
    [tokens[index + 1]] is evaluated.  On the streams of the patterns a and
    [a and on the empty stream that element lies outside the vector. *)
Theorem is_char_range_guard_wraps (indeterminate : Token) :
  (forall (z : Z) (ws : list string),
     exists r rest,
       run is_char_range (mkScanner [] (uint z) ws)
       = (r, uint (uint z + 1) :: rest))
  /\ (forall (t1 : Token) (z : Z) (ws : list string),
     exists r rest,
       run is_char_range (mkScanner [t1] (uint z) ws)
       = (r, uint (uint z + 1) :: rest))
  /\ (forall (t1 t2 : Token) (z : Z) (ws : list string),
     exists r rest,
       run is_char_range (mkScanner [t1; t2] (uint z) ws)
       = (r, uint (uint z + 1) :: rest))
  /\ (exists sc, init indeterminate (chars "a") = Ok sc
     /\ List.length (tokens sc) = 1%nat
     /\ run is_char_range sc = (OutOfBounds 1, [1]))
  /\ (exists sc, init indeterminate (chars EmptyString) = Ok sc
     /\ run is_char_range sc = (OutOfBounds 1, [1]))
  /\ (exists sc, init indeterminate (chars "[a") = Ok sc
     /\ List.length (tokens sc) = 2%nat
     /\ run is_char_range (advance sc) = (OutOfBounds 2, [2])).
Proof.
  split; [|split; [|split]].
  - intros z ws.
    apply (is_char_range_short_stream (mkScanner [] (uint z) ws));
      [cbn; lia|apply uint_range].
  - intros t1 z ws.
    apply (is_char_range_short_stream (mkScanner [t1] (uint z) ws));
      [cbn; lia|apply uint_range].
  - intros t1 t2 z ws.
    apply (is_char_range_short_stream (mkScanner [t1; t2] (uint z) ws));
      [cbn; lia|apply uint_range].
  - repeat split; eexists; repeat split; vm_compute; reflexivity.
Qed.

(** ** The hex escape decoder *)

Lemma hex_extra_digits_zeros (inp : list ascii) (num_digits : Z) :
  slen inp <= 4294967296 ->
  forall (n : nat) (i : Z) (ws : list string),
    0 <= i -> i + Z.of_nat n < slen inp ->
    (forall k, 1 <= k <= Z.of_nat n -> char_at inp (i + k) = "0"%char) ->
    hex_extra_digits n inp num_digits (mkPos i ws)
    = Ok (tt, mkPos (i + Z.of_nat n) ws).
Proof.
  intros Hlen n. induction n as [|n IH]; intros i ws Hi Hlt Hz.
  - cbn. unfold ret. rewrite Z.add_0_r. reflexivity.
  - cbn [hex_extra_digits]. unfold bind at 1.
    rewrite get_next_char_ok by lia.
    rewrite (Hz 1) by lia. cbn [negb Ascii.eqb].
    change (("0" =? "0")%char) with true. cbn [negb].
    rewrite IH; try lia.
    + f_equal. f_equal. f_equal. lia.
    + intros k Hk. replace (i + 1 + k) with (i + (k + 1)) by lia.
      apply Hz. lia.
Qed.

Lemma hex_extra_digits_nonzero (inp : list ascii) (num_digits : Z) :
  slen inp <= 4294967296 ->
  forall (n : nat) (i : Z) (ws : list string),
    0 <= i -> i + Z.of_nat n < slen inp ->
    (exists k, 1 <= k <= Z.of_nat n /\ char_at inp (i + k) <> "0"%char) ->
    hex_extra_digits n inp num_digits (mkPos i ws)
    = Throw (msg_hex_digits num_digits).
Proof.
  intros Hlen n. induction n as [|n IH]; intros i ws Hi Hlt [k [Hk Hne]].
  - lia.
  - cbn [hex_extra_digits]. unfold bind at 1.
    rewrite get_next_char_ok by lia.
    destruct (char_at inp (i + 1) =? "0")%char eqn:E.
    + cbn [negb]. apply IH; try lia.
      exists (k - 1). replace (i + 1 + (k - 1)) with (i + k) by lia.
      split; [|exact Hne].
      assert (k <> 1); [|lia].
      intros ->. apply Ascii.eqb_eq in E. contradiction.
    + reflexivity.
Qed.

Lemma hex_high_digit (c : ascii) :
  (if (char_val c >=? char_val "0") && (char_val c <=? char_val "9")
   then ret ((char_val c - char_val "0") * 16)
   else if (char_val c >=? char_val "A") && (char_val c <=? char_val "F")
   then ret ((char_val c - char_val "A" + 10) * 16)
   else if (char_val c >=? char_val "a") && (char_val c <=? char_val "f")
   then ret ((char_val c - char_val "a" + 10) * 16)
   else throw (msg_hex_digit c))
  = match hex_digit_value c with
    | Some h => ret (h * 16)
    | None => throw (msg_hex_digit c)
    end.
Proof.
  destruct c as [[] [] [] [] [] [] [] []]; reflexivity.
Qed.

Lemma hex_low_digit (c : ascii) (hex_value : Z) :
  (if (char_val c >=? char_val "0") && (char_val c <=? char_val "9")
   then ret (hex_value + (char_val c - char_val "0"))
   else if (char_val c >=? char_val "A") && (char_val c <=? char_val "F")
   then ret (hex_value + (char_val c - char_val "A" + 10))
   else if (char_val c >=? char_val "a") && (char_val c <=? char_val "f")
   then ret (hex_value + (char_val c - char_val "a" + 10))
   else throw (msg_hex_digit c))
  = match hex_digit_value c with
    | Some l => ret (hex_value + l)
    | None => throw (msg_hex_digit c)
    end.
Proof.
  destruct c as [[] [] [] [] [] [] [] []]; reflexivity.
Qed.

(** C7.  [process_hex] with 2, 4 or 8 required digits, entered with the
    scan index on the letter of the escape and all its digits present:
    a digit before the last two that is not 0 raises the error that names
    the required digit count; otherwise the last two characters must be
    hexadecimal digits in either case (an invalid one raises the error
    that names it), their value must lie in [32,126] (a value outside
    raises the error that names it in decimal), and on success the token
    is the literal Character of that value, the index being left on the
    last digit.  In particular \x41 scans to Character A and \x1F raises
    the error for the value 31. *)
Theorem process_hex_decodes (indeterminate : Token) :
  (forall (inp : list ascii) (i : Z) (ws : list string) (n : Z),
     n = 2 \/ n = 4 \/ n = 8 ->
     0 <= i -> i + n < slen inp -> slen inp <= 4294967296 ->
     let hi := char_at inp (i + n - 1) in
     let lo := char_at inp (i + n) in
     ((exists k, 1 <= k <= n - 2 /\ char_at inp (i + k) <> "0"%char) ->
      process_hex indeterminate inp n (mkPos i ws)
      = Throw (msg_hex_digits n))
     /\ ((forall k, 1 <= k <= n - 2 -> char_at inp (i + k) = "0"%char) ->
         (hex_digit_value hi = None ->
          process_hex indeterminate inp n (mkPos i ws)
          = Throw (msg_hex_digit hi))
         /\ (hex_digit_value hi <> None -> hex_digit_value lo = None ->
             process_hex indeterminate inp n (mkPos i ws)
             = Throw (msg_hex_digit lo))
         /\ (forall h l,
               hex_digit_value hi = Some h -> hex_digit_value lo = Some l ->
               (32 <= 16 * h + l <= 126 ->
                process_hex indeterminate inp n (mkPos i ws)
                = Ok (literal indeterminate (char_of_int (16 * h + l)),
                      mkPos (i + n) ws))
               /\ (16 * h + l < 32 \/ 126 < 16 * h + l ->
                   process_hex indeterminate inp n (mkPos i ws)
                   = Throw (msg_hex_value (16 * h + l))))))
  /\ (exists sc, init indeterminate (chars "\x41") = Ok sc
        /\ kinds (tokens sc) = [(CHARACTER, "A"%char)]
        /\ scanner_warnings sc = [])
  /\ init indeterminate (chars "\x1F") = Throw (msg_hex_value 31).
Proof.
  split; [|split; [eexists; split; [vm_compute; reflexivity|split; reflexivity]
                  |vm_compute; reflexivity]].
  intros inp i ws n Hn Hi Hlt Hlen hi lo.
  assert (Hm : Z.of_nat (Z.to_nat (n - 2)) = n - 2) by lia.
  split.
  - intros [k [Hk Hne]]. unfold process_hex. unfold bind at 1.
    rewrite hex_extra_digits_nonzero; try lia. reflexivity.
    exists k. split; [lia|exact Hne].
  - intros Hz.
    assert (Hrun : process_hex indeterminate inp n (mkPos i ws)
              = match hex_digit_value hi with
                | None => Throw (msg_hex_digit hi)
                | Some h =>
                    match hex_digit_value lo with
                    | None => Throw (msg_hex_digit lo)
                    | Some l =>
                        if (h * 16 + l <? 32) || (h * 16 + l >? 126)
                        then Throw (msg_hex_value (h * 16 + l))
                        else Ok (literal indeterminate
                                   (char_of_int (h * 16 + l)),
                                 mkPos (i + n) ws)
                    end
                end).
    { unfold process_hex. unfold bind at 1.
      rewrite hex_extra_digits_zeros; try lia.
      2:{ intros k Hk. apply Hz. lia. }
      rewrite Hm. unfold bind at 1. rewrite get_next_char_ok by lia.
      unfold bind at 1. rewrite get_next_char_ok by lia.
      replace (i + (n - 2) + 1) with (i + n - 1) by lia.
      replace (i + n - 1 + 1) with (i + n) by lia.
      fold hi. fold lo. unfold bind at 1. rewrite hex_high_digit.
      destruct (hex_digit_value hi) as [h|]; [|reflexivity].
      unfold ret at 1. unfold bind at 1. rewrite hex_low_digit.
      destruct (hex_digit_value lo) as [l|]; [|reflexivity].
      unfold ret at 1.
      destruct ((h * 16 + l <? 32) || (h * 16 + l >? 126)); reflexivity. }
    split; [|split].
    + intros E. rewrite Hrun, E. reflexivity.
    + intros E1 E2. rewrite Hrun, E2.
      destruct (hex_digit_value hi); [reflexivity|congruence].
    + intros h l E1 E2. rewrite Hrun, E1, E2.
      replace (h * 16 + l) with (16 * h + l) by lia.
      split; intros Hv.
      * destruct ((16 * h + l <? 32) || (16 * h + l >? 126)) eqn:E;
          [|reflexivity].
        apply orb_true_iff in E. lia.
      * destruct ((16 * h + l <? 32) || (16 * h + l >? 126)) eqn:E;
          [reflexivity|].
        apply orb_false_iff in E. lia.
Qed.

(** An instance: the escape of the pattern a\x41b. *)
Lemma process_hex_decodes_witness :
  process_hex blank (chars "a\x41b") 2 (mkPos 2 [])
  = Ok (literal blank (char_of_int (16 * 4 + 1)), mkPos (2 + 2) []).
Proof.
  refine (proj1 (proj2 (proj2 (proj2
            (proj1 (process_hex_decodes blank) (chars "a\x41b") 2 [] 2
               _ _ _ _) _)) 4 1 _ _) _).
  - left; reflexivity.
  - lia.
  - vm_compute; reflexivity.
  - vm_compute; discriminate.
  - intros k Hk. lia.
  - reflexivity.
  - reflexivity.
  - lia.
Defined.

(** ** The repeat-quantifier parser *)

Lemma digits_value_app (ds : list ascii) (c : ascii) :
  digits_value (ds ++ [c]) = 10 * digits_value ds + (char_val c - 48).
Proof. unfold digits_value. rewrite fold_left_app. reflexivity. Qed.

Lemma isdigit_range (c : ascii) :
  isdigit c = true -> 0 <= char_val c - 48 <= 9.
Proof. unfold isdigit. intros H. apply andb_true_iff in H. lia. Qed.

Lemma digits_value_nonneg (ds : list ascii) :
  Forall (fun c => isdigit c = true) ds -> 0 <= digits_value ds.
Proof.
  induction ds as [|c ds IH] using rev_ind; intros H.
  - reflexivity.
  - apply Forall_app in H. destruct H as [H1 H2].
    rewrite digits_value_app. inversion H2; subst.
    pose proof (isdigit_range c ltac:(assumption)). specialize (IH H1). lia.
Qed.

(** A run of digits [ds] followed by a character [stop] that is not a
    digit, read from its first character on. *)
Lemma read_digits_run (inp_pre : list ascii) (stop : ascii)
  (suf : list ascii) :
  isdigit stop = false ->
  forall (ds pre acc : list ascii) (fuel : nat) (ws : list string),
    Forall (fun c => isdigit c = true) ds ->
    let inp := inp_pre ++ pre ++ ds ++ stop :: suf in
    slen inp <= 4294967296 ->
    (List.length ds < fuel)%nat ->
    read_digits fuel inp acc (hd stop ds)
      (mkPos (slen (inp_pre ++ pre)) ws)
    = Ok ((acc ++ ds, stop), mkPos (slen (inp_pre ++ pre) + slen ds) ws).
Proof.
  intros Hstop ds. induction ds as [|d ds IH];
    intros pre acc fuel ws Hds inp Hlen Hfuel.
  - destruct fuel as [|fuel]; [cbn in Hfuel; lia|].
    cbn [read_digits hd]. rewrite Hstop. unfold ret.
    rewrite app_nil_r. unfold slen at 2. cbn. rewrite Z.add_0_r.
    reflexivity.
  - destruct fuel as [|fuel]; [cbn in Hfuel; lia|].
    inversion Hds as [|? ? Hd Hds']; subst.
    cbn [read_digits hd]. rewrite Hd. unfold bind at 1.
    assert (Hinp : inp = (inp_pre ++ pre ++ [d]) ++ ds ++ stop :: suf).
    { unfold inp. repeat rewrite <- app_assoc. reflexivity. }
    assert (Hl : slen inp
                 = slen (inp_pre ++ pre) + 1 + slen ds + 1 + slen suf).
    { unfold inp. repeat (rewrite slen_app || rewrite slen_cons). lia. }
    pose proof (slen_nonneg (inp_pre ++ pre)).
    pose proof (slen_nonneg ds). pose proof (slen_nonneg suf).
    rewrite get_next_char_ok by lia.
    assert (Hc : char_at inp (slen (inp_pre ++ pre) + 1) = hd stop ds).
    { rewrite Hinp.
      replace (slen (inp_pre ++ pre) + 1) with (slen (inp_pre ++ pre ++ [d])).
      2:{ repeat (rewrite slen_app || rewrite slen_cons). unfold slen. cbn. lia. }
      destruct ds as [|d' ds'].
      - cbn [app hd]. apply char_at_app.
      - cbn [app hd]. apply char_at_app. }
    rewrite Hc.
    specialize (IH (pre ++ [d]) (acc ++ [d]) fuel ws Hds').
    cbn zeta in IH.
    replace (inp_pre ++ (pre ++ [d]) ++ ds ++ stop :: suf) with inp in IH.
    2:{ unfold inp. repeat rewrite <- app_assoc. reflexivity. }
    replace (slen (inp_pre ++ pre ++ [d])) with (slen (inp_pre ++ pre) + 1)
      in IH.
    2:{ repeat (rewrite slen_app || rewrite slen_cons). unfold slen. cbn. lia. }
    rewrite IH; [|lia|cbn in Hfuel; lia].
    rewrite <- app_assoc. cbn [app].
    rewrite slen_cons. f_equal. f_equal. f_equal. lia.
Qed.

(** C5, as the claim states it: the quantifier {,0} has the form {,m} and
    is not turned into a Repeat token. *)
Lemma upper_only_zero_rejected :
  ~ (exists tok s',
       process_repeat blank (chars "{,0}") (mkPos 0 []) = Ok (tok, s')
       /\ type tok = REPEAT /\ repeat_lower tok = 0 /\ repeat_upper tok = 0).
Proof.
  intros [tok [s' [H _]]]. vm_compute in H. discriminate H.
Qed.

(** C5, amended.  For a quantifier {,m} outside a bracket set whose m is a
    run of one or more decimal digits of value between 1 and 2147483647,
    [process_repeat] returns a Repeat token with lower bound 0 and upper
    bound m, leaving the scan index on the closing brace; when the value
    of m is 0 it raises the pointless-quantifier error. *)
Theorem process_repeat_upper_only (indeterminate : Token)
  (pre ds suf : list ascii) (ws : list string) :
  let inp := pre ++ "{"%char :: ","%char :: ds ++ "}"%char :: suf in
  slen inp <= 4294967296 ->
  ds <> [] ->
  Forall (fun c => isdigit c = true) ds ->
  (1 <= digits_value ds <= INT_MAX ->
   process_repeat indeterminate inp (mkPos (slen pre) ws)
   = Ok (mkToken REPEAT 0 (digits_value ds) "{"%char,
         mkPos (slen pre + 2 + slen ds) ws))
  /\ (digits_value ds = 0 ->
      process_repeat indeterminate inp (mkPos (slen pre) ws)
      = Throw msg_pointless_00).
Proof.
  intros inp Hlen Hne Hds.
  assert (Hl : slen inp = slen pre + 2 + slen ds + 1 + slen suf).
  { unfold inp. repeat (rewrite slen_app || rewrite slen_cons). lia. }
  pose proof (slen_nonneg pre). pose proof (slen_nonneg ds).
  pose proof (slen_nonneg suf).
  assert (Hrun : process_repeat indeterminate inp (mkPos (slen pre) ws)
            = let upper := extract_int ds in
              if upper >? 0
              then Ok (mkToken REPEAT 0 upper "{"%char,
                       mkPos (slen pre + 2 + slen ds) ws)
              else Throw msg_pointless_00).
  { unfold process_repeat. unfold bind at 1. unfold get_idx at 1.
    cbn [idx]. unfold bind at 1. rewrite get_next_char_ok by lia.
    assert (Hc1 : char_at inp (slen pre + 1) = ","%char).
    { unfold inp.
      change (pre ++ "{"%char :: ","%char :: ds ++ "}"%char :: suf)
        with (pre ++ ["{"%char] ++ ","%char :: ds ++ "}"%char :: suf).
      rewrite app_assoc.
      replace (slen pre + 1) with (slen (pre ++ ["{"%char])).
      - apply char_at_app.
      - rewrite slen_app. reflexivity. }
    rewrite Hc1. unfold bind at 1. unfold fuel_of at 1.
    cbn [read_digits]. change (isdigit ","%char) with false.
    unfold ret at 1. change ((","%char =? ","%char)%char) with true.
    cbn [is_empty]. unfold bind at 1. rewrite get_next_char_ok by lia.
    assert (Hinp : inp = (pre ++ ["{"%char; ","%char]) ++ [] ++ ds
                         ++ "}"%char :: suf).
    { unfold inp. rewrite <- app_assoc. reflexivity. }
    assert (Hc2 : char_at inp (slen pre + 1 + 1) = hd "}"%char ds).
    { rewrite Hinp. cbn [app].
      replace (slen pre + 1 + 1) with (slen (pre ++ ["{"%char; ","%char])).
      2:{ rewrite slen_app. unfold slen. cbn. lia. }
      destruct ds as [|d ds']; [congruence|]. cbn [app hd].
      apply char_at_app. }
    rewrite Hc2. unfold bind at 1.
    pose proof (read_digits_run (pre ++ ["{"%char; ","%char]) "}"%char suf
                  eq_refl ds [] [] (fuel_of inp) ws Hds) as Hrd.
    cbn zeta in Hrd. rewrite <- Hinp in Hrd. rewrite app_nil_r in Hrd.
    replace (slen (pre ++ ["{"%char; ","%char])) with (slen pre + 1 + 1)
      in Hrd.
    2:{ rewrite slen_app. unfold slen. cbn. lia. }
    rewrite Hrd; [|exact Hlen|].
    2:{ unfold fuel_of, inp. rewrite length_app. cbn [List.length].
        rewrite length_app. lia. }
    cbn [app]. change (("}"%char =? "}"%char)%char) with true.
    destruct ds as [|d ds']; [congruence|]. cbn [is_empty].
    set (upper := extract_int (d :: ds')).
    assert (Hup : 0 <= upper).
    { unfold upper, extract_int, INT_MAX.
      pose proof (digits_value_nonneg (d :: ds') Hds). lia. }
    cbv beta iota zeta delta
      [set_repeat_upper set_repeat_lower set_character set_type
       repeat_lower repeat_upper type character].
    change (-1 =? -1) with true. cbv beta iota.
    destruct (upper =? -1) eqn:E1; [lia|]. cbn [andb].
    change (0 =? -1) with false. cbv beta iota.
    destruct (0 >? upper) eqn:E2; [lia|].
    destruct (upper =? 0) eqn:E3.
    - destruct (upper >? 0) eqn:E4; [lia|]. reflexivity.
    - destruct (upper >? 0) eqn:E4; [|lia]. unfold ret.
      f_equal. f_equal. f_equal. lia. }
  split; intros Hv; rewrite Hrun; cbn zeta; unfold extract_int, INT_MAX in *.
  - rewrite Z.min_l by lia.
    destruct (digits_value ds >? 0) eqn:E; [reflexivity|lia].
  - rewrite Hv. reflexivity.
Qed.

(** An instance: the quantifier of the pattern a{,12}b. *)
Lemma process_repeat_upper_only_witness :
  process_repeat blank (chars "a{,12}b") (mkPos 1 [])
  = Ok (mkToken REPEAT 0 12 "{"%char, mkPos 5 []).
Proof.
  refine (proj1 (process_repeat_upper_only blank (chars "a") (chars "12")
                   (chars "b") [] _ _ _) _).
  - vm_compute; discriminate.
  - discriminate.
  - repeat constructor.
  - vm_compute; split; discriminate.
Defined.

(** ** Unfinished quantifiers *)

Lemma slen_nil : slen [] = 0.
Proof. reflexivity. Qed.

Ltac slen_norm :=
  repeat first [rewrite slen_app | rewrite slen_cons | rewrite slen_nil].

Ltac slen_norm_in H :=
  repeat first [rewrite slen_app in H | rewrite slen_cons in H
               | rewrite slen_nil in H].

(** A run of digits that reaches the end of the input. *)
Lemma read_digits_cut_short :
  forall (ds : list ascii) (d : ascii) (pre acc : list ascii) (fuel : nat)
         (ws : list string),
    Forall (fun c => isdigit c = true) (d :: ds) ->
    slen (pre ++ d :: ds) < 4294967296 ->
    (List.length ds < fuel)%nat ->
    read_digits fuel (pre ++ d :: ds) acc d (mkPos (slen pre) ws)
    = Throw msg_premature.
Proof.
  induction ds as [|d' ds IH]; intros d pre acc fuel ws Hds Hlen Hfuel;
    (destruct fuel as [|fuel]; [cbn in Hfuel; lia|]);
    inversion Hds as [|? ? Hd Hds']; subst;
    cbn [read_digits]; rewrite Hd; unfold bind at 1;
    pose proof (slen_nonneg pre) as Hp.
  - rewrite get_next_char_end; [reflexivity|lia| |exact Hlen].
    slen_norm. lia.
  - pose proof (slen_nonneg ds).
    rewrite get_next_char_ok; [|lia|slen_norm; lia|lia].
    replace (pre ++ d :: d' :: ds) with ((pre ++ [d]) ++ d' :: ds)
      by (rewrite <- app_assoc; reflexivity).
    replace (slen pre + 1) with (slen (pre ++ [d])) by (slen_norm; lia).
    rewrite char_at_app. apply IH.
    + exact Hds'.
    + slen_norm_in Hlen. slen_norm. lia.
    + cbn in Hfuel. lia.
Qed.

(** C1 (the code departs from the claim).  A quantifier that the input
    cuts short is not rolled back to a literal brace: the premature end met
    by [get_next_char] inside [process_repeat] leaves [process_repeat], and
    with it [init], as the exception "Input string ended prematurely".
    This holds for every input (shorter than 2^32 characters) that ends
    after the opening brace and a run of digits, or after the lower bound,
    the comma and a run of digits; so for the patterns a{3, a{3, and a{. *)
Theorem unfinished_quantifier_throws (indeterminate : Token) :
  (forall (pre ds : list ascii) (ws : list string),
     Forall (fun c => isdigit c = true) ds ->
     slen (pre ++ "{"%char :: ds) < 4294967296 ->
     process_repeat indeterminate (pre ++ "{"%char :: ds)
       (mkPos (slen pre) ws)
     = Throw msg_premature)
  /\ (forall (pre ds ds' : list ascii) (ws : list string),
     Forall (fun c => isdigit c = true) ds ->
     Forall (fun c => isdigit c = true) ds' ->
     slen (pre ++ "{"%char :: ds ++ ","%char :: ds') < 4294967296 ->
     process_repeat indeterminate (pre ++ "{"%char :: ds ++ ","%char :: ds')
       (mkPos (slen pre) ws)
     = Throw msg_premature)
  /\ init indeterminate (chars "a{3") = Throw msg_premature
  /\ init indeterminate (chars "a{3,") = Throw msg_premature
  /\ init indeterminate (chars "a{") = Throw msg_premature.
Proof.
  split; [|split; [|repeat split; vm_compute; reflexivity]].
  - intros pre ds ws Hds Hlen. pose proof (slen_nonneg pre) as Hp.
    unfold process_repeat. unfold bind at 1, get_idx at 1. cbn [idx].
    unfold bind at 1. destruct ds as [|d ds].
    + rewrite get_next_char_end; [reflexivity|lia| |exact Hlen].
      slen_norm. lia.
    + pose proof (slen_nonneg ds).
      rewrite get_next_char_ok; [|lia|slen_norm; lia|lia].
      replace (pre ++ "{"%char :: d :: ds)
        with ((pre ++ ["{"%char]) ++ d :: ds)
        by (rewrite <- app_assoc; reflexivity).
      replace (slen pre + 1) with (slen (pre ++ ["{"%char]))
        by (slen_norm; lia).
      rewrite char_at_app. unfold bind at 1.
      rewrite read_digits_cut_short; [reflexivity|exact Hds| |].
      * slen_norm_in Hlen. slen_norm. lia.
      * unfold fuel_of. rewrite length_app. cbn [List.length]. lia.
  - intros pre ds ds' ws Hds Hds' Hlen. pose proof (slen_nonneg pre) as Hp.
    set (inp := pre ++ "{"%char :: ds ++ ","%char :: ds') in *.
    assert (Hl : slen inp = slen pre + 1 + slen ds + 1 + slen ds').
    { unfold inp. slen_norm. lia. }
    pose proof (slen_nonneg ds). pose proof (slen_nonneg ds').
    assert (Hinp : inp = (pre ++ ["{"%char]) ++ [] ++ ds ++ ","%char :: ds').
    { unfold inp. rewrite <- app_assoc. reflexivity. }
    unfold process_repeat. unfold bind at 1, get_idx at 1. cbn [idx].
    unfold bind at 1. rewrite get_next_char_ok by lia.
    assert (Hc : char_at inp (slen pre + 1) = hd ","%char ds).
    { rewrite Hinp. cbn [app].
      replace (slen pre + 1) with (slen (pre ++ ["{"%char]))
        by (slen_norm; lia).
      destruct ds; apply char_at_app. }
    rewrite Hc. unfold bind at 1.
    pose proof (read_digits_run (pre ++ ["{"%char]) ","%char ds'
                  eq_refl ds [] [] (fuel_of inp) ws Hds) as Hrd.
    cbn zeta in Hrd. rewrite <- Hinp in Hrd. rewrite app_nil_r in Hrd.
    replace (slen (pre ++ ["{"%char])) with (slen pre + 1) in Hrd
      by (slen_norm; lia).
    rewrite Hrd; [|lia|].
    2:{ unfold fuel_of, inp. rewrite length_app. cbn [List.length].
        rewrite length_app. lia. }
    change ((","%char =? ","%char)%char) with true. cbv beta iota.
    unfold bind at 1. destruct ds' as [|d' ds'].
    + rewrite get_next_char_end; [reflexivity|lia| |exact Hlen].
      rewrite Hl. slen_norm. lia.
    + slen_norm_in Hl. pose proof (slen_nonneg ds').
      rewrite get_next_char_ok by lia.
      assert (Hinp2 : inp = (pre ++ "{"%char :: ds ++ [","%char])
                            ++ d' :: ds').
      { unfold inp. rewrite <- app_assoc. cbn [app]. rewrite <- app_assoc.
        reflexivity. }
      assert (Hl2 : slen pre + 1 + slen ds + 1
                    = slen (pre ++ "{"%char :: ds ++ [","%char])).
      { slen_norm. lia. }
      rewrite Hl2, Hinp2. rewrite char_at_app. unfold bind at 1.
      rewrite read_digits_cut_short; [reflexivity|exact Hds'| |].
      * rewrite <- Hinp2. exact Hlen.
      * rewrite <- Hinp2. unfold fuel_of, inp. rewrite length_app.
        cbn [List.length]. rewrite length_app. cbn [List.length]. lia.
Qed.

(** An instance: the quantifier of the pattern ab{12. *)
Lemma unfinished_quantifier_throws_witness :
  process_repeat blank (chars "ab{12") (mkPos 2 []) = Throw msg_premature.
Proof.
  apply (proj1 (unfinished_quantifier_throws blank) (chars "ab") (chars "12")
           []).
  - repeat constructor.
  - vm_compute; reflexivity.
Defined.

(** ** Bounds of Repeat tokens *)

Ltac break_match H :=
  match type of H with
  | context [match ?x with _ => _ end] => destruct x eqn:?
  end.

Ltac unfold_monad H :=
  unfold bind, ret, throw, diverge, get_idx, set_idx, addWarning in H.

Lemma read_digits_digits (inp : list ascii) :
  forall (fuel : nat) (acc : list ascii) (c : ascii) (s : position)
         (cs : list ascii) (c' : ascii) (s' : position),
    Forall (fun c => isdigit c = true) acc ->
    read_digits fuel inp acc c s = Ok ((cs, c'), s') ->
    Forall (fun c => isdigit c = true) cs.
Proof.
  induction fuel as [|fuel IH]; intros acc c s cs c' s' Hacc H.
  - discriminate H.
  - cbn [read_digits] in H. destruct (isdigit c) eqn:Ed.
    + unfold bind in H.
      destruct (get_next_char inp s) as [[c1 s1]| |]; try discriminate H.
      refine (IH _ _ _ _ _ _ _ H). apply Forall_app. split; [exact Hacc|].
      constructor; [exact Ed|constructor].
    + unfold ret in H. inversion H; subst. exact Hacc.
Qed.

Lemma extract_int_nonneg (cs : list ascii) :
  Forall (fun c => isdigit c = true) cs -> 0 <= extract_int cs.
Proof.
  intros H. pose proof (digits_value_nonneg cs H).
  unfold extract_int, INT_MAX. lia.
Qed.

Ltac simpl_token H :=
  repeat first
    [ progress cbn [set_repeat_upper set_repeat_lower set_character
                    set_type repeat_lower repeat_upper type character
                    andb] in H
    | progress change (Z.eqb (-1) (-1)) with true in H
    | progress change (Z.eqb 0 (-1)) with false in H ].

Ltac run_token H :=
  simpl_token H;
  repeat (break_match H; try discriminate H; simpl_token H).

Lemma process_repeat_ok (indeterminate : Token) (inp : list ascii)
  (s s' : position) (t : Token) :
  process_repeat indeterminate inp s = Ok (t, s') -> repeat_ok t.
Proof.
  intros H. unfold process_repeat in H. unfold_monad H.
  destruct (get_next_char inp s) as [[c1 s1]| |]; try discriminate H.
  destruct (read_digits (fuel_of inp) inp [] c1 s1)
    as [[[cs1 c2] s2]| |] eqn:R1; try discriminate H.
  pose proof (extract_int_nonneg cs1
                (read_digits_digits _ _ _ _ _ _ _ _ (Forall_nil _) R1)) as N1.
  destruct (c2 =? ",")%char.
  - destruct (get_next_char inp s2) as [[c3 s3]| |]; try discriminate H.
    destruct (read_digits (fuel_of inp) inp [] c3 s3)
      as [[[cs2 c4] s4]| |] eqn:R2; try discriminate H.
    pose proof (extract_int_nonneg cs2
                  (read_digits_digits _ _ _ _ _ _ _ _ (Forall_nil _) R2)) as N2.
    revert H.
    generalize dependent (extract_int cs1).
    generalize dependent (extract_int cs2). intros u Hu l Hl H.
    destruct (c4 =? "}")%char, (is_empty cs1), (is_empty cs2);
      run_token H; inversion H; subst; unfold repeat_ok;
      cbn [set_repeat_upper set_repeat_lower set_character set_type
           repeat_lower repeat_upper type character andb] in *;
      intros; try discriminate; lia.
  - revert H. generalize dependent (extract_int cs1). intros l Hl H.
    destruct (c2 =? "}")%char, (is_empty cs1);
      run_token H; inversion H; subst; unfold repeat_ok;
      cbn [set_repeat_upper set_repeat_lower set_character set_type
           repeat_lower repeat_upper type character andb] in *;
      intros; try discriminate; lia.
Qed.

Lemma process_octal_type (indeterminate : Token) (inp : list ascii)
  (c : ascii) (s s' : position) (t : Token) :
  process_octal indeterminate inp c s = Ok (t, s') -> type t = CHARACTER.
Proof.
  intros H. unfold process_octal in H. unfold_monad H.
  repeat (break_match H; try discriminate H);
    inversion H; subst; reflexivity.
Qed.

Lemma process_hex_type (indeterminate : Token) (inp : list ascii)
  (n : Z) (s s' : position) (t : Token) :
  process_hex indeterminate inp n s = Ok (t, s') -> type t = CHARACTER.
Proof.
  intros H. unfold process_hex in H. unfold_monad H.
  repeat (break_match H; try discriminate H);
    inversion H; subst; reflexivity.
Qed.

Lemma process_extension_type (indeterminate : Token) (inp : list ascii)
  (s s' : position) (t : Token) :
  process_extension indeterminate inp s = Ok (t, s') ->
  type t = NO_GROUP_EXT \/ type t = NAMED_GROUP_EXT \/ type t = IGNORED_EXT.
Proof.
  intros H. unfold process_extension in H. unfold_monad H.
  repeat (break_match H; try discriminate H);
    inversion H; subst; cbn; auto.
Qed.

Lemma escape_case_type (indeterminate : Token) (inp : list ascii)
  (in_set : bool) (s s' : position) (t : Token) :
  escape_case indeterminate inp in_set s = Ok (t, s') -> type t <> REPEAT.
Proof.
  intros H. unfold escape_case in H. unfold_monad H.
  repeat (break_match H; try discriminate H);
    try (apply process_octal_type in H; congruence);
    try (apply process_hex_type in H; congruence);
    inversion H; subst; cbn; discriminate.
Qed.

Lemma scan_token_ok (indeterminate : Token) (inp : list ascii)
  (in_set in_set' : bool) (toks : list Token) (s s' : position) (t : Token) :
  scan_token indeterminate inp in_set toks s = Ok ((t, in_set'), s') ->
  repeat_ok t.
Proof.
  intros H. unfold scan_token in H. unfold_monad H.
  repeat (break_match H; try discriminate H);
    inversion H; subst;
    try match goal with
        | E : escape_case _ _ _ _ = Ok _ |- _ =>
            apply escape_case_type in E; intros R; contradiction
        | E : process_extension _ _ _ = Ok _ |- _ =>
            apply process_extension_type in E; intros R;
            destruct E as [E | [E | E]]; congruence
        | E : process_repeat _ _ _ = Ok _ |- _ =>
            apply process_repeat_ok in E; exact E
        end;
    intros R; cbn in R; discriminate R.
Qed.

Lemma init_loop_repeat_ok (indeterminate : Token) (inp : list ascii) :
  forall (fuel : nat) (in_set : bool) (toks : list Token) (s : position)
         (toks' : list Token) (ws' : list string),
    Forall repeat_ok toks ->
    init_loop indeterminate fuel inp in_set toks s = Ok (toks', ws') ->
    Forall repeat_ok toks'.
Proof.
  induction fuel as [|fuel IH]; intros in_set toks s toks' ws' Hinv H.
  - discriminate H.
  - cbn [init_loop] in H. destruct (idx s <? slen inp).
    + destruct (scan_token indeterminate inp in_set toks s)
        as [[[t in_set1] s1]| |] eqn:E; try discriminate H.
      apply (IH _ _ _ _ _) in H; [exact H|].
      apply Forall_app. split; [exact Hinv|].
      constructor; [|constructor]. exact (scan_token_ok _ _ _ _ _ _ _ _ E).
    + inversion H; subst. exact Hinv.
Qed.

Ltac unfold_cursor H :=
  unfold run, bindR, retR, raiseR, assertR, get_index, size, token_at in H.

Lemma get_repeat_lower_value (sc : Scanner) (v : Z) (log : list Z) :
  run get_repeat_lower sc = (Value v, log) ->
  exists t, In t (tokens sc) /\ type t = REPEAT /\ v = repeat_lower t.
Proof.
  intros H. unfold get_repeat_lower, get_type in H. unfold_cursor H.
  destruct (index sc <? Z.of_nat (List.length (tokens sc))) eqn:C;
    cbv beta iota zeta in H; [|cbn in H; discriminate H].
  rewrite C in H.
  destruct (nth_error (tokens sc) (Z.to_nat (index sc))) as [t|] eqn:E;
    cbv beta iota zeta in H; [|discriminate H].
  destruct (TokenType_eqb (type t) REPEAT) eqn:Et;
    cbv beta iota zeta in H; [|discriminate H].
  inversion H; subst. exists t. split; [exact (nth_error_In _ _ E)|].
  split; [|reflexivity]. destruct (type t); try discriminate Et; reflexivity.
Qed.

Lemma get_repeat_upper_value (sc : Scanner) (v : Z) (log : list Z) :
  run get_repeat_upper sc = (Value v, log) ->
  exists t, In t (tokens sc) /\ type t = REPEAT /\ v = repeat_upper t.
Proof.
  intros H. unfold get_repeat_upper, get_type in H. unfold_cursor H.
  destruct (index sc <? Z.of_nat (List.length (tokens sc))) eqn:C;
    cbv beta iota zeta in H; [|cbn in H; discriminate H].
  rewrite C in H.
  destruct (nth_error (tokens sc) (Z.to_nat (index sc))) as [t|] eqn:E;
    cbv beta iota zeta in H; [|discriminate H].
  destruct (TokenType_eqb (type t) REPEAT) eqn:Et;
    cbv beta iota zeta in H; [|discriminate H].
  inversion H; subst. exists t. split; [exact (nth_error_In _ _ E)|].
  split; [|reflexivity]. destruct (type t); try discriminate Et; reflexivity.
Qed.

(** C2, as the claim states it: [get_repeat_upper] would never hand out
    -1.  On the Repeat token of a{3,} it does. *)
Lemma upper_accessor_hands_out_sentinel :
  ~ (forall sc v log,
       init blank (chars "a{3,}") = Ok sc ->
       run get_repeat_upper (advance sc) = (Value v, log) -> v <> -1).
Proof.
  intros H.
  apply (H (mkScanner [mkToken CHARACTER 0 0 "a"%char;
                        mkToken REPEAT 3 (-1) "{"%char] 0 [])
           (-1) [1; 1]); reflexivity.
Qed.

(** C2, amended.  For every pattern that scans successfully, every Repeat
    token of the stream has a lower bound that is at least 0 and an upper
    bound that is either -1 or at least 1 and at least the lower bound;
    wherever the cursor stands, [get_repeat_lower] returns a value that is
    at least 0 and [get_repeat_upper] returns -1 or a value that is at
    least 1.  The value -1 is the marker of a missing upper bound and is
    what [get_repeat_upper] returns for a quantifier {n,}, as on a{3,}. *)
Theorem repeat_bounds_handed_out (indeterminate : Token)
  (inp : list ascii) (sc : Scanner) :
  init indeterminate inp = Ok sc ->
  Forall repeat_ok (tokens sc)
  /\ (forall (cursor : Z) (v : Z) (log : list Z),
        let sc' := mkScanner (tokens sc) cursor (scanner_warnings sc) in
        (run get_repeat_lower sc' = (Value v, log) -> 0 <= v)
        /\ (run get_repeat_upper sc' = (Value v, log) ->
            v = -1 \/ 1 <= v))
  /\ (exists sc3, init indeterminate (chars "a{3,}") = Ok sc3
        /\ run get_repeat_lower (advance sc3) = (Value 3, [1; 1])
        /\ run get_repeat_upper (advance sc3) = (Value (-1), [1; 1])).
Proof.
  intros H.
  assert (Hall : Forall repeat_ok (tokens sc)).
  { unfold init in H.
    destruct (init_loop indeterminate (fuel_of inp) inp false []
                (mkPos 0 [])) as [[toks ws]| |] eqn:E; try discriminate H.
    inversion H; subst. cbn [tokens].
    exact (init_loop_repeat_ok _ _ _ _ _ _ _ _ (Forall_nil _) E). }
  split; [exact Hall|]. split.
  - intros cursor v log sc'. rewrite Forall_forall in Hall.
    split; intros Hv.
    + apply get_repeat_lower_value in Hv. destruct Hv as [t [Hin [Ht ->]]].
      exact (proj1 (Hall t Hin Ht)).
    + apply get_repeat_upper_value in Hv. destruct Hv as [t [Hin [Ht ->]]].
      destruct (proj2 (Hall t Hin Ht)) as [Hu | Hu]; [left|right]; lia.
  - eexists. split; [vm_compute; reflexivity|].
    split; vm_compute; reflexivity.
Qed.

(** An instance: the bounds handed out for the pattern a{2,5}. *)
Lemma repeat_bounds_handed_out_witness :
  let sc := mkScanner [mkToken CHARACTER 0 0 "a"%char;
                       mkToken REPEAT 2 5 "{"%char] 0 [] in
  init blank (chars "a{2,5}") = Ok sc
  /\ Forall repeat_ok (tokens sc)
  /\ 0 <= 2 /\ (5 = -1 \/ 1 <= 5).
Proof.
  intros sc.
  assert (H : init blank (chars "a{2,5}") = Ok sc) by reflexivity.
  split; [exact H|].
  destruct (repeat_bounds_handed_out blank (chars "a{2,5}") sc H)
    as [H1 [H2 _]].
  split; [exact H1|]. split.
  - exact (proj1 (H2 1 2 [1; 1]) eq_refl).
  - exact (proj2 (H2 1 5 [1; 1]) eq_refl).
Defined.

(** ** Patterns without escapes, quantifiers and extensions *)

Lemma free_of_char_at (cs inp : list ascii) (i : Z) :
  free_of cs inp = true -> 0 <= i < slen inp ->
  mem_char (char_at inp i) cs = false.
Proof.
  intros H Hi. unfold free_of in H. rewrite forallb_forall in H.
  specialize (H _ (char_at_In inp i Hi)).
  destruct (mem_char (char_at inp i) cs); [discriminate H|reflexivity].
Qed.

Lemma lazy_follows_bound (inp : list ascii) (i : Z) :
  lazy_follows inp i = true -> 0 <= i < slen inp ->
  slen inp < 4294967296 ->
  i <= uint (i + 1) < slen inp.
Proof.
  unfold lazy_follows. intros H Hi Hlen. apply andb_true_iff in H.
  destruct H as [H _]. apply Z.ltb_lt in H.
  rewrite uint_small in * by lia. lia.
Qed.

(** Outside a bracket set, a character that is none of the characters
    with a case of their own in the switch of [init] (all of which are
    [delimiters] or [operators], except the hyphen) is pushed as a literal,
    a hyphen too. *)
Lemma scan_token_literal (indeterminate : Token) (inp : list ascii)
  (toks : list Token) (s : position) :
  mem_char (char_at inp (idx s)) delimiters = false ->
  mem_char (char_at inp (idx s)) operators = false ->
  scan_token indeterminate inp false toks s
  = Ok ((literal indeterminate (char_at inp (idx s)), false), s).
Proof.
  intros Hd Ho. unfold scan_token, bind, get_idx, ret.
  set (c := char_at inp (idx s)) in *.
  unfold mem_char, delimiters, operators in Hd, Ho.
  cbn [existsb] in Hd, Ho.
  repeat match goal with
         | H : (_ || _) = false |- _ =>
             apply orb_false_iff in H; destruct H as [? H]
         end.
  repeat match goal with
         | H : (c =? _)%char = false |- _ => rewrite H; clear H
         end.
  cbn [andb]. destruct (c =? "-")%char; reflexivity.
Qed.

(** One iteration of the switch on a character that starts no escape, no
    quantifier and no extension. *)
Lemma scan_token_simple (indeterminate : Token) (inp : list ascii)
  (in_set : bool) (toks : list Token) (i : Z) (ws : list string) :
  0 <= i < slen inp -> slen inp < 4294967296 ->
  char_at inp i <> backslash ->
  (char_at inp i = "{"%char -> in_set = true) ->
  (char_at inp i = "?"%char ->
   back_is indeterminate toks LEFT_PAREN = false) ->
  exists t in_set' i',
    scan_token indeterminate inp in_set toks (mkPos i ws)
    = Ok ((t, in_set'), mkPos i' ws)
    /\ i <= i' < slen inp
    /\ (in_set = false -> char_at inp i <> "["%char -> in_set' = false)
    /\ (char_at inp i <> "("%char -> type t <> LEFT_PAREN).
Proof.
  intros Hi Hlen Hbs Hbrace Hq.
  unfold scan_token, bind, get_idx, ret, set_idx. cbn [idx warnings].
  set (c := char_at inp i) in *.
  repeat match goal with
         | |- context [if ?b then _ else _] => destruct b eqn:?
         end;
    repeat match goal with
           | E : (c =? _)%char = true |- _ => apply Ascii.eqb_eq in E
           end;
    try contradiction;
    try (specialize (Hbrace ltac:(assumption)); discriminate Hbrace);
    try (specialize (Hq ltac:(assumption)); congruence);
    (do 3 eexists; split; [reflexivity|]; split;
     [first [lia | apply lazy_follows_bound; assumption]|];
     split; [intros; subst; try reflexivity; try congruence
            |intros; cbn; try discriminate; try congruence]).
Qed.

(** The loop of [init] run to the end of the input from an index [i],
    under an invariant [I] on the flag, the tokens and the index that every
    iteration keeps, none of them failing or warning. *)
Lemma init_loop_total (indeterminate : Token) (inp : list ascii)
  (ws : list string) (I : bool -> list Token -> Z -> Prop) :
  (forall in_set toks i,
     0 <= i < slen inp -> I in_set toks i ->
     exists t in_set' i',
       scan_token indeterminate inp in_set toks (mkPos i ws)
       = Ok ((t, in_set'), mkPos i' ws)
       /\ i <= i' < slen inp
       /\ I in_set' (toks ++ [t]) (i' + 1)) ->
  slen inp < 4294967296 ->
  forall (fuel : nat) (in_set : bool) (toks : list Token) (i : Z),
    0 <= i <= slen inp -> slen inp - i < Z.of_nat fuel ->
    I in_set toks i ->
    exists in_set' toks',
      init_loop indeterminate fuel inp in_set toks (mkPos i ws)
      = Ok (toks', ws)
      /\ I in_set' toks' (slen inp).
Proof.
  intros Hstep Hlen fuel.
  induction fuel as [|fuel IH]; intros in_set toks i Hi Hfuel Hinv.
  - lia.
  - cbn [init_loop idx warnings].
    destruct (Z.ltb_spec i (slen inp)) as [Hlt|Hge].
    + destruct (Hstep in_set toks i ltac:(lia) Hinv)
        as [t [in_set' [i' [E [Hi' Hinv']]]]].
      rewrite E. cbn [idx warnings]. rewrite uint_small by lia.
      apply IH; [lia|lia|exact Hinv'].
    + exists in_set, toks. split; [reflexivity|].
      replace (slen inp) with i by lia. exact Hinv.
Qed.

Lemma back_is_false (indeterminate : Token) (toks : list Token)
  (ty : TokenType) :
  Forall (fun t => type t <> ty) toks ->
  back_is indeterminate toks ty = false.
Proof.
  intros H. unfold back_is.
  destruct toks as [|t0 toks0] using rev_ind; [reflexivity|].
  rewrite last_last. apply Forall_app in H. destruct H as [_ H].
  inversion H as [|? ? Ht _]; subst.
  destruct (type t0), ty; try reflexivity; try congruence;
    apply andb_false_r.
Qed.

Lemma firstn_succ (inp : list ascii) (i : Z) :
  0 <= i < slen inp ->
  firstn (Z.to_nat (i + 1)) inp
  = firstn (Z.to_nat i) inp ++ [char_at inp i].
Proof.
  intros Hi. unfold char_at, slen in *.
  replace (Z.to_nat (i + 1)) with (S (Z.to_nat i)) by lia.
  assert (Hn : (Z.to_nat i < List.length inp)%nat) by lia.
  revert Hn. generalize (Z.to_nat i). clear Hi. intros n.
  revert inp. induction n as [|n IH]; intros [|c inp] Hn;
    cbn in Hn; try lia.
  - reflexivity.
  - cbn [firstn nth app]. f_equal. apply IH. lia.
Qed.

Lemma mem_char_false (c x : ascii) (cs : list ascii) :
  mem_char c cs = false -> In x cs -> c <> x.
Proof.
  unfold mem_char. intros H Hin ->.
  assert (existsb (Ascii.eqb x) cs = true); [|congruence].
  apply existsb_exists. exists x. split; [exact Hin|apply Ascii.eqb_refl].
Qed.

(** C6, as the claim states it: the pattern a* has no backslash, bracket,
    brace or parenthesis, and its second character does not scan to a
    Character token. *)
Lemma star_is_not_literal :
  free_of delimiters (chars "a*") = true
  /\ ~ (exists sc, init blank (chars "a*") = Ok sc
        /\ kinds (tokens sc) = [(CHARACTER, "a"); (CHARACTER, "*")]%char).
Proof.
  split; [reflexivity|].
  intros [sc [H K]]. vm_compute in H. inversion H; subst sc.
  vm_compute in K. discriminate K.
Qed.

(** C6, amended.  For every pattern (shorter than 2^32 characters) that
    contains no backslash, no square bracket, no curly brace and no
    parenthesis, scanning succeeds without error or warning; if the
    pattern contains none of the characters | * + ? . ^ $ either, the
    token stream is exactly one literal Character token per character of
    the pattern, in order, each with that character as payload. *)
Theorem plain_pattern_scans (indeterminate : Token) (inp : list ascii) :
  slen inp < 4294967296 ->
  free_of delimiters inp = true ->
  (exists sc, init indeterminate inp = Ok sc /\ scanner_warnings sc = [])
  /\ (free_of operators inp = true ->
      init indeterminate inp
      = Ok (mkScanner (map (literal indeterminate) inp) 0 [])).
Proof.
  intros Hlen Hd. split.
  - destruct (init_loop_total indeterminate inp []
                (fun in_set toks _ =>
                   in_set = false
                   /\ Forall (fun t => type t <> LEFT_PAREN) toks))
      with (fuel := fuel_of inp) (in_set := false)
           (toks := @nil Token) (i := 0)
      as [in_set' [toks' [E _]]].
    + intros in_set toks i Hi [-> Hall].
      pose proof (free_of_char_at _ _ _ Hd Hi) as Hc.
      destruct (scan_token_simple indeterminate inp false toks i [])
        as [t [in_set' [i' [E [Hi' [Hset Hty]]]]]]; try assumption.
      * apply (mem_char_false _ _ _ Hc). cbn. auto.
      * intros Hb. exfalso. revert Hb.
        apply (mem_char_false _ _ _ Hc). cbn. auto.
      * intros _. apply back_is_false. exact Hall.
      * exists t, in_set', i'. split; [exact E|]. split; [exact Hi'|].
        split.
        -- apply Hset; [reflexivity|].
           apply (mem_char_false _ _ _ Hc). cbn. auto.
        -- apply Forall_app. split; [exact Hall|].
           constructor; [|constructor]. apply Hty.
           apply (mem_char_false _ _ _ Hc). cbn. auto 10.
    + exact Hlen.
    + pose proof (slen_nonneg inp). lia.
    + unfold fuel_of, slen. lia.
    + split; [reflexivity|constructor].
    + unfold init. rewrite E. eexists. split; reflexivity.
  - intros Ho.
    destruct (init_loop_total indeterminate inp []
                (fun in_set toks i =>
                   in_set = false
                   /\ toks = map (literal indeterminate)
                                 (firstn (Z.to_nat i) inp)))
      with (fuel := fuel_of inp) (in_set := false)
           (toks := @nil Token) (i := 0)
      as [in_set' [toks' [E [_ Htoks]]]].
    + intros in_set toks i Hi [-> ->].
      exists (literal indeterminate (char_at inp i)), false, i.
      split; [|split; [lia|split; [reflexivity|]]].
      * apply (scan_token_literal indeterminate inp _ (mkPos i [])).
        -- exact (free_of_char_at _ _ _ Hd Hi).
        -- exact (free_of_char_at _ _ _ Ho Hi).
      * rewrite firstn_succ by exact Hi. rewrite map_app. reflexivity.
    + exact Hlen.
    + pose proof (slen_nonneg inp). lia.
    + unfold fuel_of, slen. lia.
    + split; reflexivity.
    + unfold init. rewrite E. rewrite Htoks. unfold slen.
      rewrite Nat2Z.id, firstn_all. reflexivity.
Qed.

(** An instance: the pattern abc-d. *)
Lemma plain_pattern_scans_witness :
  init blank (chars "abc-d")
  = Ok (mkScanner (map (literal blank) (chars "abc-d")) 0 []).
Proof.
  apply (proj2 (plain_pattern_scans blank (chars "abc-d")
                  ltac:(vm_compute; reflexivity) eq_refl) eq_refl).
Defined.

(** ** Unbalanced brackets and parentheses *)

(** Inside a bracket set every character but those of [set_specials] is
    pushed as a literal. *)
Lemma scan_token_literal_in_set (indeterminate : Token) (inp : list ascii)
  (toks : list Token) (s : position) :
  mem_char (char_at inp (idx s)) set_specials = false ->
  back_is indeterminate toks LEFT_PAREN = false ->
  scan_token indeterminate inp true toks s
  = Ok ((literal indeterminate (char_at inp (idx s)), true), s).
Proof.
  intros Hs Hb. unfold scan_token, bind, get_idx, ret.
  set (c := char_at inp (idx s)) in *.
  unfold mem_char, set_specials in Hs. cbn [existsb] in Hs.
  repeat match goal with
         | H : (_ || _) = false |- _ =>
             apply orb_false_iff in H; destruct H as [? H]
         end.
  repeat match goal with
         | H : (c =? _)%char = false |- _ => rewrite H; clear H
         end.
  rewrite Hb.
  repeat match goal with
         | |- context [if ?b then _ else _] => destruct b
         end; reflexivity.
Qed.

Lemma tl_app_last {A} (l : list A) (x : A) :
  l <> [] -> tl (l ++ [x]) = tl l ++ [x].
Proof. destruct l; [congruence|reflexivity]. Qed.

(** C10, as the claim states it: in [\b the set is never closed, and in
    (? the parenthesis is never matched; neither scan completes. *)
Lemma unbalanced_patterns_can_fail :
  ~ (exists sc, init blank (chars "[\b") = Ok sc)
  /\ ~ (exists sc, init blank (chars "(?") = Ok sc)
  /\ ~ (exists sc, init blank (chars "(\B") = Ok sc
         /\ scanner_warnings sc = []).
Proof.
  repeat split; intros [sc H].
  - vm_compute in H. discriminate H.
  - vm_compute in H. discriminate H.
  - destruct H as [H W]. vm_compute in H. inversion H; subst sc.
    discriminate W.
Qed.

(** ** Anchors *)





(** ** Termination of the scan *)

Lemma settled_bind {A B : Type} (inp : list ascii) (lo : Z)
  (m : M A) (k : A -> M B) (s : position) :
  settled inp lo (m s) ->
  (forall a s', m s = Ok (a, s') -> lo <= idx s' < slen inp ->
                settled inp lo (k a s')) ->
  settled inp lo (bind m k s).
Proof.
  unfold bind. destruct (m s) as [[a s']| |]; cbn; intros H1 H2.
  - exact (H2 a s' eq_refl H1).
  - exact Logic.I.
  - contradiction.
Qed.

Lemma get_next_char_inv (inp : list ascii) (s s' : position) (c : ascii) :
  get_next_char inp s = Ok (c, s') ->
  idx s' = uint (idx s + 1) /\ idx s' < slen inp
  /\ warnings s' = warnings s /\ c = char_at inp (idx s').
Proof.
  unfold get_next_char, bind, get_idx, set_idx, throw, ret. cbn.
  destruct (uint (idx s + 1) >=? slen inp) eqn:E; [discriminate|].
  intros H. inversion H; subst. cbn. repeat split. lia.
Qed.

Lemma settled_get_next_char (inp : list ascii) (lo : Z) (s : position) :
  slen inp < 4294967296 -> 0 <= lo <= idx s -> idx s < slen inp ->
  settled inp lo (get_next_char inp s).
Proof.
  intros Hlen Hlo Hi.
  destruct (get_next_char inp s) as [[c s']| |] eqn:E; cbn.
  - apply get_next_char_inv in E. destruct E as [E1 [E2 _]].
    rewrite uint_small in E1 by lia. lia.
  - exact Logic.I.
  - unfold get_next_char, bind, get_idx, set_idx, throw, ret in E.
    cbn in E. destruct (uint (idx s + 1) >=? slen inp); discriminate E.
Qed.

Lemma settled_read_digits (inp : list ascii) (lo : Z) :
  slen inp < 4294967296 -> 0 <= lo ->
  forall (fuel : nat) (acc : list ascii) (c : ascii) (s : position),
    lo <= idx s < slen inp -> slen inp - idx s <= Z.of_nat fuel ->
    settled inp lo (read_digits fuel inp acc c s).
Proof.
  intros Hlen Hlo fuel.
  induction fuel as [|fuel IH]; intros acc c s Hi Hfuel; [lia|].
  cbn [read_digits]. destruct (isdigit c).
  - apply settled_bind; [apply settled_get_next_char; lia|].
    intros c' s' E Hs'. apply get_next_char_inv in E.
    destruct E as [E _]. rewrite uint_small in E by lia.
    apply IH; lia.
  - cbn. lia.
Qed.

Lemma settled_skip_to_gt (inp : list ascii) (lo : Z) :
  slen inp < 4294967296 -> 0 <= lo ->
  forall (fuel : nat) (c : ascii) (s : position),
    lo <= idx s < slen inp -> slen inp - idx s <= Z.of_nat fuel ->
    settled inp lo (skip_to_gt fuel inp c s).
Proof.
  intros Hlen Hlo fuel.
  induction fuel as [|fuel IH]; intros c s Hi Hfuel; [lia|].
  cbn [skip_to_gt]. destruct (negb (c =? ">")%char).
  - apply settled_bind; [apply settled_get_next_char; lia|].
    intros c' s' E Hs'. apply get_next_char_inv in E.
    destruct E as [E _]. rewrite uint_small in E by lia.
    apply IH; lia.
  - cbn. lia.
Qed.

Lemma settled_hex_extra_digits (inp : list ascii) (lo : Z) (num_digits : Z) :
  slen inp < 4294967296 -> 0 <= lo ->
  forall (n : nat) (s : position),
    lo <= idx s < slen inp ->
    settled inp lo (hex_extra_digits n inp num_digits s).
Proof.
  intros Hlen Hlo n. induction n as [|n IH]; intros s Hi.
  - cbn. lia.
  - cbn [hex_extra_digits].
    apply settled_bind; [apply settled_get_next_char; lia|].
    intros d s' E Hs'. destruct (negb (d =? "0")%char).
    + exact Logic.I.
    + apply IH. exact Hs'.
Qed.

Ltac settle_step :=
  match goal with
  | |- settled _ _ (bind _ _ _) => apply settled_bind
  | |- settled _ _ (get_next_char _ _) =>
      apply settled_get_next_char; [assumption|lia|lia]
  | |- settled _ _ (ret _ _) => cbn; lia
  | |- settled _ _ (throw _ _) => exact Logic.I
  | |- settled _ _ (addWarning _ _) => cbn; lia
  | |- settled _ _ ((if ?b then _ else _) _) => destruct b eqn:?
  | |- forall _, _ => intro
  end.

Lemma settled_process_hex (indeterminate : Token) (inp : list ascii)
  (lo : Z) (n : Z) (s : position) :
  slen inp < 4294967296 -> 0 <= lo -> lo <= idx s < slen inp ->
  settled inp lo (process_hex indeterminate inp n s).
Proof.
  intros Hlen Hlo Hi. unfold process_hex.
  apply settled_bind; [apply settled_hex_extra_digits; assumption|].
  repeat settle_step.
Qed.

Lemma settled_process_extension (indeterminate : Token) (inp : list ascii)
  (lo : Z) (s : position) :
  slen inp < 4294967296 -> 0 <= lo -> lo <= idx s < slen inp ->
  settled inp lo (process_extension indeterminate inp s).
Proof.
  intros Hlen Hlo Hi. unfold process_extension. cbv zeta.
  repeat first
    [ settle_step
    | apply settled_skip_to_gt;
      [assumption|assumption|lia|unfold fuel_of, slen in *; lia] ].
Qed.

Lemma settled_process_octal (indeterminate : Token) (inp : list ascii)
  (lo : Z) (c : ascii) (s : position) :
  slen inp < 4294967296 -> 0 <= lo -> lo <= idx s < slen inp ->
  settled inp lo (process_octal indeterminate inp c s).
Proof.
  intros Hlen Hlo Hi. unfold process_octal, bind, get_idx, set_idx, ret.
  cbn [idx warnings].
  destruct (Z.geb_spec (uint (idx s + 1)) (slen inp)) as [H1|H1].
  - destruct (c =? "0")%char; exact Logic.I.
  - rewrite uint_small in H1 by lia.
    rewrite (uint_small (idx s + 1)) by lia.
    match goal with
    | |- context [if ?b then _ else _] => destruct b
    end; [destruct (c =? "0")%char; exact Logic.I|].
    destruct (Z.ltb_spec (uint (idx s + 2)) (slen inp)) as [H2|H2];
      cbn [andb];
      repeat match goal with
             | |- context [if ?b then _ else _] => destruct b
             end; unfold settled, throw; cbn [idx]; try exact Logic.I;
      try lia.
    rewrite uint_small in * by lia. lia.
Qed.

Lemma settled_process_repeat (indeterminate : Token) (inp : list ascii)
  (s : position) :
  slen inp < 4294967296 -> 0 <= idx s < slen inp ->
  settled inp (idx s) (process_repeat indeterminate inp s).
Proof.
  intros Hlen Hi. unfold process_repeat. cbv zeta.
  apply settled_bind; [cbn; lia|].
  intros current_idx s0 E _. inversion E; subst current_idx s0. clear E.
  repeat first
    [ settle_step
    | apply settled_read_digits;
      [assumption|lia|lia|unfold fuel_of, slen in *; lia]
    | match goal with
      | |- settled _ _ ((let (_, _) := ?p in _) _) => destruct p
      | |- settled _ _ (set_idx _ _) => cbn; lia
      end ].
Qed.

Lemma settled_escape_case (indeterminate : Token) (inp : list ascii)
  (lo : Z) (in_set : bool) (s : position) :
  slen inp < 4294967296 -> 0 <= lo -> lo <= idx s < slen inp ->
  settled inp lo (escape_case indeterminate inp in_set s).
Proof.
  intros Hlen Hlo Hi. unfold escape_case. cbv zeta.
  repeat first
    [ settle_step
    | apply settled_process_octal; assumption
    | apply settled_process_hex; assumption ].
Qed.

Lemma settled_scan_token (indeterminate : Token) (inp : list ascii)
  (in_set : bool) (toks : list Token) (s : position) :
  slen inp < 4294967296 -> 0 <= idx s < slen inp ->
  settled inp (idx s) (scan_token indeterminate inp in_set toks s).
Proof.
  intros Hlen Hi. unfold scan_token. cbv zeta.
  apply settled_bind; [cbn; lia|].
  intros i s0 E _. inversion E; subst i s0. clear E.
  repeat first
    [ settle_step
    | apply settled_escape_case; [assumption|lia|lia]
    | apply settled_process_extension; [assumption|lia|lia]
    | apply settled_process_repeat; [assumption|lia]
    | match goal with
      | H : get_idx _ = Ok _ |- _ => inversion H; subst; clear H
      | H : (_ && lazy_follows _ _) = true |- settled _ _ (set_idx _ _) =>
          apply andb_true_iff in H; destruct H as [_ H];
          apply lazy_follows_bound in H; [cbn; lia|lia|assumption]
      | |- settled _ _ (get_idx _) => cbn; lia
      end ].
Qed.

Lemma init_loop_settles (indeterminate : Token) (inp : list ascii) :
  slen inp < 4294967296 ->
  forall (fuel : nat) (in_set : bool) (toks : list Token) (s : position),
    0 <= idx s <= slen inp -> slen inp - idx s < Z.of_nat fuel ->
    init_loop indeterminate fuel inp in_set toks s <> Diverge.
Proof.
  intros Hlen fuel.
  induction fuel as [|fuel IH]; intros in_set toks s Hi Hfuel; [lia|].
  - cbn [init_loop]. destruct (Z.ltb_spec (idx s) (slen inp)) as [Hlt|Hge];
      [|discriminate].
    pose proof (settled_scan_token indeterminate inp in_set toks s Hlen
                  (conj (proj1 Hi) Hlt)) as Hs.
    destruct (scan_token indeterminate inp in_set toks s)
      as [[[t in_set'] s']| |]; cbn in Hs; [|discriminate|contradiction].
    apply IH; cbn [idx]; rewrite uint_small by lia; lia.
Qed.

(** X1.
    Scanning terminates: on every pattern shorter than 2^32 characters
    [init] returns a scanner or raises an error, with the fuel it gives to
    its loops. *)
Theorem init_terminates (indeterminate : Token) (inp : list ascii) :
  slen inp < 4294967296 -> init indeterminate inp <> Diverge.
Proof.
  intros Hlen. unfold init.
  pose proof (init_loop_settles indeterminate inp Hlen (fuel_of inp) false
                [] (mkPos 0 [])
                ltac:(pose proof (slen_nonneg inp); cbn [idx]; lia)
                ltac:(unfold fuel_of, slen; cbn [idx]; lia)) as H.
  destruct (init_loop indeterminate (fuel_of inp) inp false [] (mkPos 0 []))
    as [[toks ws]| |]; [discriminate|discriminate|contradiction].
Qed.

(** * Further properties of the scanner *)

(** An instance of [init_terminates]: the pattern (?P<n>a{2,3})|[b-d]\x41. *)
Lemma init_terminates_witness :
  init blank (chars "(?P<n>a{2,3})|[b-d]\x41") <> Diverge.
Proof.
  apply (init_terminates blank (chars "(?P<n>a{2,3})|[b-d]\x41")).
  vm_compute; reflexivity.
Defined.

(** ** Size of the token stream *)




(** ** The octal escape decoder *)

Lemma octal_test (c : ascii) :
  (char_val c <? char_val "0") || (char_val c >? char_val "7")
  = negb (is_octal c).
Proof. destruct c as [[] [] [] [] [] [] [] []]; reflexivity. Qed.

Lemma octal_test_pos (c : ascii) :
  (char_val c >=? char_val "0") && (char_val c <=? char_val "7")
  = is_octal c.
Proof. destruct c as [[] [] [] [] [] [] [] []]; reflexivity. Qed.

Lemma digit_value_char_val (c : ascii) (v : Z) :
  digit_value c = Some v ->
  char_val c - char_val "0" = v /\ ((c =? "0")%char = (v =? 0)).
Proof.
  destruct c as [[] [] [] [] [] [] [] []]; cbn; intros H;
    try discriminate H; inversion H; subst; split; reflexivity.
Qed.

Lemma process_octal_run (indeterminate : Token) (inp : list ascii) (i : Z)
  (ws : list string) (d1 : ascii) :
  0 <= i < slen inp -> slen inp < 4294967296 ->
  process_octal indeterminate inp d1 (mkPos i ws)
  = let d2 := char_at inp (i + 1) in
    let d3 := char_at inp (i + 2) in
    if (slen inp <=? i + 1) || negb (is_octal d2) then
      if (d1 =? "0")%char then Throw (msg_unsupported_char "0")
      else Throw (msg_backreference d1)
    else
      let three := (i + 2 <? slen inp) && is_octal d3 in
      let v :=
        if three
        then (char_val d1 - char_val "0") * 64
             + (char_val d2 - char_val "0") * 8
             + (char_val d3 - char_val "0")
        else (char_val d1 - char_val "0") * 8
             + (char_val d2 - char_val "0") in
      if (v <? 32) || (v >? 126) then Throw (msg_octal_value v)
      else Ok (literal indeterminate (char_of_int v),
               mkPos (if three then i + 2 else i + 1) ws).
Proof.
  intros Hi Hlen. unfold process_octal, bind, get_idx, set_idx, ret, throw.
  cbn [idx warnings]. cbv zeta.
  rewrite (uint_small (i + 1)) by lia.
  destruct (Z.leb_spec (slen inp) (i + 1)) as [H1|H1].
  - destruct (Z.geb_spec (i + 1) (slen inp)) as [_|]; [|lia].
    cbn [orb]. destruct (d1 =? "0")%char; reflexivity.
  - destruct (Z.geb_spec (i + 1) (slen inp)) as [|_]; [lia|].
    cbn [orb]. rewrite (uint_small (i + 2)) by lia.
    rewrite octal_test, octal_test_pos.
    destruct (is_octal (char_at inp (i + 1))); cbn [negb].
    + destruct ((i + 2 <? slen inp) && is_octal (char_at inp (i + 2)));
        match goal with
        | |- context [if ?b then _ else _] => destruct b
        end; reflexivity.
    + destruct (d1 =? "0")%char; reflexivity.
Qed.

(** X3.
    [process_octal], entered with the scan index on the first digit [d1]
    (any decimal digit, 8 and 9 included) in a pattern shorter than 2^32
    characters.  When no octal digit follows, the escape is an error: the
    null escape for the digit 0, a backreference otherwise.  When one octal
    digit follows and a second does not, the value is 8 d1 + d2 and the
    index moves on by one; when two octal digits follow, the value is
    64 d1 + 8 d2 + d3 and the index moves on by two.  A value in [32,126]
    gives the literal Character of that value, any other value the error
    that names it in decimal. *)
Theorem process_octal_decodes (indeterminate : Token) (inp : list ascii)
  (i : Z) (ws : list string) (d1 : ascii) (v1 : Z) :
  0 <= i < slen inp -> slen inp < 4294967296 ->
  digit_value d1 = Some v1 ->
  let d2 := char_at inp (i + 1) in
  let d3 := char_at inp (i + 2) in
  let run := process_octal indeterminate inp d1 (mkPos i ws) in
  (slen inp <= i + 1 \/ is_octal d2 = false ->
   run = Throw (if v1 =? 0 then msg_unsupported_char "0"
                else msg_backreference d1))
  /\ (forall v2,
        i + 1 < slen inp -> is_octal d2 = true ->
        digit_value d2 = Some v2 ->
        (slen inp <= i + 2 \/ is_octal d3 = false ->
         (32 <= 8 * v1 + v2 <= 126 ->
          run = Ok (literal indeterminate (char_of_int (8 * v1 + v2)),
                    mkPos (i + 1) ws))
         /\ (8 * v1 + v2 < 32 \/ 126 < 8 * v1 + v2 ->
             run = Throw (msg_octal_value (8 * v1 + v2))))
        /\ (forall v3,
              i + 2 < slen inp -> is_octal d3 = true ->
              digit_value d3 = Some v3 ->
              (32 <= 64 * v1 + 8 * v2 + v3 <= 126 ->
               run = Ok (literal indeterminate
                           (char_of_int (64 * v1 + 8 * v2 + v3)),
                         mkPos (i + 2) ws))
              /\ (64 * v1 + 8 * v2 + v3 < 32 \/ 126 < 64 * v1 + 8 * v2 + v3 ->
                  run = Throw (msg_octal_value (64 * v1 + 8 * v2 + v3))))).
Proof.
  intros Hi Hlen Hd1 d2 d3 run.
  pose proof (process_octal_run indeterminate inp i ws d1 Hi Hlen) as Hrun.
  cbv zeta in Hrun. fold d2 d3 run in Hrun.
  destruct (digit_value_char_val _ _ Hd1) as [Hv1 Hz1].
  split.
  - intros Hno. rewrite Hrun, Hz1.
    assert (Hc : (slen inp <=? i + 1) || negb (is_octal d2) = true).
    { destruct Hno as [Hno|Hno].
      - apply Z.leb_le in Hno. rewrite Hno. reflexivity.
      - rewrite Hno. apply orb_true_r. }
    rewrite Hc. destruct (v1 =? 0); reflexivity.
  - intros v2 Hlt Ho2 Hd2.
    destruct (digit_value_char_val _ _ Hd2) as [Hv2 _].
    assert (Hc : (slen inp <=? i + 1) || negb (is_octal d2) = false).
    { rewrite Ho2. destruct (Z.leb_spec (slen inp) (i + 1)); [lia|].
      reflexivity. }
    rewrite Hc in Hrun. rewrite Hv1, Hv2 in Hrun. split.
    + intros Hno.
      assert (Ht : (i + 2 <? slen inp) && is_octal d3 = false).
      { destruct Hno as [Hno|Hno].
        - destruct (Z.ltb_spec (i + 2) (slen inp)); [lia|reflexivity].
        - rewrite Hno. apply andb_false_r. }
      rewrite Ht in Hrun.
      replace (v1 * 8 + v2) with (8 * v1 + v2) in Hrun by lia.
      split; intros Hv; rewrite Hrun.
      * destruct ((8 * v1 + v2 <? 32) || (8 * v1 + v2 >? 126)) eqn:E;
          [apply orb_true_iff in E; lia|reflexivity].
      * destruct ((8 * v1 + v2 <? 32) || (8 * v1 + v2 >? 126)) eqn:E;
          [reflexivity|apply orb_false_iff in E; lia].
    + intros v3 Hlt3 Ho3 Hd3.
      destruct (digit_value_char_val _ _ Hd3) as [Hv3 _].
      assert (Ht : (i + 2 <? slen inp) && is_octal d3 = true).
      { rewrite Ho3. destruct (Z.ltb_spec (i + 2) (slen inp)); [|lia].
        reflexivity. }
      rewrite Ht, Hv3 in Hrun.
      replace (v1 * 64 + v2 * 8 + v3) with (64 * v1 + 8 * v2 + v3) in Hrun
        by lia.
      split; intros Hv; rewrite Hrun.
      * destruct ((64 * v1 + 8 * v2 + v3 <? 32)
                  || (64 * v1 + 8 * v2 + v3 >? 126)) eqn:E;
          [apply orb_true_iff in E; lia|reflexivity].
      * destruct ((64 * v1 + 8 * v2 + v3 <? 32)
                  || (64 * v1 + 8 * v2 + v3 >? 126)) eqn:E;
          [reflexivity|apply orb_false_iff in E; lia].
Qed.

(** An instance: the escape of the pattern \101b, the letter A. *)
Lemma process_octal_decodes_witness :
  process_octal blank (chars "\101b") "1"%char (mkPos 1 [])
  = Ok (literal blank (char_of_int (64 * 1 + 8 * 0 + 1)), mkPos (1 + 2) []).
Proof.
  refine (proj1 (proj2 (proj2 (process_octal_decodes blank (chars "\101b")
            1 [] "1"%char 1 _ _ _) 0 _ _ _) 1 _ _ _) _).
  - vm_compute; split; [discriminate|reflexivity].
  - vm_compute; reflexivity.
  - reflexivity.
  - vm_compute; reflexivity.
  - reflexivity.
  - reflexivity.
  - vm_compute; reflexivity.
  - reflexivity.
  - reflexivity.
  - lia.
Defined.

(** ** The extension processor *)

(** X4.
    [process_extension], entered with the scan index [i] on the question
    mark that follows an opening parenthesis, in a pattern of at most 2^32
    characters.  The next character decides: a colon gives NoGroupExt; one
    of # = ! gives IgnoredExt and the warning that names it; < followed by
    = or ! gives IgnoredExt and a warning, < followed by anything else an
    error; P followed by = or by anything but < an error; any other
    character the error that names it; the end of the input the
    premature-end error.  No form but the named group reads further. *)
Theorem process_extension_classifies (indeterminate : Token)
  (inp : list ascii) (i : Z) (ws : list string) :
  0 <= i < slen inp -> slen inp < 4294967296 ->
  let ext := char_at inp (i + 1) in
  let c := char_at inp (i + 2) in
  let run := process_extension indeterminate inp (mkPos i ws) in
  (i + 1 = slen inp -> run = Throw msg_premature)
  /\ (i + 1 < slen inp ->
      (ext = ":"%char ->
       run = Ok (set_type indeterminate NO_GROUP_EXT, mkPos (i + 1) ws))
      /\ (In ext ["#"; "="; "!"]%char ->
          run = Ok (set_type indeterminate IGNORED_EXT,
                    mkPos (i + 1) (ws ++ [warn_extension ext])))
      /\ (~ In ext [":"; "P"; "#"; "="; "!"; "<"]%char ->
          run = Throw (msg_extension ext))
      /\ (In ext ["<"; "P"]%char -> i + 2 = slen inp ->
          run = Throw msg_premature)
      /\ (i + 2 < slen inp ->
          (ext = "<"%char -> In c ["="; "!"]%char ->
           run = Ok (set_type indeterminate IGNORED_EXT,
                     mkPos (i + 2) (ws ++ [warn_extension_lt c])))
          /\ (ext = "<"%char -> ~ In c ["="; "!"]%char ->
              run = Throw (msg_extension_lt c))
          /\ (ext = "P"%char -> c = "="%char ->
              run = Throw msg_named_backreference)
          /\ (ext = "P"%char -> ~ In c ["="; "<"]%char ->
              run = Throw msg_named_group))).
Proof.
  intros Hi Hlen ext c run. split.
  - intros He. unfold run, process_extension. cbv zeta. unfold bind at 1.
    rewrite get_next_char_end by lia. reflexivity.
  - intros H1.
    assert (Hrun1 : run
              = (if (ext =? ":")%char then
                   ret (set_type indeterminate NO_GROUP_EXT)
                 else if (ext =? "P")%char then
                   bind (get_next_char inp) (fun c =>
                     if (c =? "=")%char then throw msg_named_backreference
                     else if negb (c =? "<")%char then throw msg_named_group
                     else bind (skip_to_gt (fuel_of inp) inp c) (fun _ =>
                            ret (set_type indeterminate NAMED_GROUP_EXT)))
                 else if (ext =? "#")%char || (ext =? "=")%char
                         || (ext =? "!")%char then
                   bind (addWarning (warn_extension ext)) (fun _ =>
                     ret (set_type indeterminate IGNORED_EXT))
                 else if (ext =? "<")%char then
                   bind (get_next_char inp) (fun c =>
                     if (c =? "=")%char || (c =? "!")%char then
                       bind (addWarning (warn_extension_lt c)) (fun _ =>
                         ret (set_type indeterminate IGNORED_EXT))
                     else throw (msg_extension_lt c))
                 else throw (msg_extension ext)) (mkPos (i + 1) ws)).
    { unfold run, process_extension. cbv zeta. unfold bind at 1.
      rewrite get_next_char_ok by lia. reflexivity. }
    split; [|split; [|split; [|split]]].
    + intros He. rewrite Hrun1, He. reflexivity.
    + intros Hin. rewrite Hrun1.
      destruct Hin as [<-|[<-|[<-|[]]]]; reflexivity.
    + intros Hn. rewrite Hrun1.
      destruct (ext =? ":")%char eqn:E1;
        [apply Ascii.eqb_eq in E1; exfalso; apply Hn; cbn; auto|].
      destruct (ext =? "P")%char eqn:E2;
        [apply Ascii.eqb_eq in E2; exfalso; apply Hn; cbn; auto|].
      destruct (ext =? "#")%char eqn:E3;
        [apply Ascii.eqb_eq in E3; exfalso; apply Hn; cbn; auto|].
      destruct (ext =? "=")%char eqn:E4;
        [apply Ascii.eqb_eq in E4; exfalso; apply Hn; cbn; auto 6|].
      destruct (ext =? "!")%char eqn:E5;
        [apply Ascii.eqb_eq in E5; exfalso; apply Hn; cbn; auto 7|].
      destruct (ext =? "<")%char eqn:E6;
        [apply Ascii.eqb_eq in E6; exfalso; apply Hn; cbn; auto 8|].
      reflexivity.
    + intros Hin He. rewrite Hrun1.
      destruct Hin as [<-|[<-|[]]]; cbn [Ascii.eqb Bool.eqb orb];
        cbv beta iota; unfold bind at 1;
        rewrite get_next_char_end by lia; reflexivity.
    + intros H2.
      assert (Hnext : get_next_char inp (mkPos (i + 1) ws)
                      = Ok (c, mkPos (i + 2) ws)).
      { rewrite get_next_char_ok by lia. unfold c.
        replace (i + 1 + 1) with (i + 2) by lia. reflexivity. }
      split; [|split; [|split]].
      * intros He Hin. rewrite Hrun1, He. cbn [Ascii.eqb Bool.eqb orb].
        cbv beta iota. unfold bind at 1. rewrite Hnext.
        destruct Hin as [<-|[<-|[]]]; reflexivity.
      * intros He Hn. rewrite Hrun1, He. cbn [Ascii.eqb Bool.eqb orb].
        cbv beta iota. unfold bind at 1. rewrite Hnext.
        destruct (c =? "=")%char eqn:E1;
          [apply Ascii.eqb_eq in E1; exfalso; apply Hn; cbn; auto|].
        destruct (c =? "!")%char eqn:E2;
          [apply Ascii.eqb_eq in E2; exfalso; apply Hn; cbn; auto|].
        reflexivity.
      * intros He Hc. rewrite Hrun1, He. cbn [Ascii.eqb Bool.eqb orb].
        cbv beta iota. unfold bind at 1. rewrite Hnext, Hc. reflexivity.
      * intros He Hn. rewrite Hrun1, He. cbn [Ascii.eqb Bool.eqb orb].
        cbv beta iota. unfold bind at 1. rewrite Hnext.
        destruct (c =? "=")%char eqn:E1;
          [apply Ascii.eqb_eq in E1; exfalso; apply Hn; cbn; auto|].
        destruct (c =? "<")%char eqn:E2;
          [apply Ascii.eqb_eq in E2; exfalso; apply Hn; cbn; auto|].
        reflexivity.
Qed.

(** An instance: the lookbehind of the pattern (?<=a). *)
Lemma process_extension_classifies_witness :
  process_extension blank (chars "(?<=a)") (mkPos 1 [])
  = Ok (set_type blank IGNORED_EXT,
        mkPos (1 + 2) ([] ++ [warn_extension_lt "="%char])).
Proof.
  destruct (process_extension_classifies blank (chars "(?<=a)") 1 []
              ltac:(vm_compute; split; [discriminate|reflexivity])
              ltac:(vm_compute; reflexivity)) as [_ H].
  destruct (H ltac:(vm_compute; reflexivity)) as [_ [_ [_ [_ H2]]]].
  destruct (H2 ltac:(vm_compute; reflexivity)) as [H3 _].
  exact (H3 eq_refl (or_introl eq_refl)).
Defined.

(** A run of characters other than > followed by >, skipped from its first
    character on. *)
Lemma skip_to_gt_run (suf : list ascii) :
  forall (name pre : list ascii) (fuel : nat) (ws : list string),
    Forall (fun c => c <> ">"%char) name ->
    slen (pre ++ name ++ ">"%char :: suf) <= 4294967296 ->
    (List.length name < fuel)%nat ->
    skip_to_gt fuel (pre ++ name ++ ">"%char :: suf) (hd ">"%char name)
      (mkPos (slen pre) ws)
    = Ok (tt, mkPos (slen pre + slen name) ws).
Proof.
  induction name as [|c name IH]; intros pre fuel ws Hname Hlen Hfuel;
    (destruct fuel as [|fuel]; [cbn in Hfuel; lia|]).
  - cbn [skip_to_gt hd]. change ((">" =? ">")%char) with true.
    cbn [negb]. unfold ret. slen_norm. rewrite Z.add_0_r. reflexivity.
  - inversion Hname as [|? ? Hc Hname']; subst.
    cbn [skip_to_gt hd]. apply Ascii.eqb_neq in Hc. rewrite Hc.
    cbn [negb]. unfold bind at 1.
    pose proof (slen_nonneg pre). pose proof (slen_nonneg name).
    pose proof (slen_nonneg suf). slen_norm_in Hlen.
    rewrite get_next_char_ok; [|lia|slen_norm; lia|slen_norm; lia].
    replace (pre ++ (c :: name) ++ ">"%char :: suf)
      with ((pre ++ [c]) ++ name ++ ">"%char :: suf)
      by (rewrite <- app_assoc; reflexivity).
    replace (slen pre + 1) with (slen (pre ++ [c])) by (slen_norm; lia).
    assert (Hh : char_at ((pre ++ [c]) ++ name ++ ">"%char :: suf)
                   (slen (pre ++ [c])) = hd ">"%char name).
    { destruct name; apply char_at_app. }
    rewrite Hh. rewrite IH; [|exact Hname'|slen_norm; lia|cbn in Hfuel; lia].
    slen_norm. f_equal. f_equal. f_equal. lia.
Qed.

(** A run of characters other than > that reaches the end of the input. *)
Lemma skip_to_gt_cut_short :
  forall (name : list ascii) (c : ascii) (pre : list ascii) (fuel : nat)
         (ws : list string),
    Forall (fun c => c <> ">"%char) (c :: name) ->
    slen (pre ++ c :: name) < 4294967296 ->
    (List.length name < fuel)%nat ->
    skip_to_gt fuel (pre ++ c :: name) c (mkPos (slen pre) ws)
    = Throw msg_premature.
Proof.
  induction name as [|c' name IH]; intros c pre fuel ws Hname Hlen Hfuel;
    (destruct fuel as [|fuel]; [cbn in Hfuel; lia|]);
    inversion Hname as [|? ? Hc Hname']; subst;
    cbn [skip_to_gt]; apply Ascii.eqb_neq in Hc; rewrite Hc; cbn [negb];
    unfold bind at 1; pose proof (slen_nonneg pre) as Hp.
  - rewrite get_next_char_end; [reflexivity|lia| |exact Hlen].
    slen_norm. lia.
  - pose proof (slen_nonneg name). slen_norm_in Hlen.
    rewrite get_next_char_ok; [|lia|slen_norm; lia|slen_norm; lia].
    replace (pre ++ c :: c' :: name) with ((pre ++ [c]) ++ c' :: name)
      by (rewrite <- app_assoc; reflexivity).
    replace (slen pre + 1) with (slen (pre ++ [c])) by (slen_norm; lia).
    rewrite char_at_app. apply IH.
    + exact Hname'.
    + slen_norm. lia.
    + cbn in Hfuel. lia.
Qed.

(** X5.
    A named group (?P<name> is accepted whatever its name, the empty name
    included: [process_extension], entered on the question mark, scans to
    the first > (in a pattern of at most 2^32 characters), returns
    NamedGroupExt, leaves the scan index on that > and adds no warning.
    When no > follows, the scan runs into the end of the input and raises
    the premature-end error. *)
Theorem process_extension_named_group (indeterminate : Token)
  (pre name suf : list ascii) (ws : list string) :
  Forall (fun c => c <> ">"%char) name ->
  (slen (pre ++ chars "?P<" ++ name ++ ">"%char :: suf) <= 4294967296 ->
   process_extension indeterminate
     (pre ++ chars "?P<" ++ name ++ ">"%char :: suf) (mkPos (slen pre) ws)
   = Ok (set_type indeterminate NAMED_GROUP_EXT,
         mkPos (slen pre + 3 + slen name) ws))
  /\ (slen (pre ++ chars "?P<" ++ name) < 4294967296 ->
      process_extension indeterminate (pre ++ chars "?P<" ++ name)
        (mkPos (slen pre) ws)
      = Throw msg_premature).
Proof.
  intros Hname. pose proof (slen_nonneg pre) as Hp.
  pose proof (slen_nonneg name) as Hn. split; intros Hlen.
  - pose proof (slen_nonneg suf) as Hs.
    set (inp := pre ++ chars "?P<" ++ name ++ ">"%char :: suf) in *.
    assert (Hl : slen inp = slen pre + 3 + slen name + 1 + slen suf).
    { unfold inp, chars. cbn [list_ascii_of_string app]. slen_norm. lia. }
    assert (H1 : char_at inp (slen pre + 1) = "P"%char).
    { unfold inp, chars. cbn [list_ascii_of_string app].
      replace (slen pre + 1) with (slen (pre ++ ["?"%char]))
        by (slen_norm; lia).
      change (pre ++ "?"%char :: "P"%char :: "<"%char :: name
                  ++ ">"%char :: suf)
        with (pre ++ ["?"%char] ++ "P"%char :: "<"%char :: name
                  ++ ">"%char :: suf).
      rewrite app_assoc. apply char_at_app. }
    assert (H2 : char_at inp (slen pre + 1 + 1) = "<"%char).
    { unfold inp, chars. cbn [list_ascii_of_string app].
      replace (slen pre + 1 + 1) with (slen (pre ++ ["?"%char; "P"%char]))
        by (slen_norm; lia).
      change (pre ++ "?"%char :: "P"%char :: "<"%char :: name
                  ++ ">"%char :: suf)
        with (pre ++ ["?"%char; "P"%char] ++ "<"%char :: name
                  ++ ">"%char :: suf).
      rewrite app_assoc. apply char_at_app. }
    unfold process_extension. cbv zeta. unfold bind at 1.
    rewrite get_next_char_ok by lia. rewrite H1.
    cbn [Ascii.eqb Bool.eqb]. cbv beta iota. unfold bind at 1.
    rewrite get_next_char_ok by lia. rewrite H2.
    cbn [Ascii.eqb Bool.eqb negb]. cbv beta iota. unfold bind at 1.
    pose proof (skip_to_gt_run suf ("<"%char :: name)
                  (pre ++ ["?"%char; "P"%char]) (fuel_of inp) ws) as Hrun.
    replace ((pre ++ ["?"%char; "P"%char]) ++ ("<"%char :: name)
             ++ ">"%char :: suf) with inp in Hrun
      by (unfold inp, chars; cbn [list_ascii_of_string app];
          rewrite <- app_assoc; reflexivity).
    replace (slen (pre ++ ["?"%char; "P"%char])) with (slen pre + 1 + 1)
      in Hrun by (slen_norm; lia).
    cbn [hd] in Hrun. rewrite Hrun.
    + unfold ret. slen_norm. f_equal. f_equal. f_equal. lia.
    + constructor; [discriminate|exact Hname].
    + exact Hlen.
    + unfold fuel_of, inp, chars. cbn [list_ascii_of_string app].
      rewrite length_app. cbn [List.length]. rewrite length_app.
      cbn [List.length]. lia.
  - set (inp := pre ++ chars "?P<" ++ name) in *.
    assert (Hl : slen inp = slen pre + 3 + slen name).
    { unfold inp, chars. cbn [list_ascii_of_string app]. slen_norm. lia. }
    assert (H1 : char_at inp (slen pre + 1) = "P"%char).
    { unfold inp, chars. cbn [list_ascii_of_string app].
      replace (slen pre + 1) with (slen (pre ++ ["?"%char]))
        by (slen_norm; lia).
      change (pre ++ "?"%char :: "P"%char :: "<"%char :: name)
        with (pre ++ ["?"%char] ++ "P"%char :: "<"%char :: name).
      rewrite app_assoc. apply char_at_app. }
    assert (H2 : char_at inp (slen pre + 1 + 1) = "<"%char).
    { unfold inp, chars. cbn [list_ascii_of_string app].
      replace (slen pre + 1 + 1) with (slen (pre ++ ["?"%char; "P"%char]))
        by (slen_norm; lia).
      change (pre ++ "?"%char :: "P"%char :: "<"%char :: name)
        with (pre ++ ["?"%char; "P"%char] ++ "<"%char :: name).
      rewrite app_assoc. apply char_at_app. }
    unfold process_extension. cbv zeta. unfold bind at 1.
    rewrite get_next_char_ok by lia. rewrite H1.
    cbn [Ascii.eqb Bool.eqb]. cbv beta iota. unfold bind at 1.
    rewrite get_next_char_ok by lia. rewrite H2.
    cbn [Ascii.eqb Bool.eqb negb]. cbv beta iota. unfold bind at 1.
    pose proof (skip_to_gt_cut_short name "<"%char
                  (pre ++ ["?"%char; "P"%char]) (fuel_of inp) ws) as Hrun.
    replace ((pre ++ ["?"%char; "P"%char]) ++ "<"%char :: name) with inp
      in Hrun
      by (unfold inp, chars; cbn [list_ascii_of_string app];
          rewrite <- app_assoc; reflexivity).
    replace (slen (pre ++ ["?"%char; "P"%char])) with (slen pre + 1 + 1)
      in Hrun by (slen_norm; lia).
    rewrite Hrun.
    + reflexivity.
    + constructor; [discriminate|exact Hname].
    + exact Hlen.
    + unfold fuel_of, inp, chars. cbn [list_ascii_of_string app].
      rewrite length_app. cbn [List.length]. lia.
Qed.

(** An instance: the group of the pattern (?P<id>a). *)
Lemma process_extension_named_group_witness :
  process_extension blank (chars "(?P<id>a)") (mkPos 1 [])
  = Ok (set_type blank NAMED_GROUP_EXT, mkPos 6 []).
Proof.
  apply (proj1 (process_extension_named_group blank (chars "(") (chars "id")
                  (chars "a)") []
                  ltac:(repeat constructor; discriminate))).
  vm_compute; discriminate.
Defined.

(** ** The forms of the repeat quantifier *)

Lemma process_repeat_unfold (indeterminate : Token) (inp : list ascii) :
  process_repeat indeterminate inp
  = bind get_idx (fun current_idx =>
    bind (get_next_char inp) (fun c =>
    bind (read_digits (fuel_of inp) inp [] c) (fun x =>
    match x with
    | (count_str, c) => repeat_tail indeterminate inp current_idx count_str c
    end))).
Proof. reflexivity. Qed.

(** [process_repeat] up to the character that stops the first run of
    digits. *)
Lemma process_repeat_first (indeterminate : Token)
  (pre ds suf : list ascii) (stop : ascii) (ws : list string) :
  Forall (fun c => isdigit c = true) ds ->
  isdigit stop = false ->
  let inp := pre ++ "{"%char :: ds ++ stop :: suf in
  slen inp <= 4294967296 ->
  process_repeat indeterminate inp (mkPos (slen pre) ws)
  = repeat_tail indeterminate inp (slen pre) ds stop
      (mkPos (slen pre + 1 + slen ds) ws).
Proof.
  intros Hds Hstop inp Hlen.
  assert (Hl : slen inp = slen pre + 1 + slen ds + 1 + slen suf).
  { unfold inp. slen_norm. lia. }
  pose proof (slen_nonneg pre). pose proof (slen_nonneg ds).
  pose proof (slen_nonneg suf).
  assert (Hinp : inp = (pre ++ ["{"%char]) ++ [] ++ ds ++ stop :: suf).
  { unfold inp. rewrite <- app_assoc. reflexivity. }
  rewrite process_repeat_unfold. unfold bind at 1, get_idx at 1.
  cbn [idx]. unfold bind at 1. rewrite get_next_char_ok by lia.
  assert (Hc : char_at inp (slen pre + 1) = hd stop ds).
  { rewrite Hinp. cbn [app].
    replace (slen pre + 1) with (slen (pre ++ ["{"%char]))
      by (slen_norm; lia).
    destruct ds; apply char_at_app. }
  rewrite Hc. unfold bind at 1.
  pose proof (read_digits_run (pre ++ ["{"%char]) stop suf Hstop ds [] []
                (fuel_of inp) ws Hds) as Hrd.
  cbn zeta in Hrd. rewrite <- Hinp in Hrd. rewrite app_nil_r in Hrd.
  replace (slen (pre ++ ["{"%char])) with (slen pre + 1) in Hrd
    by (slen_norm; lia).
  rewrite Hrd; [reflexivity|exact Hlen|].
  unfold fuel_of, inp. rewrite length_app. cbn [List.length].
  rewrite length_app. lia.
Qed.

Ltac simpl_token_goal :=
  cbv beta iota zeta delta
    [set_repeat_upper set_repeat_lower set_character set_type
     repeat_lower repeat_upper type character].

(** X6.
    The exact quantifier {n} outside a bracket set (in a pattern of at
    most 2^32 characters), n a run of one or more decimal digits: for a
    value between 1 and 2147483647 [process_repeat] returns a Repeat token
    whose two bounds are n and leaves the scan index on the closing brace;
    for the value 0 it raises the pointless-quantifier error. *)
Theorem process_repeat_exact (indeterminate : Token)
  (pre ds suf : list ascii) (ws : list string) :
  let inp := pre ++ "{"%char :: ds ++ "}"%char :: suf in
  slen inp <= 4294967296 ->
  ds <> [] ->
  Forall (fun c => isdigit c = true) ds ->
  (1 <= digits_value ds <= INT_MAX ->
   process_repeat indeterminate inp (mkPos (slen pre) ws)
   = Ok (mkToken REPEAT (digits_value ds) (digits_value ds) "{"%char,
         mkPos (slen pre + 1 + slen ds) ws))
  /\ (digits_value ds = 0 ->
      process_repeat indeterminate inp (mkPos (slen pre) ws)
      = Throw msg_pointless_0).
Proof.
  intros inp Hlen Hne Hds.
  pose proof (process_repeat_first indeterminate pre ds suf "}"%char ws
                Hds eq_refl Hlen) as Hrun.
  fold inp in Hrun. rewrite Hrun. unfold repeat_tail.
  change (("}" =? ",")%char) with false.
  change (("}" =? "}")%char) with true. cbv beta iota.
  destruct ds as [|d ds']; [congruence|]. cbn [is_empty].
  simpl_token_goal. unfold extract_int, INT_MAX.
  split; intros Hv.
  - rewrite Z.min_l by (unfold INT_MAX in Hv; lia).
    destruct (digits_value (d :: ds') =? 0) eqn:E; [lia|]. reflexivity.
  - rewrite Hv. reflexivity.
Qed.

(** An instance: the quantifier of the pattern a{12}b. *)
Lemma process_repeat_exact_witness :
  process_repeat blank (chars "a{12}b") (mkPos 1 [])
  = Ok (mkToken REPEAT 12 12 "{"%char, mkPos 4 []).
Proof.
  refine (proj1 (process_repeat_exact blank (chars "a") (chars "12")
                   (chars "b") [] _ _ _) _).
  - vm_compute; discriminate.
  - discriminate.
  - repeat constructor.
  - vm_compute; split; discriminate.
Defined.

(** X7.
    The quantifiers {n,} and {n,m} outside a bracket set (in a pattern of
    at most 2^32 characters), n a run of one or more decimal digits and m
    a run of decimal digits, both of value at most 2147483647.  Without m,
    [process_repeat] returns a Repeat token with lower bound n and upper
    bound -1; this holds for n = 0 as well.  With m: when n > m it raises
    the error that names both bounds; when n <= m and m is 0 it raises the
    pointless-quantifier error; otherwise it returns a Repeat token with
    the bounds n and m.  The scan index is left on the closing brace. *)
Theorem process_repeat_bounds (indeterminate : Token)
  (pre ds ds' suf : list ascii) (ws : list string) :
  let inp := pre ++ "{"%char :: ds ++ ","%char :: ds' ++ "}"%char :: suf in
  let n := digits_value ds in
  let m := digits_value ds' in
  let run := process_repeat indeterminate inp (mkPos (slen pre) ws) in
  let s' := mkPos (slen pre + 2 + slen ds + slen ds') ws in
  slen inp <= 4294967296 ->
  ds <> [] ->
  Forall (fun c => isdigit c = true) ds ->
  Forall (fun c => isdigit c = true) ds' ->
  n <= INT_MAX -> m <= INT_MAX ->
  (ds' = [] -> run = Ok (mkToken REPEAT n (-1) "{"%char, s'))
  /\ (ds' <> [] ->
      (n > m -> run = Throw (msg_repeat_bounds n m))
      /\ (n <= m -> m = 0 -> run = Throw msg_pointless_00)
      /\ (n <= m -> 1 <= m -> run = Ok (mkToken REPEAT n m "{"%char, s'))).
Proof.
  intros inp n m run s' Hlen Hne Hds Hds' Hn Hm.
  pose proof (digits_value_nonneg ds Hds) as Hn0. fold n in Hn0.
  pose proof (digits_value_nonneg ds' Hds') as Hm0. fold m in Hm0.
  pose proof (slen_nonneg pre). pose proof (slen_nonneg ds).
  pose proof (slen_nonneg ds'). pose proof (slen_nonneg suf).
  assert (Hl : slen inp
               = slen pre + 1 + slen ds + 1 + slen ds' + 1 + slen suf).
  { unfold inp. slen_norm. lia. }
  pose proof (process_repeat_first indeterminate pre ds
                (ds' ++ "}"%char :: suf) ","%char ws Hds eq_refl Hlen)
    as Hrun.
  fold inp in Hrun. fold run in Hrun.
  assert (Hinp : inp = (pre ++ "{"%char :: ds ++ [","%char]) ++ [] ++ ds'
                       ++ "}"%char :: suf).
  { unfold inp. rewrite <- app_assoc. cbn [app]. rewrite <- app_assoc.
    reflexivity. }
  assert (Hl2 : slen (pre ++ "{"%char :: ds ++ [","%char])
                = slen pre + 1 + slen ds + 1).
  { slen_norm. lia. }
  assert (Hc : char_at inp (slen pre + 1 + slen ds + 1) = hd "}"%char ds').
  { rewrite <- Hl2, Hinp. cbn [app]. destruct ds'; apply char_at_app. }
  pose proof (read_digits_run (pre ++ "{"%char :: ds ++ [","%char])
                "}"%char suf eq_refl ds' [] [] (fuel_of inp) ws Hds') as Hrd.
  cbn zeta in Hrd. rewrite <- Hinp in Hrd. rewrite app_nil_r in Hrd.
  rewrite Hl2 in Hrd. cbn [app] in Hrd.
  assert (Htail : run
            = let lower := extract_int ds in
              let token0 := set_repeat_lower
                  (set_character (set_type indeterminate CHARACTER) "{")
                  lower in
              let token :=
                if is_empty ds' then set_repeat_upper token0 (-1)
                else set_repeat_upper token0 (extract_int ds') in
              (if (repeat_lower token =? -1) && (repeat_upper token =? -1)
               then bind (set_idx (slen pre)) (fun _ => ret token)
               else
                 let token :=
                   if repeat_lower token =? -1 then set_repeat_lower token 0
                   else token in
                 if repeat_upper token =? -1 then ret (set_type token REPEAT)
                 else if repeat_lower token >? repeat_upper token then
                   throw (msg_repeat_bounds (repeat_lower token)
                            (repeat_upper token))
                 else if repeat_upper token =? 0 then throw msg_pointless_00
                 else ret (set_type token REPEAT))
                (mkPos (slen pre + 1 + slen ds + 1 + slen ds') ws)).
  { rewrite Hrun. unfold repeat_tail.
    change ((","%char =? ","%char)%char) with true. cbv beta iota zeta.
    destruct ds as [|d ds0]; [congruence|]. cbn [is_empty].
    unfold bind at 1. rewrite get_next_char_ok by lia. rewrite Hc.
    unfold bind at 1. rewrite Hrd; [|exact Hlen|].
    2:{ unfold fuel_of, inp.
        repeat first [rewrite length_app | progress cbn [List.length]].
        lia. }
    change (("}"%char =? "}"%char)%char) with true. reflexivity. }
  assert (Hlo : extract_int ds = n).
  { unfold extract_int. fold n. lia. }
  assert (Hup : extract_int ds' = m).
  { unfold extract_int. fold m. lia. }
  assert (Hs' : mkPos (slen pre + 1 + slen ds + 1 + slen ds') ws = s').
  { unfold s'. f_equal. lia. }
  rewrite Hlo, Hup, Hs' in Htail. cbv zeta in Htail.
  split.
  - intros ->. rewrite Htail. cbn [is_empty]. simpl_token_goal.
    change (-1 =? -1) with true. rewrite andb_true_r.
    destruct (n =? -1) eqn:E; [lia|]. reflexivity.
  - intros Hne'. destruct ds' as [|d' ds0']; [congruence|].
    cbn [is_empty] in Htail. revert Htail. simpl_token_goal.
    destruct (n =? -1) eqn:E1; [lia|]. cbn [andb].
    destruct (m =? -1) eqn:E2; [lia|].
    intros Htail. split; [|split].
    + intros Hgt. rewrite Htail.
      destruct (n >? m) eqn:E3; [reflexivity|lia].
    + intros Hle Hz. rewrite Htail.
      destruct (n >? m) eqn:E3; [lia|].
      destruct (m =? 0) eqn:E4; [reflexivity|lia].
    + intros Hle Hpos. rewrite Htail.
      destruct (n >? m) eqn:E3; [lia|].
      destruct (m =? 0) eqn:E4; [lia|reflexivity].
Qed.

(** An instance: the quantifier of the pattern a{2,15}b. *)
Lemma process_repeat_bounds_witness :
  process_repeat blank (chars "a{2,15}b") (mkPos 1 [])
  = Ok (mkToken REPEAT 2 15 "{"%char, mkPos 6 []).
Proof.
  refine (proj2 (proj2 (proj2 (process_repeat_bounds blank (chars "a")
            (chars "2") (chars "15") (chars "b") [] _ _ _ _ _ _) _)) _ _).
  - vm_compute; discriminate.
  - discriminate.
  - repeat constructor.
  - repeat constructor.
  - vm_compute; discriminate.
  - vm_compute; discriminate.
  - discriminate.
  - vm_compute; discriminate.
  - vm_compute; discriminate.
Defined.

Lemma read_digits_inv (inp : list ascii) :
  slen inp < 4294967296 ->
  forall (fuel : nat) (acc : list ascii) (c : ascii) (s : position)
         (cs : list ascii) (c' : ascii) (s' : position),
    0 <= idx s < slen inp -> c = char_at inp (idx s) ->
    read_digits fuel inp acc c s = Ok ((cs, c'), s') ->
    idx s <= idx s' < slen inp /\ warnings s' = warnings s
    /\ c' = char_at inp (idx s') /\ isdigit c' = false.
Proof.
  intros Hlen fuel.
  induction fuel as [|fuel IH]; intros acc c s cs c' s' Hi Hc H;
    [discriminate H|].
  cbn [read_digits] in H. destruct (isdigit c) eqn:Ed.
  - unfold bind in H.
    destruct (get_next_char inp s) as [[c1 s1]| |] eqn:G; try discriminate H.
    apply get_next_char_inv in G. destruct G as [G1 [G2 [G3 G4]]].
    rewrite uint_small in G1 by lia.
    apply IH in H; [|lia|exact G4].
    destruct H as [H1 [H2 [H3 H4]]]. repeat split; try assumption; try lia.
    congruence.
  - unfold ret in H. inversion H; subst. repeat split; try lia.
    exact Ed.
Qed.

(** X8.
    What [process_repeat] returns, on every input shorter than 2^32
    characters and from every index inside it: either the parse is rolled
    back, the token is the literal Character of the opening brace and the
    scan index is where it was on entry; or the token is a Repeat token,
    the scan index has moved forward and stands on a closing brace.  In
    both cases no warning is added. *)
Theorem process_repeat_shape (indeterminate : Token) (inp : list ascii)
  (s s' : position) (t : Token) :
  slen inp < 4294967296 -> 0 <= idx s < slen inp ->
  process_repeat indeterminate inp s = Ok (t, s') ->
  character t = "{"%char /\ warnings s' = warnings s
  /\ ((type t = CHARACTER /\ idx s' = idx s)
      \/ (type t = REPEAT /\ idx s < idx s'
          /\ char_at inp (idx s') = "}"%char)).
Proof.
  intros Hlen Hi H. rewrite process_repeat_unfold in H.
  unfold bind at 1, get_idx at 1 in H. unfold bind at 1 in H.
  destruct (get_next_char inp s) as [[c1 s1]| |] eqn:G1; try discriminate H.
  apply get_next_char_inv in G1. destruct G1 as [G1 [G1b [G1w G1c]]].
  rewrite uint_small in G1 by lia.
  unfold bind at 1 in H.
  destruct (read_digits (fuel_of inp) inp [] c1 s1)
    as [[[cs1 c2] s2]| |] eqn:R1; try discriminate H.
  apply read_digits_inv in R1; [|exact Hlen|lia|exact G1c].
  destruct R1 as [R1i [R1w [R1c R1d]]].
  unfold repeat_tail in H. cbv zeta in H.
  destruct (c2 =? ",")%char eqn:Ecomma.
  - unfold bind at 1 in H.
    destruct (get_next_char inp s2) as [[c3 s3]| |] eqn:G2;
      try discriminate H.
    apply get_next_char_inv in G2. destruct G2 as [G2 [G2b [G2w G2c]]].
    rewrite uint_small in G2 by lia.
    unfold bind at 1 in H.
    destruct (read_digits (fuel_of inp) inp [] c3 s3)
      as [[[cs2 c4] s4]| |] eqn:R2; try discriminate H.
    apply read_digits_inv in R2; [|exact Hlen|lia|exact G2c].
    destruct R2 as [R2i [R2w [R2c R2d]]].
    destruct (c4 =? "}")%char eqn:Ebrace.
    + apply Ascii.eqb_eq in Ebrace.
      unfold bind, set_idx, ret, throw in H.
      destruct (is_empty cs1), (is_empty cs2);
        run_token H; inversion H; subst; cbn [character type idx warnings
          set_repeat_upper set_repeat_lower set_character set_type];
        (split; [reflexivity|]); (split; [congruence|]);
        first [ left; split; [reflexivity|reflexivity]
              | right; split; [reflexivity|]; split; [lia|congruence] ].
    + unfold bind, set_idx, ret in H.
      destruct (is_empty cs1); inversion H; subst;
        cbn [character type idx warnings
             set_repeat_upper set_repeat_lower set_character set_type];
        (split; [reflexivity|]); (split; [congruence|]);
        left; split; reflexivity.
  - destruct (c2 =? "}")%char eqn:Ebrace.
    + apply Ascii.eqb_eq in Ebrace.
      unfold bind, set_idx, ret, throw in H.
      destruct (is_empty cs1);
        run_token H; inversion H; subst; cbn [character type idx warnings
          set_repeat_upper set_repeat_lower set_character set_type];
        (split; [reflexivity|]); (split; [congruence|]);
        first [ left; split; [reflexivity|reflexivity]
              | right; split; [reflexivity|]; split; [lia|congruence] ].
    + unfold bind, set_idx, ret in H. inversion H; subst.
      cbn [character type idx warnings
           set_repeat_upper set_repeat_lower set_character set_type].
      split; [reflexivity|]. split; [congruence|]. left.
      split; reflexivity.
Qed.

(** An instance: the rollback on the quantifier of the pattern a{2;3}. *)
Lemma process_repeat_shape_witness :
  character (literal blank "{"%char) = "{"%char
  /\ warnings (mkPos 1 []) = warnings (mkPos 1 [])
  /\ ((type (literal blank "{"%char) = CHARACTER
       /\ idx (mkPos 1 []) = idx (mkPos 1 []))
      \/ (type (literal blank "{"%char) = REPEAT
          /\ idx (mkPos 1 []) < idx (mkPos 1 [])
          /\ char_at (chars "a{2;3}") (idx (mkPos 1 [])) = "}"%char)).
Proof.
  apply (process_repeat_shape blank (chars "a{2;3}") (mkPos 1 []) (mkPos 1 [])
           (literal blank "{"%char)).
  - vm_compute; reflexivity.
  - vm_compute; split; [discriminate|reflexivity].
  - vm_compute; reflexivity.
Defined.

(** ** The cursor inside the stream *)

Lemma token_at_some (sc : Scanner) (i : Z) (t : Token) (log : list Z) :
  0 <= i -> nth_error (tokens sc) (Z.to_nat i) = Some t ->
  token_at i sc log = (Value t, log ++ [i]).
Proof.
  intros Hi H. unfold token_at.
  assert (Hlt : (Z.to_nat i < List.length (tokens sc))%nat).
  { apply nth_error_Some. congruence. }
  destruct (Z.ltb_spec i (Z.of_nat (List.length (tokens sc)))); [|lia].
  rewrite H. reflexivity.
Qed.

Lemma nth_error_in_range (sc : Scanner) (i : Z) (t : Token) :
  0 <= i -> nth_error (tokens sc) (Z.to_nat i) = Some t ->
  i < Z.of_nat (List.length (tokens sc)).
Proof.
  intros Hi H.
  assert (Hlt : (Z.to_nat i < List.length (tokens sc))%nat).
  { apply nth_error_Some. congruence. }
  lia.
Qed.

Lemma TokenType_eqb_eq (a b : TokenType) :
  TokenType_eqb a b = true <-> a = b.
Proof. destruct a, b; cbn; split; intros H; congruence. Qed.

Lemma get_type_on_token (sc : Scanner) (t : Token) :
  0 <= index sc ->
  nth_error (tokens sc) (Z.to_nat (index sc)) = Some t ->
  run get_type sc = (Value (type t), [index sc]).
Proof.
  intros Hi Ht. pose proof (nth_error_in_range sc _ t Hi Ht) as Hlt.
  unfold run, get_type, bindR, get_index, size, retR.
  destruct (Z.ltb_spec (index sc) (Z.of_nat (List.length (tokens sc))));
    [|lia].
  rewrite (token_at_some sc _ t [] Hi Ht). reflexivity.
Qed.

Lemma get_type_at_end (sc : Scanner) :
  Z.of_nat (List.length (tokens sc)) <= index sc ->
  run get_type sc = (Value ERR, []).
Proof.
  intros Hge. unfold run, get_type, bindR, get_index, size, retR.
  destruct (Z.ltb_spec (index sc) (Z.of_nat (List.length (tokens sc))));
    [lia|reflexivity].
Qed.

(** X9.
    [get_type] and [get_type_str] never read outside the stream: on a
    token they read that token and return its kind and the name of its
    kind; at or past the end they read nothing and return the kind ERR and
    its name. *)
Theorem get_type_never_faults (sc : Scanner) :
  0 <= index sc ->
  (forall t, nth_error (tokens sc) (Z.to_nat (index sc)) = Some t ->
     run get_type sc = (Value (type t), [index sc])
     /\ run get_type_str sc
        = (Value (token_type_to_str (type t)), [index sc]))
  /\ (Z.of_nat (List.length (tokens sc)) <= index sc ->
      run get_type sc = (Value ERR, [])
      /\ run get_type_str sc
         = (Value "<ERROR> (or end of regex)"%string, [])).
Proof.
  intros Hi. split.
  - intros t Ht. pose proof (get_type_on_token sc t Hi Ht) as Hg.
    split; [exact Hg|].
    unfold run, get_type_str, bindR in *. rewrite Hg. reflexivity.
  - intros Hge. pose proof (get_type_at_end sc Hge) as Hg.
    split; [exact Hg|].
    unfold run, get_type_str, bindR in *. rewrite Hg. reflexivity.
Qed.

(** An instance: the cursor at the end of the stream of one token. *)
Lemma get_type_never_faults_witness :
  run get_type (mkScanner [literal blank "a"%char] 1 []) = (Value ERR, [])
  /\ run get_type_str (mkScanner [literal blank "a"%char] 1 [])
     = (Value "<ERROR> (or end of regex)"%string, []).
Proof.
  apply (proj2 (get_type_never_faults
                  (mkScanner [literal blank "a"%char] 1 [])
                  ltac:(cbn; lia))).
  cbn; lia.
Defined.

(** X10.
    The accessors [get_repeat_lower], [get_repeat_upper] and
    [get_character] never read outside the stream and never return a field
    of a token of another kind: on a token of the kind they are for, they
    return its field; on any other token, and at or past the end of the
    stream, their assertion fails. *)
Theorem accessors_guarded (sc : Scanner) :
  0 <= index sc ->
  (forall t, nth_error (tokens sc) (Z.to_nat (index sc)) = Some t ->
     (type t = REPEAT ->
      run get_repeat_lower sc
      = (Value (repeat_lower t), [index sc; index sc])
      /\ run get_repeat_upper sc
         = (Value (repeat_upper t), [index sc; index sc]))
     /\ (type t <> REPEAT ->
         run get_repeat_lower sc = (Abort, [index sc])
         /\ run get_repeat_upper sc = (Abort, [index sc]))
     /\ (type t = CHARACTER \/ type t = CHAR_CLASS ->
         run get_character sc = (Value (character t), [index sc; index sc]))
     /\ (type t <> CHARACTER -> type t <> CHAR_CLASS ->
         run get_character sc = (Abort, [index sc])))
  /\ (Z.of_nat (List.length (tokens sc)) <= index sc ->
      run get_repeat_lower sc = (Abort, [])
      /\ run get_repeat_upper sc = (Abort, [])
      /\ run get_character sc = (Abort, [])).
Proof.
  intros Hi. split.
  - intros t Ht.
    pose proof (get_type_on_token sc t Hi Ht) as Hg.
    unfold run in Hg.
    assert (Hacc : forall (A : Type) (ok : TokenType -> bool)
                          (f : Token -> A),
              bindR get_type (fun ty =>
                bindR (assertR (ok ty)) (fun _ =>
                  bindR get_index (fun index =>
                    bindR (token_at index) (fun t => retR (f t))))) sc []
              = if ok (type t) then (Value (f t), [index sc; index sc])
                else (Abort, [index sc])).
    { intros A ok f. unfold bindR at 1. rewrite Hg.
      unfold bindR, assertR, get_index, retR.
      destruct (ok (type t)); [|reflexivity].
      rewrite (token_at_some sc _ t _ Hi Ht). reflexivity. }
    unfold run, get_repeat_lower, get_repeat_upper, get_character.
    rewrite !Hacc. split; [|split; [|split]].
    + intros H. rewrite H. split; reflexivity.
    + intros H.
      destruct (TokenType_eqb (type t) REPEAT) eqn:E;
        [apply TokenType_eqb_eq in E; contradiction|].
      split; reflexivity.
    + intros [H|H]; rewrite H; reflexivity.
    + intros H1 H2.
      destruct (TokenType_eqb (type t) CHARACTER) eqn:E1;
        [apply TokenType_eqb_eq in E1; contradiction|].
      destruct (TokenType_eqb (type t) CHAR_CLASS) eqn:E2;
        [apply TokenType_eqb_eq in E2; contradiction|].
      reflexivity.
  - intros Hge.
    pose proof (get_type_at_end sc Hge) as Hg.
    unfold run in Hg.
    unfold run, get_repeat_lower, get_repeat_upper, get_character.
    unfold bindR at 1 5 9. rewrite !Hg. repeat split; reflexivity.
Qed.

(** An instance: the accessors on the Character token of the pattern a. *)
Lemma accessors_guarded_witness :
  run get_repeat_lower (mkScanner [literal blank "a"%char] 0 [])
  = (Abort, [0])
  /\ run get_repeat_upper (mkScanner [literal blank "a"%char] 0 [])
     = (Abort, [0]).
Proof.
  apply (proj1 (proj2 (proj1 (accessors_guarded
                  (mkScanner [literal blank "a"%char] 0 [])
                  ltac:(cbn; lia)) (literal blank "a"%char) eq_refl))).
  discriminate.
Defined.

Lemma concat_table (p n : TokenType) :
  existsb (TokenType_eqb p)
    [STAR; PLUS; QUESTION; REPEAT; RIGHT_PAREN; CHARACTER; CARET;
     DOLLAR; WORD_BOUNDARY; CHAR_CLASS; RIGHT_BRACKET]
  && negb (existsb (TokenType_eqb n)
             [ALTERNATION; STAR; PLUS; QUESTION; REPEAT; RIGHT_PAREN;
              RIGHT_BRACKET])
  = ends_operand p && starts_operand n.
Proof. destruct p, n; reflexivity. Qed.

(** X11.
    With the cursor on a token that is not the first of the stream,
    [is_concat] reads the token before the cursor and the token at the
    cursor, both inside the stream, and nothing else.  It answers true
    exactly when the token before is not an Alternation, an opening
    parenthesis or bracket, a Hyphen or an extension marker, and the token
    at the cursor is not an Alternation, a Star, Plus, Question or Repeat,
    nor a closing parenthesis or bracket. *)
Theorem is_concat_in_range (sc : Scanner) (prev cur : Token) :
  1 <= index sc < 4294967296 ->
  nth_error (tokens sc) (Z.to_nat (index sc - 1)) = Some prev ->
  nth_error (tokens sc) (Z.to_nat (index sc)) = Some cur ->
  run is_concat sc
  = (Value (ends_operand (type prev) && starts_operand (type cur)),
     [index sc - 1; index sc]).
Proof.
  intros Hi Hp Hc.
  pose proof (nth_error_in_range sc (index sc) cur ltac:(lia) Hc) as Hlt.
  pose proof (get_type_on_token sc cur ltac:(lia) Hc) as Hg.
  unfold run in Hg.
  assert (Hg' : forall log, get_type sc log
                            = (Value (type cur), log ++ [index sc])).
  { intros log. unfold get_type, bindR, get_index, size, retR.
    destruct (Z.ltb_spec (index sc) (Z.of_nat (List.length (tokens sc))));
      [|lia].
    rewrite (token_at_some sc (index sc) cur log ltac:(lia) Hc).
    reflexivity. }
  unfold run, is_concat. unfold bindR at 1, get_index at 1.
  rewrite uint_small by lia. unfold bindR at 1.
  rewrite (token_at_some sc (index sc - 1) prev [] ltac:(lia) Hp).
  unfold bindR at 1. rewrite Hg'. unfold bindR, size, retR.
  destruct (Z.geb_spec (index sc) (Z.of_nat (List.length (tokens sc))));
    [lia|].
  rewrite concat_table. reflexivity.
Qed.

(** An instance: between the two Character tokens of the pattern ab. *)
Lemma is_concat_in_range_witness :
  run is_concat (mkScanner [literal blank "a"%char; literal blank "b"%char]
                   1 [])
  = (Value true, [0; 1]).
Proof.
  apply (is_concat_in_range
           (mkScanner [literal blank "a"%char; literal blank "b"%char] 1 [])
           (literal blank "a"%char) (literal blank "b"%char)).
  - cbn; lia.
  - reflexivity.
  - reflexivity.
Defined.

(** X12.
    On a stream of at least three tokens [is_char_range] never reads
    outside the stream: every element it reads is one of [tokens[index]],
    [tokens[index+1]] and [tokens[index+2]].  When fewer than three tokens
    remain at the cursor it returns false without reading.  Otherwise it
    reads [tokens[index+1]] first and returns false when that token is not
    a Hyphen; when it is, two Character endpoints give true if the first
    does not exceed the second (as signed characters), after two reads of
    each endpoint, and the error that names both otherwise, after a third
    read of each endpoint for the message; an endpoint pair made of
    Character and CharClass tokens with at least one CharClass gives the
    char-class error, and any other pair gives false. *)
Theorem is_char_range_in_range (sc : Scanner) :
  3 <= Z.of_nat (List.length (tokens sc)) ->
  Z.of_nat (List.length (tokens sc)) < 18446744073709551616 ->
  0 <= index sc -> index sc + 2 < 4294967296 ->
  (Z.of_nat (List.length (tokens sc)) - 3 < index sc ->
   run is_char_range sc = (Value false, []))
  /\ (forall t0 t1 t2,
        nth_error (tokens sc) (Z.to_nat (index sc)) = Some t0 ->
        nth_error (tokens sc) (Z.to_nat (index sc + 1)) = Some t1 ->
        nth_error (tokens sc) (Z.to_nat (index sc + 2)) = Some t2 ->
        (forall i, fst (run is_char_range sc) <> OutOfBounds i)
        /\ Forall (fun i => index sc <= i <= index sc + 2
                            /\ i < Z.of_nat (List.length (tokens sc)))
             (snd (run is_char_range sc))
        /\ (type t1 <> HYPHEN ->
            run is_char_range sc = (Value false, [index sc + 1]))
        /\ (type t1 = HYPHEN ->
            (type t0 = CHARACTER -> type t2 = CHARACTER ->
             (char_val (character t0) <= char_val (character t2) ->
              run is_char_range sc
              = (Value true,
                 [index sc + 1; index sc; index sc + 2;
                  index sc; index sc + 2]))
             /\ (char_val (character t0) > char_val (character t2) ->
                 run is_char_range sc
                 = (Raise (msg_range (character t0) (character t2)),
                    [index sc + 1; index sc; index sc + 2;
                     index sc; index sc + 2; index sc; index sc + 2])))
            /\ (In (type t0, type t2)
                  [(CHARACTER, CHAR_CLASS); (CHAR_CLASS, CHARACTER);
                   (CHAR_CLASS, CHAR_CLASS)] ->
                fst (run is_char_range sc) = Raise msg_range_char_class)
            /\ ((type t0 <> CHARACTER /\ type t0 <> CHAR_CLASS)
                \/ (type t2 <> CHARACTER /\ type t2 <> CHAR_CLASS) ->
                fst (run is_char_range sc) = Value false))).
Proof.
  intros Hn Hmax Hi Hw.
  assert (Hs : size_t (Z.of_nat (List.length (tokens sc)) - 3)
               = Z.of_nat (List.length (tokens sc)) - 3).
  { unfold size_t. apply Z.mod_small. lia. }
  assert (Hhead : run is_char_range sc
            = (if index sc >? Z.of_nat (List.length (tokens sc)) - 3
               then retR false
               else
                 bindR (type_is (index sc + 1) HYPHEN) (fun hyphen =>
                 if negb hyphen then retR false
                 else
                   bindR (andR (type_is (index sc) CHARACTER)
                               (type_is (index sc + 2) CHARACTER))
                     (fun both_char =>
                   if both_char then
                     bindR (token_at (index sc)) (fun lo =>
                     bindR (token_at (index sc + 2)) (fun hi =>
                     if char_val (character lo) >? char_val (character hi)
                     then
                       bindR (token_at (index sc)) (fun lo' =>
                       bindR (token_at (index sc + 2)) (fun hi' =>
                       raiseR (msg_range (character lo') (character hi'))))
                     else retR true))
                   else
                     bindR (andR (type_is (index sc) CHARACTER)
                                 (type_is (index sc + 2) CHAR_CLASS))
                       (fun char_class =>
                     if char_class then raiseR msg_range_char_class
                     else
                       bindR (andR (type_is (index sc) CHAR_CLASS)
                                   (type_is (index sc + 2) CHARACTER))
                         (fun class_char =>
                       if class_char then raiseR msg_range_char_class
                       else
                         bindR (andR (type_is (index sc) CHAR_CLASS)
                                     (type_is (index sc + 2) CHAR_CLASS))
                           (fun class_class =>
                         if class_class then raiseR msg_range_char_class
                         else retR false)))))) sc []).
  { unfold run, is_char_range. unfold bindR at 1, get_index at 1.
    unfold bindR at 1, size at 1. rewrite Hs.
    rewrite (uint_small (index sc + 1)) by lia.
    rewrite (uint_small (index sc + 2)) by lia. reflexivity. }
  split.
  - intros Hgt. rewrite Hhead.
    destruct (Z.gtb_spec (index sc) (Z.of_nat (List.length (tokens sc)) - 3));
      [reflexivity|lia].
  - intros t0 t1 t2 H0 H1 H2.
    pose proof (nth_error_in_range sc (index sc + 2) t2 ltac:(lia) H2) as Hlt.
    destruct (Z.gtb_spec (index sc) (Z.of_nat (List.length (tokens sc)) - 3))
      as [|_]; [lia|].
    assert (Hty : forall i t ty log,
              0 <= i -> nth_error (tokens sc) (Z.to_nat i) = Some t ->
              type_is i ty sc log
              = (Value (TokenType_eqb (type t) ty), log ++ [i])).
    { intros i t ty log Hi0 Hti. unfold type_is, bindR, retR.
      rewrite (token_at_some sc i t log Hi0 Hti). reflexivity. }
    set (i0 := index sc) in *. set (i1 := index sc + 1) in *.
    set (i2 := index sc + 2) in *.
    assert (Hrun : run is_char_range sc
              = if negb (TokenType_eqb (type t1) HYPHEN)
                then (Value false, [i1])
                else if TokenType_eqb (type t0) CHARACTER then
                  if TokenType_eqb (type t2) CHARACTER then
                    if char_val (character t0) >? char_val (character t2)
                    then (Raise (msg_range (character t0) (character t2)),
                          [i1; i0; i2; i0; i2; i0; i2])
                    else (Value true, [i1; i0; i2; i0; i2])
                  else if TokenType_eqb (type t2) CHAR_CLASS
                  then (Raise msg_range_char_class, [i1; i0; i2; i0; i2])
                  else (Value false, [i1; i0; i2; i0; i2; i0; i0])
                else if TokenType_eqb (type t0) CHAR_CLASS then
                  if TokenType_eqb (type t2) CHARACTER
                  then (Raise msg_range_char_class, [i1; i0; i0; i0; i2])
                  else if TokenType_eqb (type t2) CHAR_CLASS
                  then (Raise msg_range_char_class,
                        [i1; i0; i0; i0; i2; i0; i2])
                  else (Value false, [i1; i0; i0; i0; i2; i0; i2])
                else (Value false, [i1; i0; i0; i0; i0])).
    { rewrite Hhead. unfold andR, bindR, retR, raiseR.
      rewrite !(Hty i1 t1 _ _ ltac:(lia) H1).
      destruct (TokenType_eqb (type t1) HYPHEN); cbn [negb];
        [|reflexivity].
      rewrite !(Hty i0 t0 _ _ ltac:(lia) H0).
      destruct (TokenType_eqb (type t0) CHARACTER) eqn:E0;
        destruct (TokenType_eqb (type t0) CHAR_CLASS) eqn:E0';
        rewrite ?(Hty i2 t2 _ _ ltac:(lia) H2);
        destruct (TokenType_eqb (type t2) CHARACTER) eqn:E2;
        destruct (TokenType_eqb (type t2) CHAR_CLASS) eqn:E2';
        cbn [andb orb];
        try (apply TokenType_eqb_eq in E0; apply TokenType_eqb_eq in E0';
             congruence);
        try (apply TokenType_eqb_eq in E2; apply TokenType_eqb_eq in E2';
             congruence);
        rewrite ?(token_at_some sc i0 t0 _ ltac:(lia) H0);
        rewrite ?(token_at_some sc i2 t2 _ ltac:(lia) H2);
        rewrite ?(Hty i0 t0 _ _ ltac:(lia) H0), ?E0, ?E0';
        rewrite ?(Hty i2 t2 _ _ ltac:(lia) H2), ?E2, ?E2';
        rewrite ?(Hty i0 t0 _ _ ltac:(lia) H0), ?E0, ?E0';
        rewrite ?(Hty i2 t2 _ _ ltac:(lia) H2), ?E2, ?E2';
        rewrite ?(Hty i0 t0 _ _ ltac:(lia) H0), ?E0, ?E0';
        rewrite ?(Hty i2 t2 _ _ ltac:(lia) H2), ?E2, ?E2';
        try (destruct (char_val (character t0) >? char_val (character t2));
             rewrite ?(token_at_some sc i0 t0 _ ltac:(lia) H0);
             rewrite ?(token_at_some sc i2 t2 _ ltac:(lia) H2));
        reflexivity. }
    split; [|split; [|split]].
    + intros i. rewrite Hrun.
      repeat match goal with
             | |- context [if ?b then _ else _] => destruct b
             end; cbn [fst]; discriminate.
    + rewrite Hrun.
      repeat match goal with
             | |- context [if ?b then _ else _] => destruct b
             end; cbn [snd];
        repeat (constructor; [unfold i0, i1, i2; lia|]); constructor.
    + intros Hne. rewrite Hrun.
      destruct (TokenType_eqb (type t1) HYPHEN) eqn:E;
        [apply TokenType_eqb_eq in E; contradiction|reflexivity].
    + intros Hh. rewrite Hrun, Hh. cbn [TokenType_eqb negb].
      split; [|split].
      * intros -> ->. cbn [TokenType_eqb andb]. split; intros Hc.
        -- destruct (Z.gtb_spec (char_val (character t0))
                       (char_val (character t2))); [lia|reflexivity].
        -- destruct (Z.gtb_spec (char_val (character t0))
                       (char_val (character t2))); [reflexivity|lia].
      * intros [Hp|[Hp|[Hp|[]]]]; injection Hp as Ha Hb;
          rewrite <- Ha, <- Hb; reflexivity.
      * intros Hno.
        destruct (TokenType_eqb (type t0) CHARACTER) eqn:E0;
          destruct (TokenType_eqb (type t0) CHAR_CLASS) eqn:E0';
          destruct (TokenType_eqb (type t2) CHARACTER) eqn:E2;
          destruct (TokenType_eqb (type t2) CHAR_CLASS) eqn:E2';
          cbn [andb orb fst]; try reflexivity;
          repeat match goal with
                 | E : TokenType_eqb _ _ = true |- _ =>
                     apply TokenType_eqb_eq in E
                 end;
          exfalso; destruct Hno as [[Ha Hb]|[Ha Hb]]; congruence.
Qed.

(** An instance: the inverted range of the pattern [z-a], from the cursor
    on z; both endpoints are read three times. *)
Lemma is_char_range_in_range_witness :
  run is_char_range
    (mkScanner [set_type blank LEFT_BRACKET; literal blank "z"%char;
                set_type blank HYPHEN; literal blank "a"%char;
                set_type blank RIGHT_BRACKET] 1 [])
  = (Raise (msg_range "z"%char "a"%char), [1 + 1; 1; 1 + 2; 1; 1 + 2; 1; 1 + 2]).
Proof.
  destruct (is_char_range_in_range
              (mkScanner [set_type blank LEFT_BRACKET; literal blank "z"%char;
                          set_type blank HYPHEN; literal blank "a"%char;
                          set_type blank RIGHT_BRACKET] 1 [])
              ltac:(cbn; lia) ltac:(cbn; lia) ltac:(cbn; lia)
              ltac:(cbn; lia)) as [_ H].
  destruct (H (literal blank "z"%char) (set_type blank HYPHEN)
              (literal blank "a"%char) eq_refl eq_refl eq_refl)
    as [_ [_ [_ H3]]].
  destruct (H3 eq_refl) as [H4 _].
  apply (H4 eq_refl eq_refl). vm_compute. reflexivity.
Defined.

(** ** Names of the token kinds *)

(** X13.
    [token_type_to_str] gives every kind a name of its own: two kinds with
    the same name are the same kind, and no name is empty. *)
Theorem token_type_to_str_injective (a b : TokenType) :
  token_type_to_str a = token_type_to_str b ->
  a = b /\ token_type_to_str a <> EmptyString.
Proof.
  intros H. split.
  - destruct a, b; try reflexivity; cbn in H; discriminate H.
  - destruct a; discriminate.
Qed.

(** An instance: the name of the kind Star. *)
Lemma token_type_to_str_injective_witness :
  STAR = STAR /\ token_type_to_str STAR <> EmptyString.
Proof.
  apply (token_type_to_str_injective STAR STAR). reflexivity.
Defined.

(** ** Order of the tokens in a stream *)

Lemma init_loop_invariant (indeterminate : Token) (inp : list ascii)
  (P : bool -> list Token -> Prop) :
  (forall in_set toks s t in_set' s',
     P in_set toks ->
     scan_token indeterminate inp in_set toks s = Ok ((t, in_set'), s') ->
     P in_set' (toks ++ [t])) ->
  forall (fuel : nat) (in_set : bool) (toks : list Token) (s : position)
         (toks' : list Token) (ws' : list string),
    P in_set toks ->
    init_loop indeterminate fuel inp in_set toks s = Ok (toks', ws') ->
    exists in_set', P in_set' toks'.
Proof.
  intros Hstep fuel.
  induction fuel as [|fuel IH]; intros in_set toks s toks' ws' Hinv H;
    [discriminate H|].
  cbn [init_loop] in H. destruct (idx s <? slen inp).
  - destruct (scan_token indeterminate inp in_set toks s)
      as [[[t in_set1] s1]| |] eqn:E; try discriminate H.
    apply (IH _ _ _ _ _ (Hstep _ _ _ _ _ _ Hinv E) H).
  - inversion H; subst. exists in_set. exact Hinv.
Qed.

Lemma escape_case_kind (indeterminate : Token) (inp : list ascii)
  (in_set : bool) (s s' : position) (t : Token) :
  escape_case indeterminate inp in_set s = Ok (t, s') ->
  In (type t) [CHAR_CLASS; CARET; DOLLAR; WORD_BOUNDARY; CHARACTER].
Proof.
  intros H. unfold escape_case in H. unfold_monad H.
  repeat (break_match H; try discriminate H);
    try (apply process_octal_type in H; rewrite H; cbn; tauto);
    try (apply process_hex_type in H; rewrite H; cbn; tauto);
    inversion H; subst; cbn; tauto.
Qed.

Lemma process_repeat_kind (indeterminate : Token) (inp : list ascii)
  (s s' : position) (t : Token) :
  process_repeat indeterminate inp s = Ok (t, s') ->
  type t = CHARACTER \/ type t = REPEAT.
Proof.
  intros H. unfold process_repeat in H. unfold_monad H.
  destruct (get_next_char inp s) as [[c1 s1]| |]; try discriminate H.
  destruct (read_digits (fuel_of inp) inp [] c1 s1)
    as [[[cs1 c2] s2]| |]; try discriminate H.
  destruct (c2 =? ",")%char.
  - destruct (get_next_char inp s2) as [[c3 s3]| |]; try discriminate H.
    destruct (read_digits (fuel_of inp) inp [] c3 s3)
      as [[[cs2 c4] s4]| |]; try discriminate H.
    destruct (c4 =? "}")%char, (is_empty cs1), (is_empty cs2);
      run_token H; inversion H; subst; cbn; tauto.
  - destruct (c2 =? "}")%char, (is_empty cs1);
      run_token H; inversion H; subst; cbn; tauto.
Qed.

Lemma back_is_last_kind (indeterminate : Token) (toks : list Token)
  (ty : TokenType) :
  back_is indeterminate toks ty
  = match last_kind None toks with
    | Some k => TokenType_eqb k ty
    | None => false
    end.
Proof.
  unfold back_is, last_kind.
  destruct toks as [|t0 toks0] using rev_ind; [reflexivity|].
  rewrite last_last, fold_left_app, length_app. cbn [fold_left List.length].
  destruct (Z.gtb_spec (Z.of_nat (List.length toks0 + 1)) 0); [|lia].
  reflexivity.
Qed.

Lemma well_chained_app (toks : list Token) (t : Token) :
  forall prev,
    well_chained prev (toks ++ [t])
    = well_chained prev toks && may_follow (last_kind prev toks) (type t).
Proof.
  induction toks as [|t0 toks IH]; intros prev.
  - cbn. rewrite andb_true_r. reflexivity.
  - cbn [app well_chained]. rewrite IH. unfold last_kind.
    cbn [fold_left]. rewrite andb_assoc. reflexivity.
Qed.

Lemma set_state_app (toks : list Token) (t : Token) :
  forall open,
    set_state open (toks ++ [t])
    = match set_state open toks with
      | Some o => set_state o [t]
      | None => None
      end.
Proof.
  induction toks as [|t0 toks IH]; intros open.
  - reflexivity.
  - cbn [app set_state].
    destruct (type t0), open; try apply IH; reflexivity.
Qed.

(** What one iteration of the switch pushes, given the flag and the kind
    of the token before. *)
Lemma scan_token_placed (indeterminate : Token) (inp : list ascii)
  (in_set in_set' : bool) (toks : list Token) (s s' : position)
  (t : Token) :
  scan_token indeterminate inp in_set toks s = Ok ((t, in_set'), s') ->
  may_follow (last_kind None toks) (type t) = true
  /\ set_state in_set [t] = Some in_set'.
Proof.
  intros H. unfold scan_token in H.
  rewrite !back_is_last_kind in H. unfold_monad H.
  destruct (last_kind None toks) as [k|];
    [destruct k|];
    cbn [TokenType_eqb andb] in H;
    repeat (break_match H; try discriminate H);
    cbn [andb orb negb] in *; try discriminate;
    inversion H; subst;
    try match goal with
        | E : escape_case _ _ _ _ = Ok _ |- _ =>
            apply escape_case_kind in E; cbn in E;
            destruct E as [E|[E|[E|[E|[E|[]]]]]]; cbn; rewrite <- E
        | E : process_extension _ _ _ = Ok _ |- _ =>
            apply process_extension_type in E;
            destruct E as [E|[E|E]]; cbn; rewrite E
        | E : process_repeat _ _ _ = Ok _ |- _ =>
            apply process_repeat_kind in E;
            destruct E as [E|E]; cbn; rewrite E
        end;
    cbn; split; reflexivity.
Qed.

Lemma init_order (indeterminate : Token) (inp : list ascii) (sc : Scanner) :
  init indeterminate inp = Ok sc ->
  exists open,
    well_chained None (tokens sc) = true
    /\ set_state false (tokens sc) = Some open.
Proof.
  intros H. unfold init in H.
  destruct (init_loop indeterminate (fuel_of inp) inp false [] (mkPos 0 []))
    as [[toks ws]| |] eqn:E; try discriminate H.
  inversion H; subst sc. cbn [tokens]. clear H.
  apply (init_loop_invariant indeterminate inp
           (fun in_set toks =>
              well_chained None toks = true
              /\ set_state false toks = Some in_set)) in E.
  - destruct E as [open E]. exists open. exact E.
  - intros in_set toks0 s t in_set' s' [Hc Hs] Hstep.
    apply scan_token_placed in Hstep. destruct Hstep as [H1 H2].
    split.
    + rewrite well_chained_app, Hc, H1. reflexivity.
    + rewrite set_state_app, Hs. exact H2.
  - split; reflexivity.
Qed.

(** X14.
    In the stream of every pattern that scans successfully, an extension
    marker (NoGroupExt, NamedGroupExt, IgnoredExt) stands only right after
    a LeftParen token, a Question token never stands right after a
    LeftParen, and neither a Hyphen nor a RightBracket stands right after a
    LeftBracket. *)
Theorem tokens_well_chained (indeterminate : Token) (inp : list ascii)
  (sc : Scanner) :
  init indeterminate inp = Ok sc ->
  well_chained None (tokens sc) = true.
Proof.
  intros H. destruct (init_order indeterminate inp sc H) as [open [Hc _]].
  exact Hc.
Qed.

(** An instance: the stream of the pattern (?:a?)[]-b]. *)
Lemma tokens_well_chained_witness :
  well_chained None
    [set_type blank LEFT_PAREN; set_type blank NO_GROUP_EXT;
     literal blank "a"%char; set_type blank QUESTION;
     set_type blank RIGHT_PAREN; set_type blank LEFT_BRACKET;
     literal blank "]"%char; set_type blank HYPHEN; literal blank "b"%char;
     set_type blank RIGHT_BRACKET]
  = true.
Proof.
  apply (tokens_well_chained blank (chars "(?:a?)[]-b]")
           (mkScanner
              [set_type blank LEFT_PAREN; set_type blank NO_GROUP_EXT;
               literal blank "a"%char; set_type blank QUESTION;
               set_type blank RIGHT_PAREN; set_type blank LEFT_BRACKET;
               literal blank "]"%char; set_type blank HYPHEN;
               literal blank "b"%char; set_type blank RIGHT_BRACKET] 0 [])).
  vm_compute; reflexivity.
Defined.

(** X15.
    In the stream of every pattern that scans successfully, the
    LeftBracket and RightBracket tokens alternate, starting with a
    LeftBracket: bracket sets do not nest and a RightBracket always closes
    an open set; every Hyphen token lies between a LeftBracket and the
    RightBracket that closes it, or after a LeftBracket that is never
    closed. *)
Theorem bracket_tokens_alternate (indeterminate : Token) (inp : list ascii)
  (sc : Scanner) :
  init indeterminate inp = Ok sc ->
  exists open, set_state false (tokens sc) = Some open.
Proof.
  intros H. destruct (init_order indeterminate inp sc H) as [open [_ Hs]].
  exists open. exact Hs.
Qed.

(** An instance: the stream of the pattern [a-c]]-[[d, whose second set
    is left open. *)
Lemma bracket_tokens_alternate_witness :
  exists open,
    set_state false
      [set_type blank LEFT_BRACKET; literal blank "a"%char;
       set_type blank HYPHEN; literal blank "c"%char;
       set_type blank RIGHT_BRACKET; literal blank "]"%char;
       literal blank "-"%char; set_type blank LEFT_BRACKET;
       literal blank "["%char; literal blank "d"%char]
    = Some open.
Proof.
  apply (bracket_tokens_alternate blank (chars "[a-c]]-[[d")
           (mkScanner
              [set_type blank LEFT_BRACKET; literal blank "a"%char;
               set_type blank HYPHEN; literal blank "c"%char;
               set_type blank RIGHT_BRACKET; literal blank "]"%char;
               literal blank "-"%char; set_type blank LEFT_BRACKET;
               literal blank "["%char; literal blank "d"%char] 0 [])).
  vm_compute; reflexivity.
Defined.

(** ** Escapes *)

Lemma not_In_eqb (c : ascii) (l : list ascii) :
  ~ In c l -> forall x, In x l -> (c =? x)%char = false.
Proof.
  intros Hn x Hx. apply Ascii.eqb_neq. intros ->. contradiction.
Qed.

(** X16.
    The driver on a backslash (in a pattern shorter than 2^32 characters),
    [c] being the character after it.  At the end of the input it raises
    the premature-end error.  Otherwise: d D w W s S give a CharClass
    tagged with [c]; A gives Caret and Z gives Dollar; b inside a set is an
    error and outside a set a WordBoundary with a warning; B is a
    WordBoundary with a warning in either case; a f n r t v p are errors
    that name [c]; a backslash, a quote or a double quote, and every
    character that is not a digit nor x, u, U nor one of the above, gives
    the literal Character [c].  In every successful case the scan index is
    left on [c] and the set flag is kept. *)
Theorem escape_table (indeterminate : Token) (inp : list ascii)
  (in_set : bool) (toks : list Token) (i : Z) (ws : list string) :
  0 <= i < slen inp -> slen inp < 4294967296 ->
  char_at inp i = backslash ->
  let c := char_at inp (i + 1) in
  let run := scan_token indeterminate inp in_set toks (mkPos i ws) in
  (i + 1 = slen inp -> run = Throw msg_premature)
  /\ (i + 1 < slen inp ->
      (In c (chars "dDwWsS") ->
       run = Ok ((set_character (set_type indeterminate CHAR_CLASS) c,
                  in_set), mkPos (i + 1) ws))
      /\ (c = "A"%char ->
          run = Ok ((set_type indeterminate CARET, in_set),
                    mkPos (i + 1) ws))
      /\ (c = "Z"%char ->
          run = Ok ((set_type indeterminate DOLLAR, in_set),
                    mkPos (i + 1) ws))
      /\ (c = "b"%char -> in_set = true ->
          run = Throw (msg_unsupported_char "b"))
      /\ (c = "b"%char -> in_set = false ->
          run = Ok ((set_type indeterminate WORD_BOUNDARY, in_set),
                    mkPos (i + 1) (ws ++ [warn_word_boundary "b"])))
      /\ (c = "B"%char ->
          run = Ok ((set_type indeterminate WORD_BOUNDARY, in_set),
                    mkPos (i + 1) (ws ++ [warn_word_boundary "B"])))
      /\ (In c (chars "afnrtvp") -> run = Throw (msg_unsupported_char c))
      /\ (In c [backslash; squote; dquote] \/ ~ In c escape_specials ->
          run = Ok ((literal indeterminate c, in_set), mkPos (i + 1) ws))).
Proof.
  intros Hi Hlen Hb c run.
  assert (Hhead : run
            = bind (escape_case indeterminate inp in_set)
                (fun token => ret (token, in_set)) (mkPos i ws)).
  { unfold run, scan_token. cbv zeta. unfold bind at 1, get_idx at 1.
    cbn [idx]. rewrite Hb. reflexivity. }
  split.
  - intros He. rewrite Hhead. unfold bind at 1, escape_case. cbv zeta.
    unfold bind at 1. rewrite get_next_char_end by lia. reflexivity.
  - intros Hlt.
    assert (Hrun : run
              = match
                  (if mem_char c ["d"; "D"; "w"; "W"; "s"; "S"]%char then
                     ret (set_character (set_type indeterminate CHAR_CLASS) c)
                   else if (c =? "A")%char then
                     ret (set_type indeterminate CARET)
                   else if (c =? "Z")%char then
                     ret (set_type indeterminate DOLLAR)
                   else if (c =? "b")%char then
                     if in_set then throw (msg_unsupported_char "b")
                     else
                       bind (addWarning (warn_word_boundary "b")) (fun _ =>
                         ret (set_type indeterminate WORD_BOUNDARY))
                   else if (c =? "B")%char then
                     bind (addWarning (warn_word_boundary "B")) (fun _ =>
                       ret (set_type indeterminate WORD_BOUNDARY))
                   else if mem_char c
                             ["a"; "f"; "n"; "r"; "t"; "v"; "p"]%char then
                     throw (msg_unsupported_char c)
                   else if (c =? backslash)%char then
                     ret (literal indeterminate backslash)
                   else if (c =? squote)%char then
                     ret (literal indeterminate squote)
                   else if (c =? dquote)%char then
                     ret (literal indeterminate dquote)
                   else if mem_char c
                             ["0"; "1"; "2"; "3"; "4"; "5"; "6"; "7"; "8";
                              "9"]%char
                   then process_octal indeterminate inp c
                   else if (c =? "x")%char then
                     process_hex indeterminate inp 2
                   else if (c =? "u")%char then
                     process_hex indeterminate inp 4
                   else if (c =? "U")%char then
                     process_hex indeterminate inp 8
                   else ret (literal indeterminate c)) (mkPos (i + 1) ws)
                with
                | Ok (token, s') => Ok ((token, in_set), s')
                | Throw msg => Throw msg
                | Diverge => Diverge
                end).
    { rewrite Hhead. unfold bind at 1, escape_case. cbv zeta.
      unfold bind at 1. rewrite get_next_char_ok by lia. reflexivity. }
    repeat split.
    + intros Hin. rewrite Hrun. cbn in Hin.
      destruct Hin as [<-|[<-|[<-|[<-|[<-|[<-|[]]]]]]]; reflexivity.
    + intros He. rewrite Hrun, He. reflexivity.
    + intros He. rewrite Hrun, He. reflexivity.
    + intros He Hs. rewrite Hrun, He, Hs. reflexivity.
    + intros He Hs. rewrite Hrun, He, Hs. reflexivity.
    + intros He. rewrite Hrun, He. reflexivity.
    + intros Hin. rewrite Hrun. cbn in Hin.
      destruct Hin as [<-|[<-|[<-|[<-|[<-|[<-|[<-|[]]]]]]]]; reflexivity.
    + intros [Hin|Hn]; rewrite Hrun.
      * destruct Hin as [<-|[<-|[<-|[]]]]; reflexivity.
      * pose proof (not_In_eqb c escape_specials Hn) as Hneq.
        unfold mem_char. cbn [existsb].
        repeat match goal with
               | |- context [(c =? ?x)%char] =>
                   rewrite (Hneq x) by (vm_compute; tauto)
               end.
        reflexivity.
Qed.

(** An instance: the escaped parenthesis of the pattern a\(b. *)
Lemma escape_table_witness :
  scan_token blank (chars "a\(b") false [literal blank "a"%char]
    (mkPos 1 [])
  = Ok ((literal blank "("%char, false), mkPos (1 + 1) []).
Proof.
  destruct (escape_table blank (chars "a\(b") false [literal blank "a"%char]
              1 [] ltac:(vm_compute; split; [discriminate|reflexivity])
              ltac:(vm_compute; reflexivity) eq_refl) as [_ H].
  apply (H ltac:(vm_compute; reflexivity)).
  right. vm_compute. intros H0.
  repeat (destruct H0 as [H0|H0]; [discriminate H0|]). exact H0.
Defined.

(** ** Lazy markers *)

(** X17.
    Outside a bracket set, on *, on + and on a ? that does not follow a
    LeftParen, the driver pushes Star, Plus or Question whether or not a
    question mark comes next: when one does, that lazy marker is consumed
    with the operator and produces no token of its own; when none does,
    only the operator is consumed.  The token before matters for ? only:
    * and + are operators after a LeftParen as well. *)
Theorem lazy_marker_erased (indeterminate : Token) (inp : list ascii)
  (toks : list Token) (s : position) (fuel : nat)
  (c : ascii) (ty : TokenType) :
  0 <= idx s < slen inp -> slen inp < 4294967296 ->
  char_at inp (idx s) = c ->
  In (c, ty) [("*"%char, STAR); ("+"%char, PLUS); ("?"%char, QUESTION)] ->
  (c = "?"%char -> back_is indeterminate toks LEFT_PAREN = false) ->
  (idx s + 1 < slen inp -> char_at inp (idx s + 1) = "?"%char ->
   init_loop indeterminate (S fuel) inp false toks s
   = init_loop indeterminate fuel inp false
       (toks ++ [set_type indeterminate ty])
       (mkPos (idx s + 2) (warnings s)))
  /\ (idx s + 1 = slen inp \/ char_at inp (idx s + 1) <> "?"%char ->
      init_loop indeterminate (S fuel) inp false toks s
      = init_loop indeterminate fuel inp false
          (toks ++ [set_type indeterminate ty])
          (mkPos (idx s + 1) (warnings s))).
Proof.
  intros Hi Hlen Hc Hin Hback.
  assert (Hstep : scan_token indeterminate inp false toks s
            = if lazy_follows inp (idx s)
              then Ok ((set_type indeterminate ty, false),
                       mkPos (uint (idx s + 1)) (warnings s))
              else Ok ((set_type indeterminate ty, false), s)).
  { unfold scan_token, bind, get_idx, set_idx, ret. cbv zeta.
    rewrite Hc.
    destruct Hin as [Hp|[Hp|[Hp|[]]]]; injection Hp as <- <-;
      try rewrite (Hback eq_refl);
      cbn [Ascii.eqb Bool.eqb andb negb]; cbv beta iota;
      destruct (lazy_follows inp (idx s)); reflexivity. }
  assert (Hlt : (idx s <? slen inp) = true) by (apply Z.ltb_lt; lia).
  split.
  - intros H1 Hq. cbn [init_loop]. rewrite Hlt, Hstep.
    unfold lazy_follows. rewrite uint_small by lia.
    destruct (Z.ltb_spec (idx s + 1) (slen inp)); [|lia].
    rewrite Hq. cbn [Ascii.eqb Bool.eqb andb idx warnings].
    rewrite uint_small by lia.
    replace (idx s + 1 + 1) with (idx s + 2) by lia. reflexivity.
  - intros Hno. cbn [init_loop]. rewrite Hlt, Hstep.
    assert (Hl : lazy_follows inp (idx s) = false).
    { unfold lazy_follows. rewrite uint_small by lia.
      destruct Hno as [Hno|Hno].
      - destruct (Z.ltb_spec (idx s + 1) (slen inp)); [lia|reflexivity].
      - apply Ascii.eqb_neq in Hno. rewrite Hno. apply andb_false_r. }
    rewrite Hl. rewrite uint_small by lia. reflexivity.
Qed.

(** An instance: the lazy star that directly follows the opening
    parenthesis of a four-character pattern. *)
Lemma lazy_marker_erased_witness :
  init_loop blank 4 ("("%char :: chars "*?a") false [set_type blank LEFT_PAREN]
    (mkPos 1 [])
  = init_loop blank 3 ("("%char :: chars "*?a") false
      ([set_type blank LEFT_PAREN] ++ [set_type blank STAR])
      (mkPos (1 + 2) []).
Proof.
  refine (proj1 (lazy_marker_erased blank ("("%char :: chars "*?a")
                   [set_type blank LEFT_PAREN] (mkPos 1 []) 3%nat
                   "*"%char STAR _ _ _ _ _) _ _).
  - vm_compute; split; [discriminate|reflexivity].
  - vm_compute; reflexivity.
  - reflexivity.
  - left; reflexivity.
  - intros H; discriminate H.
  - vm_compute; reflexivity.
  - reflexivity.
Defined.

(** ** Uninitialised fields *)

Ltac break_goal :=
  repeat match goal with
         | |- context [match ?x with _ => _ end] => destruct x
         end.

Ltac same_leaf :=
  cbn [same_outcome]; first [exact Logic.I | reflexivity
                            | split; reflexivity].

Lemma same_process_octal (j1 j2 : Token) (inp : list ascii) (c : ascii)
  (s : position) :
  same_outcome same_view (process_octal j1 inp c s)
    (process_octal j2 inp c s).
Proof.
  unfold process_octal, bind, get_idx, set_idx, ret, throw.
  break_goal; same_leaf.
Qed.

Lemma same_process_hex (j1 j2 : Token) (inp : list ascii) (n : Z)
  (s : position) :
  same_outcome same_view (process_hex j1 inp n s) (process_hex j2 inp n s).
Proof.
  unfold process_hex, bind, get_idx, set_idx, ret, throw.
  break_goal; same_leaf.
Qed.

Lemma same_process_extension (j1 j2 : Token) (inp : list ascii)
  (s : position) :
  same_outcome same_view (process_extension j1 inp s)
    (process_extension j2 inp s).
Proof.
  unfold process_extension, bind, get_idx, set_idx, ret, throw, addWarning.
  break_goal; same_leaf.
Qed.

Lemma same_bind {A B : Type} (R : B -> B -> Prop) (m : M A)
  (k1 k2 : A -> M B) (s : position) :
  (forall a s', same_outcome R (k1 a s') (k2 a s')) ->
  same_outcome R (bind m k1 s) (bind m k2 s).
Proof.
  intros H. unfold bind. destruct (m s) as [[a s']| |].
  - apply H.
  - reflexivity.
  - exact Logic.I.
Qed.

Ltac simpl_fields :=
  repeat first
    [ progress cbn [set_repeat_upper set_repeat_lower set_character set_type
                    repeat_lower repeat_upper type character andb orb negb]
    | progress change (Z.eqb (-1) (-1)) with true
    | progress change (Z.eqb 0 (-1)) with false ].

Ltac break_fields :=
  simpl_fields;
  repeat (match goal with
          | |- context [match ?x with _ => _ end] => destruct x
          end; simpl_fields).

Lemma same_repeat_tail (j1 j2 : Token) (inp : list ascii) (current_idx : Z)
  (count_str : list ascii) (c : ascii) (s : position) :
  same_outcome same_view (repeat_tail j1 inp current_idx count_str c s)
    (repeat_tail j2 inp current_idx count_str c s).
Proof.
  unfold repeat_tail. cbv zeta. destruct (c =? ",")%char.
  - apply same_bind. intros c3 s3. apply same_bind. intros [cs2 c4] s4.
    unfold bind, set_idx, ret, throw.
    generalize (extract_int count_str) (extract_int cs2). intros l u.
    destruct (c4 =? "}")%char, (is_empty count_str), (is_empty cs2);
      simpl_fields; destruct (l =? -1), (u =? -1);
      break_fields; same_leaf.
  - unfold bind, set_idx, ret, throw.
    generalize (extract_int count_str). intros l.
    destruct (c =? "}")%char, (is_empty count_str);
      simpl_fields; destruct (l =? -1); break_fields; same_leaf.
Qed.

Lemma same_process_repeat (j1 j2 : Token) (inp : list ascii)
  (s : position) :
  same_outcome same_view (process_repeat j1 inp s) (process_repeat j2 inp s).
Proof.
  rewrite !process_repeat_unfold.
  apply same_bind. intros current_idx s0.
  apply same_bind. intros c1 s1.
  apply same_bind. intros [cs1 c2] s2.
  apply same_repeat_tail.
Qed.

Lemma same_escape_case (j1 j2 : Token) (inp : list ascii) (in_set : bool)
  (s : position) :
  same_outcome same_view (escape_case j1 inp in_set s)
    (escape_case j2 inp in_set s).
Proof.
  unfold escape_case. cbv zeta. apply same_bind. intros c s1.
  repeat match goal with
         | |- context [if ?b then _ else _] => destruct b
         end;
    first [ apply same_process_octal | apply same_process_hex
          | unfold bind, addWarning, ret, throw, literal; same_leaf ].
Qed.

Lemma view_type (t1 t2 : Token) : same_view t1 t2 -> type t1 = type t2.
Proof.
  unfold same_view, token_view. intros H.
  destruct (type t1), (type t2); congruence.
Qed.

Lemma last_kind_view (toks1 : list Token) :
  forall (toks2 : list Token) (prev : option TokenType),
    map token_view toks1 = map token_view toks2 ->
    last_kind prev toks1 = last_kind prev toks2.
Proof.
  unfold last_kind.
  induction toks1 as [|t1 toks1 IH]; intros [|t2 toks2] prev H;
    try discriminate H; [reflexivity|].
  cbn [map] in H. injection H as Ht Hr. cbn [fold_left].
  rewrite (view_type t1 t2 Ht). apply IH. exact Hr.
Qed.

Lemma same_bind2 {A B : Type} (RA : A -> A -> Prop) (RB : B -> B -> Prop)
  (m1 m2 : M A) (k1 k2 : A -> M B) (s : position) :
  same_outcome RA (m1 s) (m2 s) ->
  (forall a1 a2 s', RA a1 a2 -> same_outcome RB (k1 a1 s') (k2 a2 s')) ->
  same_outcome RB (bind m1 k1 s) (bind m2 k2 s).
Proof.
  intros Hm Hk. unfold bind.
  destruct (m1 s) as [[a1 s1]| |], (m2 s) as [[a2 s2]| |];
    cbn [same_outcome] in Hm; try contradiction; try exact Hm.
  destruct Hm as [Ha ->]. apply Hk. exact Ha.
Qed.

Lemma same_ret_pair (t1 t2 : Token) (b : bool) (s : position) :
  same_view t1 t2 -> same_outcome same_step (ret (t1, b) s) (ret (t2, b) s).
Proof.
  intros H. unfold ret, same_step. cbn [same_outcome fst snd].
  repeat split. exact H.
Qed.

Lemma same_scan_token (j1 j2 : Token) (inp : list ascii) (in_set : bool)
  (toks1 toks2 : list Token) (s : position) :
  map token_view toks1 = map token_view toks2 ->
  same_outcome same_step
    (scan_token j1 inp in_set toks1 s) (scan_token j2 inp in_set toks2 s).
Proof.
  intros Hv. unfold scan_token. cbv zeta.
  rewrite !back_is_last_kind. rewrite (last_kind_view toks1 toks2 None Hv).
  apply same_bind. intros i s0.
  repeat match goal with
         | |- context [if ?b then _ else _] => destruct b
         end;
    first
      [ apply same_ret_pair; reflexivity
      | unfold bind at 1 3, set_idx; apply same_ret_pair; reflexivity
      | apply (same_bind2 same_view);
        [ first [ apply same_escape_case | apply same_process_extension ]
        | intros t1 t2 s' Ht; apply same_ret_pair; exact Ht ]
      | idtac ].
  all: apply (same_bind2 same_view); [apply same_process_repeat|].
  all: intros t1 t2 s' Ht; apply same_bind; intros i' s''.
  all: rewrite (view_type t1 t2 Ht).
  all: destruct (negb (TokenType_eqb (type t2) CHARACTER)
                 && lazy_follows inp i');
    [ unfold bind, set_idx | ]; apply same_ret_pair; exact Ht.
Qed.

Lemma same_init_loop (j1 j2 : Token) (inp : list ascii) (fuel : nat) :
  forall (in_set : bool) (toks1 toks2 : list Token) (s : position),
    map token_view toks1 = map token_view toks2 ->
    same_run (init_loop j1 fuel inp in_set toks1 s)
             (init_loop j2 fuel inp in_set toks2 s).
Proof.
  induction fuel as [|fuel IH]; intros in_set toks1 toks2 s Hv;
    cbn [init_loop]; [exact Logic.I|].
  destruct (idx s <? slen inp).
  - pose proof (same_scan_token j1 j2 inp in_set toks1 toks2 s Hv) as H.
    destruct (scan_token j1 inp in_set toks1 s) as [[[t1 b1] s1]| |],
             (scan_token j2 inp in_set toks2 s) as [[[t2 b2] s2]| |];
      cbn [same_outcome] in H; try contradiction;
      [ | cbn [same_run]; exact H | exact Logic.I ].
    destruct H as [[Ht Hb] ->]. cbn [fst snd] in Ht, Hb. subst b2.
    apply IH. rewrite !map_app. cbn [map]. unfold same_view in Ht.
    rewrite Hv, Ht. reflexivity.
  - cbn [same_run]. split; [exact Hv | reflexivity].
Qed.

(** X18.
    The fields a case does not set never reach the result of a scan.  The
    loop of [init] declares [Token token;] on every iteration and each case
    assigns only the fields it needs.  Whatever the declaration leaves in
    the token, for any two such starting values and any pattern the two
    scans end alike: the same exception, or the same warnings, the cursor
    at 0 and token sequences that agree in what a token carries (its kind,
    the character of a Character or CharClass token, the two bounds of a
    Repeat token). *)
Theorem init_ignores_uninitialised (j1 j2 : Token) (inp : list ascii) :
  same_scan (init j1 inp) (init j2 inp).
Proof.
  unfold init.
  pose proof (same_init_loop j1 j2 inp (fuel_of inp) false [] []
                (mkPos 0 []) eq_refl) as H.
  destruct (init_loop j1 (fuel_of inp) inp false [] (mkPos 0 []))
    as [[t1 w1]| |],
    (init_loop j2 (fuel_of inp) inp false [] (mkPos 0 []))
    as [[t2 w2]| |];
    cbn [same_run] in H; cbn [same_scan]; try contradiction; try exact H.
  destruct H as [H1 H2]. cbn [tokens index scanner_warnings].
  repeat split; assumption.
Qed.

(** ** Truncated hexadecimal escapes *)

Lemma hex_extra_digits_short (inp : list ascii) (num_digits : Z) :
  slen inp < 4294967296 ->
  forall (n : nat) (i : Z) (ws : list string),
    0 <= i < slen inp -> slen inp <= i + Z.of_nat n ->
    (forall k, 1 <= k <= Z.of_nat n -> i + k < slen inp ->
               char_at inp (i + k) = "0"%char) ->
    hex_extra_digits n inp num_digits (mkPos i ws) = Throw msg_premature.
Proof.
  intros Hlen n. induction n as [|n IH]; intros i ws Hi Hshort Hz.
  - lia.
  - cbn [hex_extra_digits]. unfold bind at 1.
    destruct (Z.eq_dec (i + 1) (slen inp)) as [He|Hne].
    + rewrite get_next_char_end by lia. reflexivity.
    + rewrite get_next_char_ok by lia.
      rewrite (Hz 1) by lia. cbn [Ascii.eqb Bool.eqb negb andb].
      cbv beta iota. apply IH; [lia|lia|].
      intros k Hk Hin. replace (i + 1 + k) with (i + (1 + k)) by lia.
      apply Hz; lia.
Qed.

(** X19.
    [process_hex] with 2, 4 or 8 required digits, entered with the scan
    index on the letter of the escape, when the pattern ends before the
    last required digit: unless one of the leading digits that are present
    is not 0, the escape raises the premature-end error.  This holds
    whatever the digits present are: the two value digits are both fetched
    before either is examined, so a missing second digit is reported
    rather than an invalid first one. *)
Theorem process_hex_truncated (indeterminate : Token) (inp : list ascii)
  (i : Z) (ws : list string) (n : Z) :
  n = 2 \/ n = 4 \/ n = 8 ->
  0 <= i < slen inp -> slen inp <= i + n -> slen inp < 4294967296 ->
  (forall k, 1 <= k <= n - 2 -> i + k < slen inp ->
             char_at inp (i + k) = "0"%char) ->
  process_hex indeterminate inp n (mkPos i ws) = Throw msg_premature.
Proof.
  intros Hn Hi Hshort Hlen Hz.
  assert (Hn2 : 0 <= n - 2) by lia.
  unfold process_hex. unfold bind at 1.
  destruct (Z_lt_le_dec (i + (n - 2)) (slen inp)) as [Hin|Hout].
  - rewrite (hex_extra_digits_zeros inp n ltac:(lia)
               (Z.to_nat (n - 2)) i ws ltac:(lia)).
    + rewrite Z2Nat.id by exact Hn2. unfold bind at 1.
      destruct (Z.eq_dec (i + (n - 2) + 1) (slen inp)) as [He|Hne].
      * rewrite get_next_char_end by lia. reflexivity.
      * rewrite get_next_char_ok by lia. unfold bind at 1.
        rewrite get_next_char_end by lia. reflexivity.
    + rewrite Z2Nat.id by exact Hn2. exact Hin.
    + rewrite Z2Nat.id by exact Hn2. intros k Hk. apply Hz; lia.
  - rewrite (hex_extra_digits_short inp n Hlen (Z.to_nat (n - 2)) i ws Hi).
    + reflexivity.
    + rewrite Z2Nat.id by exact Hn2. exact Hout.
    + rewrite Z2Nat.id by exact Hn2. exact Hz.
Qed.

(** An instance: the escape of the pattern \xG, whose only digit is not
    hexadecimal. *)
Lemma process_hex_truncated_witness :
  process_hex blank (backslash :: chars "xG") 2 (mkPos 1 [])
  = Throw msg_premature.
Proof.
  apply (process_hex_truncated blank (backslash :: chars "xG") 1 [] 2).
  - left; reflexivity.
  - vm_compute; split; [discriminate|reflexivity].
  - vm_compute; discriminate.
  - vm_compute; reflexivity.
  - intros k Hk. lia.
Defined.

(** ** Warnings *)

Lemma quiet_ret {A : Type} (a : A) : quiet (ret a).
Proof. intros s a' s' H. inversion H; subst. reflexivity. Qed.

Lemma quiet_throw {A : Type} (msg : string) : quiet (@throw A msg).
Proof. intros s a s' H. discriminate H. Qed.

Lemma quiet_diverge {A : Type} : quiet (@diverge A).
Proof. intros s a s' H. discriminate H. Qed.

Lemma quiet_get_idx : quiet get_idx.
Proof. intros s a s' H. inversion H; subst. reflexivity. Qed.

Lemma quiet_set_idx (i : Z) : quiet (set_idx i).
Proof. intros s a s' H. inversion H; subst. reflexivity. Qed.

Lemma quiet_bind {A B : Type} (m : M A) (k : A -> M B) :
  quiet m -> (forall a, quiet (k a)) -> quiet (bind m k).
Proof.
  intros Hm Hk s b s' H. unfold bind in H.
  destruct (m s) as [[a s1]| |] eqn:E; try discriminate H.
  rewrite (Hk a s1 b s' H). exact (Hm s a s1 E).
Qed.

Ltac quiet_step :=
  cbv zeta;
  repeat first
    [ apply quiet_ret | apply quiet_throw | apply quiet_diverge
    | apply quiet_get_idx | apply quiet_set_idx
    | assumption
    | apply quiet_bind; [|intros ?]
    | match goal with
      | |- quiet (if ?b then _ else _) => destruct b
      | |- quiet (match ?x with _ => _ end) => destruct x
      end ].

Lemma quiet_get_next_char (inp : list ascii) : quiet (get_next_char inp).
Proof. unfold get_next_char. quiet_step. Qed.

Lemma quiet_read_digits (inp : list ascii) (fuel : nat) :
  forall (acc : list ascii) (c : ascii), quiet (read_digits fuel inp acc c).
Proof.
  pose proof (quiet_get_next_char inp) as G.
  induction fuel as [|fuel IH]; intros acc c; cbn [read_digits];
    quiet_step. apply IH.
Qed.

Lemma quiet_skip_to_gt (inp : list ascii) (fuel : nat) :
  forall c : ascii, quiet (skip_to_gt fuel inp c).
Proof.
  pose proof (quiet_get_next_char inp) as G.
  induction fuel as [|fuel IH]; intros c; cbn [skip_to_gt];
    quiet_step. apply IH.
Qed.

Lemma quiet_hex_extra_digits (inp : list ascii) (num_digits : Z) (n : nat) :
  quiet (hex_extra_digits n inp num_digits).
Proof.
  pose proof (quiet_get_next_char inp) as G.
  induction n as [|n IH]; cbn [hex_extra_digits]; quiet_step.
Qed.

Lemma quiet_process_octal (indeterminate : Token) (inp : list ascii)
  (c : ascii) : quiet (process_octal indeterminate inp c).
Proof. unfold process_octal. quiet_step. Qed.

Lemma quiet_process_hex (indeterminate : Token) (inp : list ascii) (n : Z) :
  quiet (process_hex indeterminate inp n).
Proof.
  pose proof (quiet_get_next_char inp) as G.
  pose proof (quiet_hex_extra_digits inp n (Z.to_nat (n - 2))) as X.
  unfold process_hex. quiet_step.
Qed.

Lemma quiet_process_repeat (indeterminate : Token) (inp : list ascii) :
  quiet (process_repeat indeterminate inp).
Proof.
  pose proof (quiet_get_next_char inp) as G.
  pose proof (quiet_read_digits inp (fuel_of inp) []) as D.
  rewrite process_repeat_unfold. unfold repeat_tail. quiet_step.
  all: apply D.
Qed.

Lemma step_log_quiet (s s' : position) (t : Token) :
  warnings s' = warnings s -> warned (type t) = false -> step_log s s' t.
Proof.
  intros Hw Ht. exists []. rewrite Ht, app_nil_r. split; [exact Hw|reflexivity].
Qed.

Lemma step_log_one (s s' : position) (t : Token) (w : string) :
  warnings s' = warnings s ++ [w] -> warned (type t) = true ->
  step_log s s' t.
Proof.
  intros Hw Ht. exists [w]. rewrite Ht. split; [exact Hw|reflexivity].
Qed.

Lemma escape_case_logs (indeterminate : Token) (inp : list ascii)
  (in_set : bool) (s s' : position) (t : Token) :
  escape_case indeterminate inp in_set s = Ok (t, s') -> step_log s s' t.
Proof.
  intros H. unfold escape_case in H. cbv zeta in H. unfold bind at 1 in H.
  destruct (get_next_char inp s) as [[c s1]| |] eqn:G; try discriminate H.
  apply quiet_get_next_char in G.
  repeat match type of H with
         | context [if ?b then _ else _] => destruct b
         end;
    try discriminate H;
    first
      [ pose proof (process_octal_type _ _ _ _ _ _ H) as Ht;
        apply quiet_process_octal in H;
        apply step_log_quiet; [congruence|rewrite Ht; reflexivity]
      | pose proof (process_hex_type _ _ _ _ _ _ H) as Ht;
        apply quiet_process_hex in H;
        apply step_log_quiet; [congruence|rewrite Ht; reflexivity]
      | unfold bind, addWarning, ret, literal in H; inversion H; subst;
        first [ apply step_log_quiet; [exact G|reflexivity]
              | eapply step_log_one;
                [cbn [warnings]; rewrite G; reflexivity|reflexivity] ] ].
Qed.

Lemma process_extension_logs (indeterminate : Token) (inp : list ascii)
  (s s' : position) (t : Token) :
  process_extension indeterminate inp s = Ok (t, s') -> step_log s s' t.
Proof.
  intros H. unfold process_extension in H. cbv zeta in H.
  unfold bind at 1 in H.
  destruct (get_next_char inp s) as [[ext s1]| |] eqn:G; try discriminate H.
  apply quiet_get_next_char in G.
  destruct (ext =? ":")%char.
  { inversion H; subst. apply step_log_quiet; [exact G|reflexivity]. }
  destruct (ext =? "P")%char.
  { unfold bind at 1 in H.
    destruct (get_next_char inp s1) as [[c s2]| |] eqn:G2;
      try discriminate H.
    apply quiet_get_next_char in G2.
    destruct (c =? "=")%char; [discriminate H|].
    destruct (negb (c =? "<")%char); [discriminate H|].
    unfold bind at 1 in H.
    destruct (skip_to_gt (fuel_of inp) inp c s2) as [[u s3]| |] eqn:K;
      try discriminate H.
    apply quiet_skip_to_gt in K. inversion H; subst.
    apply step_log_quiet; [congruence|reflexivity]. }
  destruct ((ext =? "#")%char || (ext =? "=")%char || (ext =? "!")%char).
  { unfold bind, addWarning, ret in H. inversion H; subst.
    eapply step_log_one; [cbn [warnings]; rewrite G; reflexivity
                         |reflexivity]. }
  destruct (ext =? "<")%char; [|discriminate H].
  unfold bind at 1 in H.
  destruct (get_next_char inp s1) as [[c s2]| |] eqn:G2; try discriminate H.
  apply quiet_get_next_char in G2.
  destruct ((c =? "=")%char || (c =? "!")%char); [|discriminate H].
  unfold bind, addWarning, ret in H. inversion H; subst.
  eapply step_log_one; [cbn [warnings]; rewrite G2, G; reflexivity
                       |reflexivity].
Qed.

Lemma scan_token_logs (indeterminate : Token) (inp : list ascii)
  (in_set in_set' : bool) (toks : list Token) (s s' : position)
  (t : Token) :
  scan_token indeterminate inp in_set toks s = Ok ((t, in_set'), s') ->
  step_log s s' t.
Proof.
  intros H. unfold scan_token in H. cbv zeta in H.
  unfold bind at 1, get_idx at 1 in H.
  repeat match type of H with
         | context [if ?b then _ else _] => destruct b
         end;
    try (unfold bind, set_idx, ret, literal in H; inversion H; subst;
         apply step_log_quiet; reflexivity).
  all: unfold bind at 1 in H.
  all: first
    [ destruct (escape_case indeterminate inp in_set s)
        as [[t1 s1]| |] eqn:E; try discriminate H;
      inversion H; subst; exact (escape_case_logs _ _ _ _ _ _ E)
    | destruct (process_extension indeterminate inp s)
        as [[t1 s1]| |] eqn:E; try discriminate H;
      inversion H; subst; exact (process_extension_logs _ _ _ _ _ E)
    | destruct (process_repeat indeterminate inp s)
        as [[t1 s1]| |] eqn:E; try discriminate H;
      pose proof (process_repeat_kind _ _ _ _ _ E) as Hk;
      apply quiet_process_repeat in E;
      unfold bind, get_idx, set_idx, ret in H;
      destruct (negb (TokenType_eqb (type t1) CHARACTER)
                && lazy_follows inp (idx s1));
      inversion H; subst; apply step_log_quiet;
      [exact E | destruct Hk as [Hk|Hk]; rewrite Hk; reflexivity
      |exact E | destruct Hk as [Hk|Hk]; rewrite Hk; reflexivity] ].
Qed.

Lemma count_warned_app (toks : list Token) (t : Token) :
  count_warned (toks ++ [t])
  = (count_warned toks + if warned (type t) then 1 else 0)%nat.
Proof.
  unfold count_warned. rewrite filter_app, length_app. cbn [filter].
  destruct (warned (type t)); reflexivity.
Qed.

Lemma init_loop_logs (indeterminate : Token) (inp : list ascii)
  (fuel : nat) :
  forall (in_set : bool) (toks : list Token) (s : position)
         (toks' : list Token) (ws' : list string),
    List.length (warnings s) = count_warned toks ->
    init_loop indeterminate fuel inp in_set toks s = Ok (toks', ws') ->
    List.length ws' = count_warned toks'.
Proof.
  induction fuel as [|fuel IH]; intros in_set toks s toks' ws' Hinv H;
    [discriminate H|].
  cbn [init_loop] in H. destruct (idx s <? slen inp).
  - destruct (scan_token indeterminate inp in_set toks s)
      as [[[t in_set1] s1]| |] eqn:E; try discriminate H.
    apply scan_token_logs in E. destruct E as [extra [Hw Hl]].
    apply IH in H; [exact H|]. cbn [warnings].
    rewrite count_warned_app, Hw, length_app, Hinv, Hl. reflexivity.
  - inversion H; subst. exact Hinv.
Qed.

(** X20.
    Warnings and tokens go together: in every successful scan the number
    of warnings equals the number of WordBoundary and IgnoredExt tokens of
    the stream.  Each such token (from the escapes b and B and from the
    ignored extensions) is pushed with exactly one warning, and no other
    step of the scan, the sub-processors for octal and hexadecimal escapes
    and for quantifiers included, adds one. *)
Theorem warnings_counted (indeterminate : Token) (inp : list ascii)
  (sc : Scanner) :
  init indeterminate inp = Ok sc ->
  List.length (scanner_warnings sc) = count_warned (tokens sc).
Proof.
  intros H. unfold init in H.
  destruct (init_loop indeterminate (fuel_of inp) inp false [] (mkPos 0 []))
    as [[toks ws]| |] eqn:E; try discriminate H.
  inversion H; subst sc. cbn [tokens scanner_warnings].
  apply (init_loop_logs indeterminate inp (fuel_of inp) false []
           (mkPos 0 []) toks ws);
    [reflexivity|exact E].
Qed.

(** An instance: the pattern (?=a)\b, one IgnoredExt token, one
    WordBoundary token and two warnings. *)
Lemma warnings_counted_witness :
  List.length
    [warn_extension "="%char; warn_word_boundary "b"%char]
  = count_warned
      [mkToken LEFT_PAREN 0 0 zero; mkToken IGNORED_EXT 0 0 zero;
       mkToken CHARACTER 0 0 "a"%char; mkToken RIGHT_PAREN 0 0 zero;
       mkToken WORD_BOUNDARY 0 0 zero].
Proof.
  apply (warnings_counted blank (chars "(?=a)" ++ backslash :: chars "b")
           (mkScanner
              [mkToken LEFT_PAREN 0 0 zero; mkToken IGNORED_EXT 0 0 zero;
               mkToken CHARACTER 0 0 "a"%char; mkToken RIGHT_PAREN 0 0 zero;
               mkToken WORD_BOUNDARY 0 0 zero]
              0 [warn_extension "="%char; warn_word_boundary "b"%char])).
  vm_compute; reflexivity.
Defined.

(** ** Printing *)

Lemma print_token_view (t1 t2 : Token) :
  same_view t1 t2 -> print_token t1 = print_token t2.
Proof.
  unfold same_view, token_view, print_token. intros H.
  destruct (type t1), (type t2); try discriminate H;
    cbn [TokenType_eqb orb]; try reflexivity; inversion H; reflexivity.
Qed.

Lemma print_tokens_view (toks1 : list Token) :
  forall toks2 : list Token,
    map token_view toks1 = map token_view toks2 ->
    map print_token toks1 = map print_token toks2.
Proof.
  induction toks1 as [|t1 toks1 IH]; intros [|t2 toks2] H;
    try discriminate H; [reflexivity|].
  cbn [map] in *. injection H as Ht Hr.
  rewrite (print_token_view t1 t2 Ht), (IH toks2 Hr). reflexivity.
Qed.

(** X21.
    What [print] writes for a scanned pattern is fixed by the pattern:
    [print] shows of each token its kind, the bounds of a Repeat token and
    the character of a Character or CharClass token, which are the fields
    that the scan has assigned.  For any two values that the declaration
    [Token token;] may leave in a token, two successful scans of the same
    pattern print the same text. *)
Theorem print_ignores_uninitialised (j1 j2 : Token) (inp : list ascii)
  (sc1 sc2 : Scanner) :
  init j1 inp = Ok sc1 -> init j2 inp = Ok sc2 -> print sc1 = print sc2.
Proof.
  unfold init. intros H1 H2.
  pose proof (same_init_loop j1 j2 inp (fuel_of inp) false [] []
                (mkPos 0 []) eq_refl) as H.
  destruct (init_loop j1 (fuel_of inp) inp false [] (mkPos 0 []))
    as [[t1 w1]| |]; try discriminate H1.
  destruct (init_loop j2 (fuel_of inp) inp false [] (mkPos 0 []))
    as [[t2 w2]| |]; try discriminate H2.
  cbn [same_run] in H. destruct H as [Hv _].
  inversion H1; subst sc1. inversion H2; subst sc2.
  unfold print. cbn [tokens]. rewrite (print_tokens_view t1 t2 Hv).
  reflexivity.
Qed.

(** An instance: the pattern a* scanned from two different starting
    tokens. *)
Lemma print_ignores_uninitialised_witness :
  print (mkScanner [mkToken CHARACTER 0 0 "a"%char; mkToken STAR 0 0 zero]
           0 [])
  = print (mkScanner [mkToken CHARACTER 7 9 "a"%char;
                      mkToken STAR 7 9 "z"%char] 0 []).
Proof.
  apply (print_ignores_uninitialised blank (mkToken STAR 7 9 "z"%char)
           (chars "a*")).
  - vm_compute; reflexivity.
  - vm_compute; reflexivity.
Defined.

(** ** The run of the driver *)


(** In a pattern shorter than 2^32 characters every state of [driver_at]
    lies inside the pattern, and the scan continues from it with fuel to
    spare. *)
Lemma driver_run (indeterminate : Token) (inp : list ascii)
  (in_set : bool) (toks : list Token) (s : position) :
  slen inp < 4294967296 ->
  driver_at indeterminate inp in_set toks s ->
  0 <= idx s <= slen inp
  /\ exists fuel,
       slen inp - idx s < Z.of_nat fuel
       /\ init_loop indeterminate (fuel_of inp) inp false [] (mkPos 0 [])
          = init_loop indeterminate fuel inp in_set toks s.
Proof.
  intros Hlen.
  induction 1 as [|in_set in_set' toks s s' t Hd IH Hlt Hs].
  - pose proof (slen_nonneg inp). cbn [idx]. split; [lia|].
    exists (fuel_of inp). split; [unfold fuel_of, slen; lia|reflexivity].
  - destruct IH as [Hi [fuel [Hf E]]].
    pose proof (settled_scan_token indeterminate inp in_set toks s Hlen
                  (conj (proj1 Hi) Hlt)) as Hset.
    rewrite Hs in Hset. cbn [settled] in Hset. cbn [idx].
    rewrite uint_small by lia. split; [lia|].
    destruct fuel as [|fuel]; [lia|].
    exists fuel. split; [lia|].
    rewrite E. cbn [init_loop]. apply Z.ltb_lt in Hlt. rewrite Hlt, Hs.
    rewrite uint_small by lia. reflexivity.
Qed.


(** An error of the scan is the error of one iteration of the driver. *)
Lemma init_loop_throw (indeterminate : Token) (inp : list ascii)
  (msg : string) (fuel : nat) :
  forall (in_set : bool) (toks : list Token) (s : position),
    driver_at indeterminate inp in_set toks s ->
    init_loop indeterminate fuel inp in_set toks s = Throw msg ->
    exists in_set' toks' s',
      driver_at indeterminate inp in_set' toks' s'
      /\ idx s' < slen inp
      /\ scan_token indeterminate inp in_set' toks' s' = Throw msg.
Proof.
  induction fuel as [|fuel IH]; intros in_set toks s Hd H;
    [discriminate H|].
  cbn [init_loop] in H.
  destruct (Z.ltb_spec (idx s) (slen inp)) as [Hlt|]; [|discriminate H].
  destruct (scan_token indeterminate inp in_set toks s)
    as [[[t in_set1] s1]| |] eqn:E; try discriminate H.
  - apply (IH _ _ _ (driver_next _ _ _ _ _ _ _ _ Hd Hlt E) H).
  - inversion H; subst. exists in_set, toks, s. auto.
Qed.

(** The switch of the driver raises no error of its own: an error comes
    out of the escape case, of [process_extension] or of
    [process_repeat]. *)
Lemma scan_token_throws (indeterminate : Token) (inp : list ascii)
  (in_set : bool) (toks : list Token) (s : position) (msg : string) :
  scan_token indeterminate inp in_set toks s = Throw msg ->
  (char_at inp (idx s) = backslash
   /\ escape_case indeterminate inp in_set s = Throw msg)
  \/ (char_at inp (idx s) = "?"%char
      /\ back_is indeterminate toks LEFT_PAREN = true
      /\ process_extension indeterminate inp s = Throw msg)
  \/ (char_at inp (idx s) = "{"%char /\ in_set = false
      /\ process_repeat indeterminate inp s = Throw msg).
Proof.
  intros H. unfold scan_token in H. cbv zeta in H.
  unfold bind at 1, get_idx at 1 in H.
  repeat match type of H with
         | context [if ?b then _ else _] => destruct b eqn:?
         end;
    try (unfold bind, set_idx, ret in H; discriminate H);
    repeat match goal with
           | E : (_ =? _)%char = true |- _ => apply Ascii.eqb_eq in E
           end;
    unfold bind at 1 in H.
  - left. split; [assumption|].
    destruct (escape_case indeterminate inp in_set s) as [[t1 s1]| |];
      [discriminate H|congruence|discriminate H].
  - right; left. split; [assumption|]. split; [reflexivity|].
    destruct (process_extension indeterminate inp s) as [[t1 s1]| |];
      [discriminate H|congruence|discriminate H].
  - right; right. split; [assumption|]. split; [reflexivity|].
    destruct (process_repeat indeterminate inp s) as [[t1 s1]| |];
      [|congruence|discriminate H].
    unfold bind, get_idx, set_idx, ret in H.
    destruct (negb (TokenType_eqb (type t1) CHARACTER)
              && lazy_follows inp (idx s1)); discriminate H.
Qed.

Lemma back_is_snoc (indeterminate : Token) (toks : list Token) (t : Token)
  (ty : TokenType) :
  back_is indeterminate (toks ++ [t]) ty = TokenType_eqb (type t) ty.
Proof.
  unfold back_is. rewrite last_last, length_app. cbn [List.length].
  destruct (Z.gtb_spec (Z.of_nat (List.length toks + 1)) 0); [|lia].
  reflexivity.
Qed.

Lemma char_at_skipn (inp rest : list ascii) (n k : Z) :
  0 <= n -> 0 <= k ->
  skipn (Z.to_nat n) inp = rest ->
  char_at inp (n + k) = char_at rest k.
Proof.
  intros Hn Hk <-. unfold char_at.
  replace (Z.to_nat (n + k)) with (Z.to_nat n + Z.to_nat k)%nat by lia.
  generalize (Z.to_nat n) (Z.to_nat k). clear. intros n k.
  revert inp. induction n as [|n IH]; intros inp; [reflexivity|].
  destruct inp as [|c inp]; cbn [skipn Nat.add nth].
  - destruct k; reflexivity.
  - apply IH.
Qed.

Lemma slen_skipn (inp rest : list ascii) (n : Z) :
  0 <= n <= slen inp ->
  skipn (Z.to_nat n) inp = rest -> slen inp = n + slen rest.
Proof.
  intros Hn <-. unfold slen in *. rewrite length_skipn. lia.
Qed.

(** ** Anchors, end to end *)




(** ** Brackets and parentheses, end to end *)

(** The cases of the switch for the four bracket and parenthesis
    characters. *)
Lemma scan_token_brackets (indeterminate : Token) (inp : list ascii)
  (in_set : bool) (toks : list Token) (s : position) :
  (char_at inp (idx s) = "("%char ->
   scan_token indeterminate inp in_set toks s
   = Ok ((if in_set then literal indeterminate "("%char
          else set_type indeterminate LEFT_PAREN, in_set), s))
  /\ (char_at inp (idx s) = ")"%char ->
      scan_token indeterminate inp in_set toks s
      = Ok ((if in_set then literal indeterminate ")"%char
             else set_type indeterminate RIGHT_PAREN, in_set), s))
  /\ (char_at inp (idx s) = "["%char ->
      scan_token indeterminate inp in_set toks s
      = Ok ((if in_set then literal indeterminate "["%char
             else set_type indeterminate LEFT_BRACKET, true), s))
  /\ (char_at inp (idx s) = "]"%char ->
      scan_token indeterminate inp in_set toks s
      = Ok (if in_set
            then if back_is indeterminate toks LEFT_BRACKET
                 then (literal indeterminate "]"%char, true)
                 else (set_type indeterminate RIGHT_BRACKET, false)
            else (literal indeterminate "]"%char, false), s)).
Proof.
  repeat split; intros Hc; unfold scan_token, bind, get_idx, ret;
    rewrite Hc; cbn [Ascii.eqb Bool.eqb andb]; cbv beta iota zeta;
    destruct in_set; cbn [andb]; try reflexivity.
  destruct (back_is indeterminate toks LEFT_BRACKET); reflexivity.
Qed.

(** An error of a sub-processor, where the driver calls it, is the error
    of the iteration. *)
Lemma scan_token_rethrows (indeterminate : Token) (inp : list ascii)
  (in_set : bool) (toks : list Token) (s : position) (msg : string) :
  (char_at inp (idx s) = backslash
   /\ escape_case indeterminate inp in_set s = Throw msg)
  \/ (char_at inp (idx s) = "?"%char
      /\ back_is indeterminate toks LEFT_PAREN = true
      /\ process_extension indeterminate inp s = Throw msg)
  \/ (char_at inp (idx s) = "{"%char /\ in_set = false
      /\ process_repeat indeterminate inp s = Throw msg) ->
  scan_token indeterminate inp in_set toks s = Throw msg.
Proof.
  intros [[Hc H]|[[Hc [Hb H]]|[Hc [Hs H]]]];
    unfold scan_token, get_idx; cbv zeta; unfold bind at 1;
    rewrite Hc; unfold backslash; cbn [Ascii.eqb Bool.eqb andb];
    cbv beta iota.
  - unfold bind. rewrite H. reflexivity.
  - rewrite Hb. unfold bind. rewrite H. reflexivity.
  - subst in_set. unfold bind at 1. rewrite H. reflexivity.
Qed.

(** C10, amended.  The scanner does not validate the balance of brackets
    and parentheses.  Every pattern (shorter than 2^32 characters) that
    contains no backslash, no opening curly brace and no question mark
    scans without error and without warning, whether its brackets and
    parentheses are balanced or not.  On each of the four characters the
    switch returns whatever the flag and the tokens before, with the index
    and the warnings as they were: outside a set an opening or closing
    parenthesis gives LeftParen or RightParen, an opening bracket gives
    LeftBracket and raises the flag, a closing bracket is a literal;
    inside a set the parentheses and the opening bracket are literals and
    the closing bracket lowers the flag with a RightBracket, unless it
    directly follows the LeftBracket, where it is a literal.  When the
    input ends the loop returns the tokens pushed so far, whatever the
    flag.  Hence the scan of every pattern shorter than 2^32 characters
    completes or raises an error, and it raises an error exactly when the
    escape case, on a backslash, or [process_extension], on a question
    mark after a LeftParen, or [process_repeat], on an opening curly brace
    outside a set, raises it in an iteration that the driver reaches.  An
    opening bracket that the driver reaches outside a set and that is
    followed up to the end of the pattern by characters other than
    backslash, closing bracket, hyphen, caret and dollar yields, after the
    tokens pushed before it, a LeftBracket and one literal Character per
    character.  Instances: [ab, (a, a), [(a with a literal parenthesis,
    and (a?b, (a{2} and the unclosed set of the escape d, which scan
    although they hold a question mark, a curly brace and a backslash. *)
Theorem unbalanced_pattern_scans (indeterminate : Token) :
  (forall inp : list ascii,
     slen inp < 4294967296 ->
     free_of processors inp = true ->
     exists sc,
       init indeterminate inp = Ok sc /\ scanner_warnings sc = [])
  /\ (forall (inp : list ascii) (in_set : bool) (toks : list Token)
             (s : position),
        (char_at inp (idx s) = "("%char ->
         scan_token indeterminate inp in_set toks s
         = Ok ((if in_set then literal indeterminate "("%char
                else set_type indeterminate LEFT_PAREN, in_set), s))
        /\ (char_at inp (idx s) = ")"%char ->
            scan_token indeterminate inp in_set toks s
            = Ok ((if in_set then literal indeterminate ")"%char
                   else set_type indeterminate RIGHT_PAREN, in_set), s))
        /\ (char_at inp (idx s) = "["%char ->
            scan_token indeterminate inp in_set toks s
            = Ok ((if in_set then literal indeterminate "["%char
                   else set_type indeterminate LEFT_BRACKET, true), s))
        /\ (char_at inp (idx s) = "]"%char ->
            scan_token indeterminate inp in_set toks s
            = Ok (if in_set
                  then if back_is indeterminate toks LEFT_BRACKET
                       then (literal indeterminate "]"%char, true)
                       else (set_type indeterminate RIGHT_BRACKET, false)
                  else (literal indeterminate "]"%char, false), s)))
  /\ (forall (inp : list ascii) (fuel : nat) (in_set : bool)
             (toks : list Token) (s : position),
        slen inp <= idx s ->
        init_loop indeterminate (S fuel) inp in_set toks s
        = Ok (toks, warnings s))
  /\ (forall inp : list ascii,
        slen inp < 4294967296 ->
        ((exists sc, init indeterminate inp = Ok sc)
         \/ (exists msg, init indeterminate inp = Throw msg))
        /\ forall msg : string,
             init indeterminate inp = Throw msg <->
             exists (in_set : bool) (toks : list Token) (s : position),
               driver_at indeterminate inp in_set toks s
               /\ idx s < slen inp
               /\ ((char_at inp (idx s) = backslash
                    /\ escape_case indeterminate inp in_set s = Throw msg)
                   \/ (char_at inp (idx s) = "?"%char
                       /\ back_is indeterminate toks LEFT_PAREN = true
                       /\ process_extension indeterminate inp s
                          = Throw msg)
                   \/ (char_at inp (idx s) = "{"%char /\ in_set = false
                       /\ process_repeat indeterminate inp s
                          = Throw msg)))
  /\ (forall (inp : list ascii) (toks : list Token) (s : position)
             (body : list ascii),
        slen inp < 4294967296 ->
        driver_at indeterminate inp false toks s ->
        skipn (Z.to_nat (idx s)) inp = "["%char :: body ->
        free_of set_specials body = true ->
        init indeterminate inp
        = Ok (mkScanner
                (toks ++ set_type indeterminate LEFT_BRACKET
                      :: map (literal indeterminate) body)
                0 (warnings s)))
  /\ (exists sc, init indeterminate (chars "[ab") = Ok sc
        /\ kinds (tokens sc)
           = [(LEFT_BRACKET, character indeterminate);
              (CHARACTER, "a"%char); (CHARACTER, "b"%char)]
        /\ scanner_warnings sc = [])
  /\ (exists sc, init indeterminate (chars "(a") = Ok sc
        /\ map type (tokens sc) = [LEFT_PAREN; CHARACTER]
        /\ scanner_warnings sc = [])
  /\ (exists sc, init indeterminate (chars "a)") = Ok sc
        /\ map type (tokens sc) = [CHARACTER; RIGHT_PAREN]
        /\ scanner_warnings sc = [])
  /\ (exists sc, init indeterminate (chars "[(a") = Ok sc
        /\ kinds (tokens sc)
           = [(LEFT_BRACKET, character indeterminate);
              (CHARACTER, "("%char); (CHARACTER, "a"%char)]
        /\ scanner_warnings sc = [])
  /\ (exists sc, init indeterminate (chars "(a?b") = Ok sc
        /\ map type (tokens sc)
           = [LEFT_PAREN; CHARACTER; QUESTION; CHARACTER]
        /\ scanner_warnings sc = [])
  /\ (exists sc, init indeterminate (chars "(a{2}") = Ok sc
        /\ map type (tokens sc) = [LEFT_PAREN; CHARACTER; REPEAT]
        /\ scanner_warnings sc = [])
  /\ (exists sc,
        init indeterminate ("["%char :: backslash :: chars "d") = Ok sc
        /\ kinds (tokens sc)
           = [(LEFT_BRACKET, character indeterminate);
              (CHAR_CLASS, "d"%char)]
        /\ scanner_warnings sc = []).
Proof.
  split; [|split; [|split; [|split; [|split;
    [|repeat split; eexists;
      (split; [vm_compute; reflexivity|split; reflexivity])]]]]].
  - intros inp Hlen Hp.
    destruct (init_loop_total indeterminate inp []
                (fun _ _ _ => True))
      with (fuel := fuel_of inp) (in_set := false)
           (toks := @nil Token) (i := 0)
      as [in_set' [toks' [E _]]].
    + intros in_set toks i Hi _.
      pose proof (free_of_char_at _ _ _ Hp Hi) as Hc.
      destruct (scan_token_simple indeterminate inp in_set toks i [])
        as [t [in_set' [i' [E [Hi' _]]]]]; try assumption.
      * apply (mem_char_false _ _ _ Hc). cbn. auto.
      * intros Hb. exfalso. revert Hb.
        apply (mem_char_false _ _ _ Hc). cbn. auto.
      * intros Hb. exfalso. revert Hb.
        apply (mem_char_false _ _ _ Hc). cbn. auto.
      * exists t, in_set', i'. auto.
    + exact Hlen.
    + pose proof (slen_nonneg inp). lia.
    + unfold fuel_of, slen. lia.
    + exact Logic.I.
    + unfold init. rewrite E. eexists. split; reflexivity.
  - intros inp in_set toks s. apply scan_token_brackets.
  - intros inp fuel in_set toks s Hge. cbn [init_loop].
    destruct (Z.ltb_spec (idx s) (slen inp)); [lia|reflexivity].
  - intros inp Hlen.
    pose proof (slen_nonneg inp) as Hn0.
    pose proof (init_loop_settles indeterminate inp Hlen (fuel_of inp)
                  false [] (mkPos 0 [])
                  ltac:(cbn [idx]; lia)
                  ltac:(cbn [idx]; unfold fuel_of, slen; lia)) as Hterm.
    split.
    + unfold init.
      destruct (init_loop indeterminate (fuel_of inp) inp false []
                  (mkPos 0 [])) as [[toks0 ws0]| |];
        [left; eexists; reflexivity|right; eexists; reflexivity
        |contradiction].
    + intros msg. split.
      * intros H. unfold init in H.
        destruct (init_loop indeterminate (fuel_of inp) inp false []
                    (mkPos 0 [])) as [[toks0 ws0]| |] eqn:E;
          try discriminate H.
        inversion H; subst msg0. clear H.
        destruct (init_loop_throw _ _ _ _ _ _ _
                    (driver_start indeterminate inp) E)
          as [in_set [toks [s [Hd [Hlt Hs]]]]].
        exists in_set, toks, s. split; [exact Hd|]. split; [exact Hlt|].
        apply scan_token_throws. exact Hs.
      * intros [in_set [toks [s [Hd [Hlt Hs]]]]].
        apply scan_token_rethrows in Hs.
        destruct (driver_run _ _ _ _ _ Hlen Hd) as [Hi [fuel [Hf E]]].
        unfold init. rewrite E.
        destruct fuel as [|fuel]; [lia|].
        cbn [init_loop]. apply Z.ltb_lt in Hlt. rewrite Hlt, Hs.
        reflexivity.
  - intros inp toks s body Hlen Hd Hskip Hs.
    destruct (driver_run _ _ _ _ _ Hlen Hd) as [Hi [fuel [Hf E]]].
    pose proof (slen_skipn inp _ (idx s) Hi Hskip) as Hl.
    rewrite slen_cons in Hl. pose proof (slen_nonneg body) as Hb0.
    assert (Hat : forall k, 0 <= k ->
              char_at inp (idx s + k) = char_at ("["%char :: body) k).
    { intros k Hk. apply char_at_skipn; [lia|exact Hk|exact Hskip]. }
    assert (Hopen : char_at inp (idx s) = "["%char).
    { rewrite <- (Z.add_0_r (idx s)). rewrite Hat by lia. reflexivity. }
    unfold init. rewrite E.
    destruct fuel as [|fuel]; [lia|].
    cbn [init_loop]. destruct (Z.ltb_spec (idx s) (slen inp)); [|lia].
    rewrite (proj1 (proj2 (proj2 (scan_token_brackets indeterminate inp
                                    false toks s))) Hopen).
    cbn [idx warnings]. rewrite uint_small by lia.
    destruct (init_loop_total indeterminate inp (warnings s)
                (fun in_set toks' i =>
                   idx s + 1 <= i /\ in_set = true
                   /\ back_is indeterminate toks' LEFT_PAREN = false
                   /\ toks' = toks ++ set_type indeterminate LEFT_BRACKET
                              :: map (literal indeterminate)
                                   (firstn (Z.to_nat (i - idx s - 1)) body)))
      with (fuel := fuel) (in_set := true)
           (toks := toks ++ [set_type indeterminate LEFT_BRACKET])
           (i := idx s + 1)
      as [in_set' [toks' [E' [_ [_ [_ Htoks]]]]]].
    + intros in_set toks1 i Hi1 [Hi2 [-> [Hback ->]]].
      assert (Hci : char_at inp i = char_at body (i - idx s - 1)).
      { replace i with (idx s + (i - idx s)) at 1 by lia.
        rewrite Hat by lia. unfold char_at.
        replace (Z.to_nat (i - idx s))
          with (S (Z.to_nat (i - idx s - 1))) by lia.
        reflexivity. }
      assert (Hc : mem_char (char_at inp i) set_specials = false).
      { rewrite Hci. apply (free_of_char_at _ body _ Hs). lia. }
      exists (literal indeterminate (char_at inp i)), true, i.
      split; [|split; [lia|split; [lia|split; [reflexivity|split]]]].
      * apply (scan_token_literal_in_set indeterminate inp _
                 (mkPos i (warnings s))); [exact Hc|exact Hback].
      * rewrite back_is_snoc. reflexivity.
      * replace (i + 1 - idx s - 1) with (i - idx s - 1 + 1) by lia.
        rewrite firstn_succ by lia. rewrite map_app, Hci.
        cbn [map]. rewrite app_comm_cons, app_assoc. reflexivity.
    + exact Hlen.
    + lia.
    + lia.
    + split; [lia|]. split; [reflexivity|]. split.
      * rewrite back_is_snoc. reflexivity.
      * replace (idx s + 1 - idx s - 1) with 0 by lia. reflexivity.
    + rewrite E'. rewrite Htoks.
      replace (Z.to_nat (slen inp - idx s - 1)) with (List.length body)
        by (unfold slen in *; lia).
      rewrite firstn_all. reflexivity.
Qed.

(** An instance: the pattern (a[b)c, whose parenthesis and bracket are
    never closed. *)
Lemma unbalanced_pattern_scans_witness :
  exists sc,
    init blank (chars "(a[b)c") = Ok sc /\ scanner_warnings sc = [].
Proof.
  apply (proj1 (unbalanced_pattern_scans blank) (chars "(a[b)c")
           ltac:(vm_compute; reflexivity) eq_refl).
Defined.
